(** * pl-order-blocks: the ordering and grading element of PrairieLearn

    A shallow embedding of
    [apps/prairielearn/elements/pl-order-blocks/pl-order-blocks.py]
    and the properties of its grading and preparation code.

    Conventions of the embedding.
    - A Python [dict] whose iteration order is observable is a [pydict]
      (association list in insertion order); dictionaries that are only
      looked up are [gmap]s, sets are [gset]s.
    - Exceptions are values of [result]; a function that can raise returns
      [result A].
    - Scores are exact rationals ([Q]) compared with [==], as Python compares
      numbers; the representation error of binary floating point is not
      modelled.
    - The attributes of the element are taken after markup parsing: an
      attribute that is absent is [None], and the defaults are applied where
      the source applies them. *)

From Stdlib Require Import QArith.
From stdpp Require Import gmap strings list pretty sorting.

Local Open Scope Z_scope.

(** ** Enumerations *)

Inductive GradingMethodType := UNORDERED | ORDERED | RANKING | DAG | EXTERNAL.
Inductive SourceBlocksOrderType := SB_RANDOM | SB_ALPHABETIZED | SB_ORDERED.
Inductive FeedbackType := FB_NONE | FIRST_WRONG.
Inductive PartialCreditType := PC_NONE | LCS.
Inductive FormatType := FMT_DEFAULT | FMT_CODE.

#[global] Instance GradingMethodType_eq_dec : EqDecision GradingMethodType.
Proof. solve_decision. Defined.
#[global] Instance FeedbackType_eq_dec : EqDecision FeedbackType.
Proof. solve_decision. Defined.
#[global] Instance PartialCreditType_eq_dec : EqDecision PartialCreditType.
Proof. solve_decision. Defined.
#[global] Instance FormatType_eq_dec : EqDecision FormatType.
Proof. solve_decision. Defined.

(** ** Exceptions *)

Inductive error :=
  | KeyError
  | ZeroDivisionError
  | ValueError (msg : string)
  | Exception (msg : string)
  | GraphError.

Inductive result (A : Type) :=
  | Ok (a : A)
  | Raise (e : error).
Arguments Ok {A} a.
Arguments Raise {A} e.

#[global] Instance result_ret : MRet result := @Ok.
#[global] Instance result_bind : MBind result := λ A B f m,
  match m with Ok a => f a | Raise e => Raise e end.
#[global] Instance result_fmap : FMap result := λ A B f m,
  match m with Ok a => Ok (f a) | Raise e => Raise e end.

Definition is_Ok {A} (r : result A) : Prop := ∃ a, r = Ok a.
Definition is_Raise {A} (r : result A) : Prop := ∃ e, r = Raise e.

(** [d[k]] on a looked-up value: a missing key raises [KeyError]. *)
Definition subscript {A} (o : option A) : result A :=
  match o with Some a => Ok a | None => Raise KeyError end.

(** ** Dictionaries in insertion order *)

Definition pydict (K V : Type) := list (K * V).

Section pydict.
Context {K V : Type} `{EqDecision K}.

Fixpoint dict_get (k : K) (d : pydict K V) : option V :=
  match d with
  | [] => None
  | (k', v) :: d' => if decide (k' = k) then Some v else dict_get k d'
  end.

(** [d[k] = v]: an existing key keeps its position. *)
Fixpoint dict_set (k : K) (v : V) (d : pydict K V) : pydict K V :=
  match d with
  | [] => [(k, v)]
  | (k', v') :: d' =>
      if decide (k' = k) then (k, v) :: d' else (k', v') :: dict_set k v d'
  end.

(** [{key(x): val(x) for x in l}] *)
Definition dict_comp {A} (key : A → K) (val : A → V) (l : list A)
  : pydict K V :=
  foldl (λ d x, dict_set (key x) (val x) d) [] l.

(** [d.update(d')] *)
Definition dict_update (d d' : pydict K V) : pydict K V :=
  foldl (λ acc kv, dict_set kv.1 kv.2 acc) d d'.

Definition dict_keys (d : pydict K V) : list K := d.*1.
Definition dict_values (d : pydict K V) : list V := d.*2.
End pydict.

(** ** Data model *)

Record GroupInfo := {
  gi_tag : option string;
  gi_depends : option (list string) }.

(** The [OrderBlocksAnswerData] typed dictionary. [distractor_bin] is the
    only key that may be absent. *)
Record OrderBlocksAnswerData := {
  inner_html : string;
  indent : option Z;
  ranking : Z;
  index : nat;
  tag : string;
  distractor_for : option string;
  depends : list string;
  group_info : GroupInfo;
  distractor_bin : option string;
  uuid : string }.

(** A block of a submission, as decoded from the client's JSON and completed
    by [parse]. The key ["tag"] may be absent ([s_tag = None]), present and
    null ([Some None]) or a tag; ["inner_html"] and ["indent"] may be null. *)
Record SubmittedBlock := {
  s_inner_html : option string;
  s_indent : option Z;
  s_tag : option (option string);
  s_uuid : string }.

#[global] Instance GroupInfo_eq_dec : EqDecision GroupInfo.
Proof. solve_decision. Defined.
#[global] Instance OrderBlocksAnswerData_eq_dec :
  EqDecision OrderBlocksAnswerData.
Proof. solve_decision. Defined.
#[global] Instance SubmittedBlock_eq_dec : EqDecision SubmittedBlock.
Proof. solve_decision. Defined.

(** A correct-answer dictionary handed to [grade] as a submitted block, as
    [prepare] does for its self-check: the same keys, read by [grade] under
    the names of a submission. *)
Definition as_submitted (a : OrderBlocksAnswerData) : SubmittedBlock :=
  {| s_inner_html := Some (inner_html a);
     s_indent := indent a;
     s_tag := Some (Some (tag a));
     s_uuid := uuid a |}.

(** ** Constants *)

Definition GRADING_METHOD_DEFAULT := ORDERED.
Definition SOURCE_BLOCKS_ORDER_DEFAULT := SB_ALPHABETIZED.
Definition FEEDBACK_DEFAULT := FB_NONE.
Definition PL_ANSWER_CORRECT_DEFAULT := true.
Definition PL_ANSWER_INDENT_DEFAULT : Z := -1.
Definition INDENTION_DEFAULT := false.
Definition WEIGHT_DEFAULT : Z := 1.

Definition dquote : string := String (Ascii.ascii_of_nat 34) EmptyString.
Definition newline : string := String (Ascii.ascii_of_nat 10) EmptyString.
Definition margin : string := "        ".

Definition FW_incomplete : string :=
  "Your answer is correct so far, but it is incomplete.".

(** The ["wrong-at-block"] template, split at its [{}] placeholder. *)
Definition FW_wrong_at_block_before : string :=
  "Your answer is incorrect starting at <span style=" +:+ dquote +:+
  "color:red;" +:+ dquote +:+ ">block number ".
Definition FW_wrong_at_block_after : string :=
  "</span>." +:+ newline +:+ margin +:+
  "The problem is most likely one of the following:" +:+ newline +:+ margin +:+
  "<ul><li> This block is not a part of the correct solution </li>" +:+
  newline +:+ margin +:+
  "<li>This block needs to come after a block that did not appear before it </li>".
Definition FW_wrong_at_block (n : string) : string :=
  FW_wrong_at_block_before +:+ n +:+ FW_wrong_at_block_after.
Definition FW_indentation : string :=
  "<li>This line is indented incorrectly </li>".
Definition FW_block_group : string :=
  "<li> You have attempted to start a new section of the answer without finishing the previous section </li>".

(** ** The element and its markup, after attribute parsing *)

Inductive node_name := CommentNode | TagName (s : string).

#[global] Instance node_name_eq_dec : EqDecision node_name.
Proof. solve_decision. Defined.

(** Attributes of a node nested in the element. [at_other] lists the names
    of attributes that are none of those below. *)
Record Attribs := {
  at_correct : option bool;
  at_indent : option Z;
  at_ranking : option Z;
  at_distractor_for : option string;
  at_tag : option string;
  at_depends : option string;
  at_comment : option string;
  at_other : list string }.

(** A node of the markup: its tag name, its attributes and its
    [pl.inner_html]. *)
Record HtmlNode := {
  h_name : node_name;
  h_attrs : Attribs;
  h_inner : string }.

(** A child of the element together with its own children, which are read
    when the child is a [pl-block-group]. *)
Record HtmlChild := {
  c_node : HtmlNode;
  c_children : list HtmlNode }.

Record Element := {
  answers_name : string;
  source_blocks_order : option SourceBlocksOrderType;
  grading_method : option GradingMethodType;
  indentation : option bool;
  max_incorrect : option Z;
  min_incorrect : option Z;
  weight : option Z;
  feedback : option FeedbackType;
  partial_credit : option PartialCreditType;
  format : option FormatType;
  code_language : option string;
  el_children : list HtmlChild }.

(** ** Scores *)

(** Python's [max(a, b)]: the first argument unless the second is larger. *)
Definition pymax (a b : Q) : Q := if Qlt_le_dec a b then b else a.

Definition round_half_even (q : Q) : Z :=
  let n := Qnum q in
  let d := Z.pos (Qden q) in
  match (2 * (n mod d) ?= d) with
  | Lt => n / d
  | Gt => n / d + 1
  | Eq => if Z.even (n / d) then n / d else n / d + 1
  end.

(** [round(x, 2)] on the exact value of [x]. *)
Definition round2 (q : Q) : Q :=
  Qmake (round_half_even (Qmult q (inject_Z 100))) 100.

(** [float(a) / b] *)
Definition float_div (a b : Z) : result Q :=
  if decide (b = 0) then Raise ZeroDivisionError
  else Ok (Qdiv (inject_Z a) (inject_Z b)).

(** ** Sorting *)

Section sorting.
Context {A K : Type} (leb : K → K → bool) (key : A → K).

(** [sorted(l, key=key)], with [leb] the order of the keys: stable, an
    element goes before the elements of the sorted rest whose key is not
    smaller. *)
Fixpoint insert_by (x : A) (l : list A) : list A :=
  match l with
  | [] => [x]
  | y :: l' =>
      if leb (key x) (key y) then x :: l else y :: insert_by x l'
  end.

Definition sorted (l : list A) : list A := foldr insert_by [] l.
End sorting.

(** ** The indentation gate *)

(** [{ans["uuid"]: ans["indent"] for ans in true_answer_list}] *)
Definition indentations (true_answer_list : list OrderBlocksAnswerData)
  : gmap string (option Z) :=
  foldl (λ m ans, <[uuid ans := indent ans]> m) ∅ true_answer_list.

(** The assignment [ans["tag"] = None] or [ans["inner_html"] = None]. *)
Definition null_block (ans : SubmittedBlock) : SubmittedBlock :=
  match s_tag ans with
  | Some _ =>
      {| s_inner_html := s_inner_html ans; s_indent := s_indent ans;
         s_tag := Some None; s_uuid := s_uuid ans |}
  | None =>
      {| s_inner_html := None; s_indent := s_indent ans;
         s_tag := None; s_uuid := s_uuid ans |}
  end.

(** One iteration of the loop over [student_answer]. [indentations.get]
    yields [None] for an unknown uuid, like a recorded null indent. *)
Definition gate_block (inds : gmap string (option Z)) (ans : SubmittedBlock)
  : SubmittedBlock :=
  let indentation := default None (inds !! s_uuid ans) in
  if bool_decide (indentation ≠ Some (-1))
     && bool_decide (s_indent ans ≠ indentation)
  then null_block ans else ans.

(** The state of [student_answer] after the gate: the blocks are written in
    place, so this is also what [data["submitted_answers"]] holds afterwards. *)
Definition indentation_gate (check_indentation : bool)
    (true_answer_list : list OrderBlocksAnswerData)
    (student_answer : list SubmittedBlock) : list SubmittedBlock :=
  if check_indentation
  then gate_block (indentations true_answer_list) <$> student_answer
  else student_answer.

(** ** The dependency graph *)

Definition depends_graph_t := pydict string (list string).
Definition group_belonging_t := pydict string (option string).

Definition extract_dag (answers_list : list OrderBlocksAnswerData)
  : depends_graph_t * group_belonging_t :=
  let depends_graph := dict_comp tag depends answers_list in
  let group_belonging := dict_comp tag (λ ans, gi_tag (group_info ans))
                                   answers_list in
  let group_depends :=
    foldl (λ d ans,
             match gi_depends (group_info ans), gi_tag (group_info ans) with
             | Some deps, Some g => dict_set g deps d
             | _, _ => d
             end) [] answers_list in
  (dict_update depends_graph group_depends, group_belonging).

(** The graph of the [RANKING] method: the body of the branch of [grade]
    up to the call of [grade_dag]. *)
Section ranking.
Variable true_answer_list0 : list OrderBlocksAnswerData.

Definition ranking_sorted : list OrderBlocksAnswerData :=
  sorted Z.leb ranking true_answer_list0.

Definition ranking_true_answer : list string := tag <$> ranking_sorted.

Definition tag_to_rank : pydict string Z :=
  dict_comp tag ranking ranking_sorted.

(** [{rank: [tag for tag in tag_to_rank if tag_to_rank[tag] == rank]
      for rank in set(tag_to_rank.values())}] *)
Definition lines_of_rank : gmap Z (list string) :=
  set_to_map
    (λ rank, (rank, (filter (λ kv, kv.2 = rank) tag_to_rank).*1))
    (list_to_set (C := gset Z) (dict_values tag_to_rank)).

(** The loop over [true_answer], on the triple
    [(depends_graph, cur_rank_depends, prev_rank)]. *)
Definition ranking_step
    (st : depends_graph_t * list string * option Z) (t : string)
  : result (depends_graph_t * list string * option Z) :=
  let '(depends_graph, cur_rank_depends, prev_rank) := st in
  rank ← subscript (dict_get t tag_to_rank);
  cur_rank_depends ←
    match prev_rank with
    | Some p =>
        if decide (rank ≠ p) then subscript (lines_of_rank !! p)
        else Ok cur_rank_depends
    | None => Ok cur_rank_depends
    end;
  Ok (dict_set t cur_rank_depends depends_graph, cur_rank_depends, Some rank).

Fixpoint ranking_loop (st : depends_graph_t * list string * option Z)
    (ts : list string)
  : result (depends_graph_t * list string * option Z) :=
  match ts with
  | [] => Ok st
  | t :: ts' => st' ← ranking_step st t; ranking_loop st' ts'
  end.

Definition ranking_depends_graph : result depends_graph_t :=
  st ← ranking_loop ([], [], None) ranking_true_answer;
  Ok st.1.1.
End ranking.

(** ** Question data *)

Record PartialScore := {
  score : Q;
  ps_feedback : string;
  ps_weight : Z }.

Record QuestionData := {
  params : gmap string (list OrderBlocksAnswerData);
  correct_answers : gmap string (list OrderBlocksAnswerData);
  submitted_answers : gmap string (list SubmittedBlock);
  partial_scores : gmap string PartialScore }.

(** ** Grading *)

(** [group_belonging != {} and set(group_belonging.values()) != {None}] *)
Definition has_block_groups (group_belonging : group_belonging_t) : bool :=
  bool_decide (group_belonging ≠ [])
  && negb (bool_decide
             (list_to_set (C := gset (option string))
                          (dict_values group_belonging) = {[ None ]})).

(** The local variables of [grade] when it reaches its last statement. *)
Record Graded := {
  g_student_answer : list SubmittedBlock;
  g_final_score : Q;
  g_feedback : string;
  g_first_wrong : option nat }.

Section grading.
(** [grade_dag] and [lcs_partial_credit] are imported from [dag_checker];
    [grade] is defined over any pair of them. *)
Variable grade_dag :
  list (option string) → depends_graph_t → group_belonging_t →
  result (nat * nat).
Variable lcs_partial_credit :
  list (option string) → depends_graph_t → group_belonging_t → result nat.

Definition grade_unordered (true_answer_list : list OrderBlocksAnswerData)
    (student_answer : list SubmittedBlock) : result Q :=
  let true_answer_uuids : gset string :=
    list_to_set (uuid <$> true_answer_list) in
  let student_answer_uuids : gset string :=
    list_to_set (s_uuid <$> student_answer) in
  let correct_selections :=
    Z.of_nat (size (true_answer_uuids ∩ student_answer_uuids)) in
  let incorrect_selections :=
    Z.of_nat (length student_answer) - correct_selections in
  final_score ← float_div (correct_selections - incorrect_selections)
                          (Z.of_nat (length true_answer_list));
  Ok (pymax 0%Q final_score).

Definition grade_ordered (true_answer_list : list OrderBlocksAnswerData)
    (student_answer : list SubmittedBlock) : Q :=
  let student_answer := s_inner_html <$> student_answer in
  let true_answer := (λ ans, Some (inner_html ans)) <$> true_answer_list in
  if decide (student_answer = true_answer) then 1%Q else 0%Q.

Definition first_wrong_feedback (check_indentation : bool)
    (group_belonging : group_belonging_t) (first_wrong : option nat)
  : string :=
  match first_wrong with
  | None => FW_incomplete
  | Some fw =>
      FW_wrong_at_block (pretty (fw + 1)%nat)
      +:+ (if check_indentation then FW_indentation else EmptyString)
      +:+ (if has_block_groups group_belonging then FW_block_group
           else EmptyString)
      +:+ "</ul>"
  end.

(** The branch for [RANKING] and [DAG] up to the call of [grade_dag]:
    [(submission, depends_graph, group_belonging)]. *)
Definition graph_model (grading_method : GradingMethodType)
    (true_answer_list : list OrderBlocksAnswerData)
    (student_answer : list SubmittedBlock)
  : result (list (option string) * depends_graph_t * group_belonging_t) :=
  submission ← mapM (λ ans, subscript (s_tag ans)) student_answer;
  match grading_method with
  | RANKING =>
      depends_graph ← ranking_depends_graph true_answer_list;
      Ok (submission, depends_graph, [])
  | _ =>
      let '(depends_graph, group_belonging) := extract_dag true_answer_list in
      Ok (submission, depends_graph, group_belonging)
  end.

(** The branch for [RANKING] and [DAG]; yields
    [(final_score, feedback, first_wrong)]. *)
Definition grade_graph (grading_method : GradingMethodType)
    (check_indentation : bool) (feedback_type : FeedbackType)
    (partial_credit_type : PartialCreditType)
    (true_answer_list : list OrderBlocksAnswerData)
    (student_answer : list SubmittedBlock)
  : result (Q * string * option nat) :=
  '(submission, depends_graph, group_belonging) ←
    graph_model grading_method true_answer_list student_answer;
  '(num_initial_correct, true_answer_length) ←
    grade_dag submission depends_graph group_belonging;
  let first_wrong :=
    if decide (num_initial_correct = length submission) then None
    else Some num_initial_correct in
  final_score ←
    match partial_credit_type with
    | PC_NONE =>
        Ok (if decide (num_initial_correct = true_answer_length) then 1%Q
            else if decide (num_initial_correct < true_answer_length)%nat
                 then 0%Q
                 else 0%Q)
    | LCS =>
        edit_distance ←
          lcs_partial_credit submission depends_graph group_belonging;
        q ← float_div (Z.of_nat true_answer_length - Z.of_nat edit_distance)
                      (Z.of_nat true_answer_length);
        Ok (pymax 0%Q q)
    end;
  let feedback :=
    if Qlt_le_dec final_score 1
    then match feedback_type with
         | FB_NONE => EmptyString
         | FIRST_WRONG =>
             first_wrong_feedback check_indentation group_belonging
                                  first_wrong
         end
    else EmptyString in
  Ok (final_score, feedback, first_wrong).

Definition grade_locals (element : Element)
    (true_answer_list : list OrderBlocksAnswerData)
    (student_answer : list SubmittedBlock) : result Graded :=
  let grading_method :=
    default GRADING_METHOD_DEFAULT (grading_method element) in
  let check_indentation := default INDENTION_DEFAULT (indentation element) in
  let feedback_type := default FEEDBACK_DEFAULT (feedback element) in
  let partial_credit_type := default LCS (partial_credit element) in
  let student_answer :=
    indentation_gate check_indentation true_answer_list student_answer in
  match grading_method with
  | UNORDERED =>
      final_score ← grade_unordered true_answer_list student_answer;
      Ok {| g_student_answer := student_answer;
            g_final_score := final_score;
            g_feedback := EmptyString; g_first_wrong := None |}
  | ORDERED =>
      Ok {| g_student_answer := student_answer;
            g_final_score := grade_ordered true_answer_list student_answer;
            g_feedback := EmptyString; g_first_wrong := None |}
  | RANKING | DAG =>
      '(final_score, feedback, first_wrong) ←
        grade_graph grading_method check_indentation feedback_type
                    partial_credit_type true_answer_list student_answer;
      Ok {| g_student_answer := student_answer;
            g_final_score := final_score;
            g_feedback := feedback; g_first_wrong := first_wrong |}
  | EXTERNAL =>
      Ok {| g_student_answer := student_answer;
            g_final_score := 0%Q;
            g_feedback := EmptyString; g_first_wrong := None |}
  end.

(** [grade(element_html, data)]: the data after the call. The blocks of
    the submission are the objects that the gate wrote to. *)
Definition grade (element : Element) (data : QuestionData)
  : result QuestionData :=
  let answer_name := answers_name element in
  student_answer ← subscript (submitted_answers data !! answer_name);
  let answer_weight := default WEIGHT_DEFAULT (weight element) in
  true_answer_list ← subscript (correct_answers data !! answer_name);
  g ← grade_locals element true_answer_list student_answer;
  Ok {| params := params data;
        correct_answers := correct_answers data;
        submitted_answers :=
          <[answer_name := g_student_answer g]> (submitted_answers data);
        partial_scores :=
          <[answer_name := {| score := round2 (g_final_score g);
                              ps_feedback := g_feedback g;
                              ps_weight := answer_weight |}]>
            (partial_scores data) |}.
End grading.

(** ** Strings of the markup *)

Definition is_space (c : Ascii.ascii) : bool :=
  let n := Ascii.nat_of_ascii c in
  ((9 <=? n) && (n <=? 13) || (28 <=? n) && (n <=? 32))%nat.

Fixpoint lstrip (s : string) : string :=
  match s with
  | EmptyString => EmptyString
  | String c s' => if is_space c then lstrip s' else s
  end.

Fixpoint rstrip (s : string) : string :=
  match s with
  | EmptyString => EmptyString
  | String c s' =>
      let r := rstrip s' in
      if is_space c && bool_decide (r = EmptyString) then EmptyString
      else String c r
  end.

(** [s.strip()], for the white space of ASCII. *)
Definition strip (s : string) : string := rstrip (lstrip s).

(** [s.split(sep)] for a separator of one character. *)
Fixpoint split (sep : Ascii.ascii) (s : string) : list string :=
  match s with
  | EmptyString => [EmptyString]
  | String c s' =>
      if decide (c = sep) then EmptyString :: split sep s'
      else match split sep s' with
           | h :: t => String c h :: t
           | [] => [String c EmptyString]
           end
  end.

Definition comma : Ascii.ascii := Ascii.ascii_of_nat 44.

(** ** Fresh identifiers *)

(** [pl.get_uuid()] returns an identifier that no earlier call returned; the
    call number [n] of a run of [prepare] yields [get_uuid n]. *)
Definition get_uuid (n : nat) : string := "uuid-" +:+ pretty n.

(** ** Solving *)

Section solving.
Variable solve_dag :
  depends_graph_t → group_belonging_t → result (list string).

(** [solution.index(x)]; [None] stands for the [ValueError]. *)
Fixpoint list_index (x : string) (solution : list string) : option nat :=
  match solution with
  | [] => None
  | y :: l => if decide (y = x) then Some 0%nat else S <$> list_index x l
  end.

Definition solve_problem (answers_list : list OrderBlocksAnswerData)
    (grading_method : GradingMethodType)
  : result (list OrderBlocksAnswerData) :=
  match grading_method with
  | EXTERNAL | UNORDERED | ORDERED => Ok answers_list
  | RANKING => Ok (sorted Z.leb ranking answers_list)
  | DAG =>
      let '(depends_graph, group_belonging) := extract_dag answers_list in
      solution ← solve_dag depends_graph group_belonging;
      if forallb (λ x, bool_decide (is_Some (list_index (tag x) solution)))
                 answers_list
      then Ok (sorted Nat.leb
                      (λ x, default 0%nat (list_index (tag x) solution))
                      answers_list)
      else Raise (ValueError "is not in list")
  end.
End solving.

(** ** Preparation *)

(** The names of the attributes that a node carries. *)
Definition present {A} (name : string) (o : option A) : list string :=
  match o with Some _ => [name] | None => [] end.

Definition attrib_names (a : Attribs) : list string :=
  present "correct" (at_correct a)
  ++ present "indent" (at_indent a)
  ++ present "ranking" (at_ranking a)
  ++ present "distractor-for" (at_distractor_for a)
  ++ present "tag" (at_tag a)
  ++ present "depends" (at_depends a)
  ++ present "comment" (at_comment a)
  ++ at_other a.

(** [pl.check_attribs(node, required_attribs=[], optional_attribs=...)]:
    every attribute of the node has to be one of the optional ones. *)
Definition check_attribs (a : Attribs) (optional_attribs : list string)
  : result unit :=
  if forallb (λ n, bool_decide (n ∈ optional_attribs)) (attrib_names a)
  then Ok ()
  else Raise (Exception "Unknown attribute").

(** [get_graph_info], given the identifier that [pl.get_uuid()] returns for
    the default of the tag. *)
Definition get_graph_info (fresh : string) (a : Attribs)
  : string * list string :=
  let tag := strip (default fresh (at_tag a)) in
  let depends := default EmptyString (at_depends a) in
  let depends :=
    if decide (depends = EmptyString) then []
    else strip <$> split comma depends in
  (tag, depends).

(** The calls of the [random] module. *)
Record Random := {
  randint : Z → Z → Z;
  sample : list OrderBlocksAnswerData → nat → list OrderBlocksAnswerData;
  shuffle : list OrderBlocksAnswerData → list OrderBlocksAnswerData }.

(** The variables that the traversal of the markup writes to, with the
    number of calls of [pl.get_uuid] made so far. *)
Record PrepareState := {
  st_uuids : nat;
  st_used_tags : gset string;
  st_correct_answers : list OrderBlocksAnswerData;
  st_incorrect_answers : list OrderBlocksAnswerData }.

Definition msg_nested : string :=
  "Any html tags nested inside <pl-order-blocks> must be <pl-answer> or <pl-block-group>. Any html tags nested inside <pl-block-group> must be <pl-answer>".
Definition msg_tag_used (t : string) : string :=
  "Tag " +:+ dquote +:+ t +:+ dquote +:+
  " used in multiple places. The tag attribute for each <pl-answer> and <pl-block-group> must be unique.".

Section prepare_tag.
Variable grading_method : GradingMethodType.
Variable check_indentation : bool.
Variable format : FormatType.
Variable code_language : option string.

Definition answer_attribs : list string :=
  match grading_method with
  | EXTERNAL => ["correct"]
  | UNORDERED | ORDERED => ["correct"; "indent"]
  | RANKING => ["correct"; "tag"; "ranking"; "indent"; "distractor-for"]
  | DAG => ["correct"; "tag"; "depends"; "comment"; "indent";
            "distractor-for"]
  end.

Definition prepare_tag (html_tags : HtmlNode) (index : nat)
    (group_info : GroupInfo) (st : PrepareState) : result PrepareState :=
  if decide (h_name html_tags ≠ TagName "pl-answer")
  then Raise (Exception msg_nested)
  else
    _ ← check_attribs (h_attrs html_tags) answer_attribs;
    let is_correct :=
      default PL_ANSWER_CORRECT_DEFAULT (at_correct (h_attrs html_tags)) in
    let answer_indent := at_indent (h_attrs html_tags) in
    let inner_html := h_inner html_tags in
    let ranking := default (-1) (at_ranking (h_attrs html_tags)) in
    let distractor_for := at_distractor_for (h_attrs html_tags) in
    if bool_decide (distractor_for ≠ None) && is_correct
    then Raise (Exception
      "The distractor-for attribute may only be used on blocks with correct=false.")
    else
      let '(tag, depends) :=
        get_graph_info (get_uuid (st_uuids st)) (h_attrs html_tags) in
      if is_correct && bool_decide (tag ∈ st_used_tags st)
      then Raise (Exception (msg_tag_used tag))
      else
        let used_tags :=
          if is_correct then {[ tag ]} ∪ st_used_tags st
          else st_used_tags st in
        if negb check_indentation && bool_decide (answer_indent ≠ None)
        then Raise (Exception
          "<pl-answer> should not specify indentation if indentation is disabled.")
        else
          let inner_html :=
            match format with
            | FMT_CODE =>
                "<pl-code"
                +:+ match code_language with
                    | Some l =>
                        if decide (l = EmptyString) then EmptyString
                        else " language=" +:+ dquote +:+ l +:+ dquote
                    | None => EmptyString
                    end
                +:+ ">" +:+ inner_html +:+ "</pl-code>"
            | FMT_DEFAULT => inner_html
            end in
          let answer_data_dict :=
            {| inner_html := inner_html;
               indent := answer_indent;
               ranking := ranking;
               index := index;
               tag := tag;
               distractor_for := distractor_for;
               depends := depends;
               group_info := group_info;
               distractor_bin := None;
               uuid := get_uuid (S (st_uuids st)) |} in
          Ok {| st_uuids := S (S (st_uuids st));
                st_used_tags := used_tags;
                st_correct_answers :=
                  if is_correct
                  then st_correct_answers st ++ [answer_data_dict]
                  else st_correct_answers st;
                st_incorrect_answers :=
                  if is_correct then st_incorrect_answers st
                  else st_incorrect_answers st ++ [answer_data_dict] |}.

(** The nodes of a [pl-block-group]. *)
Fixpoint prepare_group (grouped : list HtmlNode) (group_info : GroupInfo)
    (st : PrepareState) (index : nat) : result (PrepareState * nat) :=
  match grouped with
  | [] => Ok (st, index)
  | grouped_tag :: rest =>
      st' ← prepare_tag grouped_tag index group_info st;
      prepare_group rest group_info st' (S index)
  end.

(** One iteration of the loop over the children of the element. *)
Definition prepare_child (html_tags : HtmlChild) (st : PrepareState)
    (index : nat) : result (PrepareState * nat) :=
  if decide (h_name (c_node html_tags) = CommentNode) then Ok (st, index)
  else if decide (h_name (c_node html_tags) = TagName "pl-block-group")
  then
    if decide (grading_method ≠ DAG)
    then Raise (Exception
      "Block groups only supported in the dag grading mode.")
    else
      let '(group_tag, group_depends) :=
        get_graph_info (get_uuid (st_uuids st))
                       (h_attrs (c_node html_tags)) in
      if decide (group_tag ∈ st_used_tags st)
      then Raise (Exception (msg_tag_used group_tag))
      else
        prepare_group (c_children html_tags)
          {| gi_tag := Some group_tag; gi_depends := Some group_depends |}
          {| st_uuids := S (st_uuids st);
             st_used_tags := {[ group_tag ]} ∪ st_used_tags st;
             st_correct_answers := st_correct_answers st;
             st_incorrect_answers := st_incorrect_answers st |}
          index
  else
    st' ← prepare_tag (c_node html_tags) index
                      {| gi_tag := None; gi_depends := None |} st;
    Ok (st', S index).

Fixpoint prepare_children (children : list HtmlChild) (st : PrepareState)
    (index : nat) : result (PrepareState * nat) :=
  match children with
  | [] => Ok (st, index)
  | html_tags :: rest =>
      '(st', index') ← prepare_child html_tags st index;
      prepare_children rest st' index'
  end.
End prepare_tag.

(** The blocks that share a distractor bin: the loop over [all_blocks] that
    writes ["distractor_bin"]. A block is a dictionary shared by
    [all_blocks] and [correct_answers]; it is identified by its [index], and
    the bins written are collected in a map from indices. *)
Definition assign_bins (all_blocks : list OrderBlocksAnswerData) (uuids : nat)
  : gmap nat string * nat :=
  foldl (λ '(bins, n) block,
           match distractor_for block with
           | Some _ => (bins, n)
           | None =>
               let distractors :=
                 filter (λ block2, distractor_for block2 = Some (tag block))
                        all_blocks in
               match distractors with
               | [] => (bins, n)
               | _ =>
                   let distractor_bin := get_uuid n in
                   (foldl (λ b distractor,
                             <[index distractor := distractor_bin]> b)
                          (<[index block := distractor_bin]> bins)
                          distractors,
                    S n)
               end
           end)
        (∅, uuids) all_blocks.

Definition with_bin (bins : gmap nat string) (block : OrderBlocksAnswerData)
  : OrderBlocksAnswerData :=
  match bins !! index block with
  | Some b =>
      {| inner_html := inner_html block; indent := indent block;
         ranking := ranking block; index := index block; tag := tag block;
         distractor_for := distractor_for block; depends := depends block;
         group_info := group_info block; distractor_bin := Some b;
         uuid := uuid block |}
  | None => block
  end.

(** The tags that [prepare] compares for the visual pairing. *)
Definition correct_tags (all_blocks : list OrderBlocksAnswerData)
  : gset string :=
  list_to_set (tag <$> all_blocks).

Definition incorrect_tags (all_blocks : list OrderBlocksAnswerData)
  : gset string :=
  list_to_set
    (omap (λ block,
             match distractor_for block with
             | Some d => if decide (d = EmptyString) then None else Some d
             | None => None
             end) all_blocks).

Section prepare.
Variable grade_dag :
  list (option string) → depends_graph_t → group_belonging_t →
  result (nat * nat).
Variable lcs_partial_credit :
  list (option string) → depends_graph_t → group_belonging_t → result nat.
Variable solve_dag :
  depends_graph_t → group_belonging_t → result (list string).
Variable random : Random.

(** The checks of the attributes of the element. *)
Definition prepare_checks (element : Element) : result unit :=
  let grading_method :=
    default GRADING_METHOD_DEFAULT (grading_method element) in
  let feedback_type := default FEEDBACK_DEFAULT (feedback element) in
  if bool_decide (grading_method ≠ DAG)
     && bool_decide (grading_method ≠ RANKING)
     && bool_decide (is_Some (partial_credit element))
  then Raise (Exception
    "You may only specify partial credit options in the DAG and ranking grading modes.")
  else if bool_decide (grading_method ≠ DAG)
          && bool_decide (grading_method ≠ RANKING)
          && bool_decide (feedback_type ≠ FB_NONE)
  then Raise (Exception
    "feedback type {feedback_type.value} is not available with the {grading_method.value} grading-method.")
  else if bool_decide (default FMT_DEFAULT (format element) = FMT_DEFAULT)
          && bool_decide (code_language element ≠ None)
  then Raise (Exception
    "code-language attribute may only be used with format=code")
  else Ok ().

(** The sampling and the ordering of the blocks; yields [all_blocks]. *)
Definition prepare_blocks (element : Element)
    (correct_answers incorrect_answers : list OrderBlocksAnswerData)
  : result (list OrderBlocksAnswerData) :=
  let all_incorrect_answers := Z.of_nat (length incorrect_answers) in
  let max_incorrect :=
    default all_incorrect_answers (max_incorrect element) in
  let min_incorrect :=
    default all_incorrect_answers (min_incorrect element) in
  if bool_decide (min_incorrect > Z.of_nat (length incorrect_answers))
     || bool_decide (max_incorrect > Z.of_nat (length incorrect_answers))
  then Raise (Exception
    "The min-incorrect or max-incorrect attribute may not exceed the number of incorrect <pl-answers>.")
  else if bool_decide (min_incorrect > max_incorrect)
  then Raise (Exception
    "The attribute min-incorrect must be smaller than max-incorrect.")
  else
    let incorrect_answers_count :=
      randint random min_incorrect max_incorrect in
    if bool_decide (incorrect_answers_count < 0)
       || bool_decide (incorrect_answers_count
                       > Z.of_nat (length incorrect_answers))
    then Raise (ValueError "Sample larger than population or is negative")
    else
      let sampled_correct_answers := correct_answers in
      let sampled_incorrect_answers :=
        sample random incorrect_answers (Z.to_nat incorrect_answers_count) in
      let all_blocks := sampled_correct_answers ++ sampled_incorrect_answers in
      Ok match default SOURCE_BLOCKS_ORDER_DEFAULT
                       (source_blocks_order element) with
         | SB_RANDOM => shuffle random all_blocks
         | SB_ORDERED => sorted Nat.leb index all_blocks
         | SB_ALPHABETIZED => sorted String.leb inner_html all_blocks
         end.

(** [prepare(element_html, data)]: the data after the call.

    The self-check hands the dictionaries of [correct_answers] themselves
    to [grade] as the submission. The only writes of [grade] to a
    submitted block are those of the indentation gate, and the gate writes
    nothing when a block is graded against itself (lemma
    [indentation_gate_self] below, the identifiers of the blocks being
    distinct), so the blocks are stored as they were built. *)
Definition prepare (element : Element) (data : QuestionData)
  : result QuestionData :=
  let answer_name := answers_name element in
  let check_indentation := default INDENTION_DEFAULT (indentation element) in
  let grading_method :=
    default GRADING_METHOD_DEFAULT (grading_method element) in
  _ ← prepare_checks element;
  let format := default FMT_DEFAULT (format element) in
  '(st, _) ←
    prepare_children grading_method check_indentation format
      (code_language element) (el_children element)
      {| st_uuids := 0; st_used_tags := ∅;
         st_correct_answers := []; st_incorrect_answers := [] |} 0%nat;
  let correct_answers0 := st_correct_answers st in
  let incorrect_answers := st_incorrect_answers st in
  if bool_decide (grading_method ≠ EXTERNAL)
     && bool_decide (length correct_answers0 = 0%nat)
  then Raise (Exception
    "There are no correct answers specified for this question.")
  else
    all_blocks ← prepare_blocks element correct_answers0 incorrect_answers;
    if decide (incorrect_tags all_blocks ⊆ correct_tags all_blocks)
    then
      let '(bins, _) := assign_bins all_blocks (st_uuids st) in
      let all_blocks := with_bin bins <$> all_blocks in
      let correct_answers1 := with_bin bins <$> correct_answers0 in
      let data1 :=
        {| params := <[answer_name := all_blocks]> (params data);
           correct_answers :=
             <[answer_name := correct_answers1]> (correct_answers data);
           submitted_answers := submitted_answers data;
           partial_scores := partial_scores data |} in
      let data_copy :=
        {| params := params data1;
           correct_answers := correct_answers data1;
           submitted_answers :=
             {[ answer_name := as_submitted <$> correct_answers1 ]};
           partial_scores := ∅ |} in
      graded ← grade grade_dag lcs_partial_credit element data_copy;
      partial_score ← subscript (partial_scores graded !! answer_name);
      if Qeq_bool (score partial_score) 1
      then Ok data1
      else
        solution ← solve_problem solve_dag correct_answers1 grading_method;
        Ok {| params := params data1;
              correct_answers :=
                <[answer_name := solution]> (correct_answers data1);
              submitted_answers := submitted_answers data1;
              partial_scores := partial_scores data1 |}
    else Raise (ValueError
      "The following distractor-for tags do not have matching correct answer tags").
End prepare.

(** ** The dependency checker

    [pl-order-blocks.py] imports [grade_dag], [lcs_partial_credit] and
    [solve_dag] from the module [dag_checker] of the element. The module is
    described in sections 3 and 4.3 to 4.5 of the specification; the
    definitions below follow that description. *)
Module dag_checker.
Local Open Scope nat_scope.

Section graph.
Variable depends_graph : depends_graph_t.
Variable group_belonging : group_belonging_t.

(** Modelled from the spec: the groups of the graph model, which are the
    group tags that own a fragment in [group_belonging]. *)
Definition group_tags : list string := omap id (dict_values group_belonging).

(** Modelled from the spec: the fragment tags of the correct set, which
    are the nodes of the graph that are not groups. *)
Definition fragment_tags : list string :=
  filter (λ t, t ∉ group_tags) (dict_keys depends_graph).

(** Modelled from the spec: the group that owns a fragment, if any. *)
Definition group_of (t : string) : option string :=
  default None (dict_get t group_belonging).

(** Modelled from the spec: the fragments that a group owns. *)
Definition members (g : string) : list string :=
  (filter (λ kv, kv.2 = Some g) group_belonging).*1.

(** Modelled from the spec: the effective dependencies of a fragment,
    its own [depends] and, if grouped, those of its group. *)
Definition effective_depends (t : string) : list string :=
  default [] (dict_get t depends_graph)
  ++ match group_of t with
     | Some g => default [] (dict_get g depends_graph)
     | None => []
     end.

(** Modelled from the spec: a group is consumed once all its fragments
    are among the tags satisfied so far. *)
Definition consumed (seen : list string) (g : string) : bool :=
  forallb (λ t, bool_decide (t ∈ seen)) (members g).

(** Modelled from the spec: a node is satisfied if it is a fragment
    satisfied so far, or a group that is consumed. *)
Definition satisfied (seen : list string) (d : string) : bool :=
  if bool_decide (d ∈ group_tags) then consumed seen d
  else bool_decide (d ∈ seen).

(** Modelled from the spec: the state of the walk of the prefix
    validator, the tags satisfied so far (latest first). The previous
    valid tag is the head. *)
Definition open_group (seen : list string) : option string :=
  match seen with
  | [] => None
  | p :: _ =>
      match group_of p with
      | Some g => if consumed seen g then None else Some g
      | None => None
      end
  end.

(** Modelled from the spec: group contiguity, condition (c) of the
    prefix validator. While the group of the previous valid tag is not
    consumed, the next tag belongs to that group or depends directly on
    it. *)
Definition contiguous (seen : list string) (t : string) : bool :=
  match open_group seen with
  | None => true
  | Some g =>
      bool_decide (group_of t = Some g)
      || bool_decide (g ∈ effective_depends t)
  end.

(** Modelled from the spec: validity of a submitted tag at a position of
    the walk, conditions (a) to (c) of the prefix validator; a tag that
    matches no correct fragment is never valid. *)
Definition valid_next (seen : list string) (t : option string) : bool :=
  match t with
  | None => false
  | Some t =>
      bool_decide (t ∈ fragment_tags)
      && forallb (satisfied seen) (effective_depends t)
      && contiguous seen t
  end.

(** Modelled from the spec: the number of leading positions that are
    valid with no invalid position before them. *)
Fixpoint prefix_valid (seen : list string)
    (submission : list (option string)) : nat :=
  match submission with
  | [] => 0
  | t :: rest =>
      if valid_next seen t
      then match t with
           | Some t' => S (prefix_valid (t' :: seen) rest)
           | None => 0
           end
      else 0
  end.

(** Modelled from the spec: a valid order is an order of all the
    fragment tags that the prefix validator accepts to its end. *)
Definition valid_order (order : list string) : bool :=
  bool_decide (prefix_valid [] (Some <$> order) = length order).

Definition valid_orders : list (list string) :=
  filter (λ o, valid_order o = true) (permutations fragment_tags).
End graph.

(** Modelled from the spec: [grade_dag], the prefix validator of section
    4.4. It returns [(num_initial_correct, true_answer_length)]. *)
Definition grade_dag (submission : list (option string))
    (depends_graph : depends_graph_t) (group_belonging : group_belonging_t)
  : result (nat * nat) :=
  Ok (prefix_valid depends_graph group_belonging [] submission,
      length (fragment_tags depends_graph group_belonging)).

(** Modelled from the spec: the length of a longest common subsequence. *)
Fixpoint lcs_length {A} `{EqDecision A} (xs ys : list A) : nat :=
  match xs with
  | [] => 0
  | x :: xs' =>
      (fix inner (ys : list A) : nat :=
         match ys with
         | [] => 0
         | y :: ys' =>
             if decide (x = y) then S (lcs_length xs' ys')
             else lcs_length xs' ys `max` inner ys'
         end) ys
  end.

(** Modelled from the spec: the number of insertions and deletions that
    turn the submission into a given order, the elements outside a longest
    common subsequence. *)
Definition edits (submission : list (option string)) (order : list string)
  : nat :=
  length submission + length order
  - 2 * lcs_length submission (Some <$> order).

(** Modelled from the spec: [lcs_partial_credit], the edit-distance scorer
    of section 4.5, the least number of edits over the valid orders. A
    graph without a valid order is a graph error. *)
Definition lcs_partial_credit (submission : list (option string))
    (depends_graph : depends_graph_t) (group_belonging : group_belonging_t)
  : result nat :=
  match valid_orders depends_graph group_belonging with
  | [] => Raise GraphError
  | o :: os => Ok (foldr Nat.min (edits submission o) (edits submission <$> os))
  end.

(** Modelled from the spec: the search of the topological solver of
    section 4.3. The next tag is the first remaining one, in the order of
    declaration, that is valid and from which the rest can be ordered. *)
Fixpoint search (depends_graph : depends_graph_t)
    (group_belonging : group_belonging_t) (fuel : nat)
    (seen remaining : list string) : option (list string) :=
  match remaining with
  | [] => Some []
  | _ :: _ =>
      match fuel with
      | O => None
      | S fuel' =>
          (fix try (candidates : list string) : option (list string) :=
             match candidates with
             | [] => None
             | t :: candidates' =>
                 if valid_next depends_graph group_belonging seen (Some t)
                 then match search depends_graph group_belonging fuel'
                                   (t :: seen)
                                   (filter (λ t', t' ≠ t) remaining) with
                      | Some order => Some (t :: order)
                      | None => try candidates'
                      end
                 else try candidates'
             end) remaining
      end
  end.

(** Modelled from the spec: [solve_dag], the topological solver of section
    4.3; a graph error if no valid order exists. *)
Definition solve_dag (depends_graph : depends_graph_t)
    (group_belonging : group_belonging_t) : result (list string) :=
  let tags := fragment_tags depends_graph group_belonging in
  match search depends_graph group_belonging (length tags) [] tags with
  | Some order => Ok order
  | None => Raise GraphError
  end.
End dag_checker.

(** ** Definitions used in the statements *)

(** The score of a submission under [UNORDERED] in the words of the
    specification, over the sets of identifiers:
    [max(0, (|correct ∩ submitted| − |submitted \ correct|) / |correct|)]. *)
Definition unordered_spec_score (true_answer_list : list OrderBlocksAnswerData)
    (student_answer : list SubmittedBlock) : Q :=
  let correct : gset string := list_to_set (uuid <$> true_answer_list) in
  let submitted : gset string := list_to_set (s_uuid <$> student_answer) in
  pymax 0%Q
    (Qdiv (inject_Z (Z.of_nat (size (correct ∩ submitted))
                     - Z.of_nat (size (submitted ∖ correct))))
          (inject_Z (Z.of_nat (size correct)))).

(** The contents of a list of correct fragments, as a submission that
    matches them carries them. *)
Definition contents (l : list OrderBlocksAnswerData) : list (option string) :=
  (λ ans, Some (inner_html ans)) <$> l.

(** The previous distinct rank of [r] among [ranks], in the words of the
    specification: the rank that comes just before [r] when the distinct
    ranks are listed in ascending order, which is the largest rank below
    [r]. *)
Definition prev_distinct_rank (ranks : list Z) (r : Z) : option Z :=
  foldr (λ x acc,
           if decide (x < r)
           then match acc with
                | Some m => Some (Z.max x m)
                | None => Some x
                end
           else acc)
        None ranks.

(** The tags of the fragments of a rank, the fragments being listed in
    ascending order of rank. *)
Definition tags_of_rank (l : list OrderBlocksAnswerData) (p : Z)
  : list string :=
  tag <$> filter (λ a, ranking a = p) (sorted Z.leb ranking l).

(** The dependency list that the specification gives to a fragment under
    [RANKING]. *)
Definition rank_depends (l : list OrderBlocksAnswerData) (r : Z)
  : list string :=
  match prev_distinct_rank (ranking <$> l) r with
  | Some p => tags_of_rank l p
  | None => []
  end.

(** The tag that the markup declares for a node: its [tag] attribute as
    [get_graph_info] reads it. *)
Definition declared_tag (n : HtmlNode) : list string :=
  match at_tag (h_attrs n) with
  | Some t => [strip t]
  | None => []
  end.

(** The declared tags of the nodes that [prepare] enters in [used_tags]:
    the block groups and the answers that are correct. *)
Definition answer_checked_tags (n : HtmlNode) : list string :=
  if default PL_ANSWER_CORRECT_DEFAULT (at_correct (h_attrs n))
  then declared_tag n else [].

Definition child_checked_tags (c : HtmlChild) : list string :=
  if decide (h_name (c_node c) = CommentNode) then []
  else if decide (h_name (c_node c) = TagName "pl-block-group")
  then declared_tag (c_node c) ++ (c_children c ≫= answer_checked_tags)
  else answer_checked_tags (c_node c).

Definition checked_tags (element : Element) : list string :=
  el_children element ≫= child_checked_tags.

(** The blocks of the instance as [prepare] has them in [all_blocks] when it
    compares the tags for the visual pairing. *)
Definition sampled_blocks (random : Random) (element : Element)
  : result (list OrderBlocksAnswerData) :=
  '(st, _) ←
    prepare_children
      (default GRADING_METHOD_DEFAULT (grading_method element))
      (default INDENTION_DEFAULT (indentation element))
      (default FMT_DEFAULT (format element))
      (code_language element) (el_children element)
      {| st_uuids := 0; st_used_tags := ∅;
         st_correct_answers := []; st_incorrect_answers := [] |} 0%nat;
  prepare_blocks random element (st_correct_answers st)
                 (st_incorrect_answers st).

(** The score that [grade] stores for a list of correct answers handed in
    as the submission and graded against itself, as [prepare] does in its
    self-check. *)
Definition self_score
    (grade_dag : list (option string) → depends_graph_t → group_belonging_t →
                 result (nat * nat))
    (lcs_partial_credit : list (option string) → depends_graph_t →
                          group_belonging_t → result nat)
    (element : Element) (stored : list OrderBlocksAnswerData) : result Q :=
  graded ←
    grade grade_dag lcs_partial_credit element
      {| params := ∅;
         correct_answers := {[ answers_name element := stored ]};
         submitted_answers :=
           {[ answers_name element := as_submitted <$> stored ]};
         partial_scores := ∅ |};
  partial_score ← subscript (partial_scores graded !! answers_name element);
  Ok (score partial_score).

(** Concrete blocks, elements and data for the examples. *)
Module Examples.
Definition no_group : GroupInfo := {| gi_tag := None; gi_depends := None |}.

Definition block (content : string) (ind : option Z) (rank : Z)
    (t : string) (deps : list string) (u : string)
  : OrderBlocksAnswerData :=
  {| inner_html := content; indent := ind; ranking := rank; index := 0;
     tag := t; distractor_for := None; depends := deps;
     group_info := no_group; distractor_bin := None; uuid := u |}.

Definition submitted (content : string) (ind : option Z) (u : string)
  : SubmittedBlock :=
  {| s_inner_html := Some content; s_indent := ind; s_tag := None;
     s_uuid := u |}.

Definition element (method : GradingMethodType) (ind : bool)
    (pc : option PartialCreditType) (fb : option FeedbackType)
    (children : list HtmlChild) : Element :=
  {| answers_name := "order"; source_blocks_order := None;
     grading_method := Some method; indentation := Some ind;
     max_incorrect := None; min_incorrect := None; weight := None;
     feedback := fb; partial_credit := pc; format := None;
     code_language := None; el_children := children |}.

Definition data (T : list OrderBlocksAnswerData) (S : list SubmittedBlock)
  : QuestionData :=
  {| params := ∅; correct_answers := {[ "order" := T ]};
     submitted_answers := {[ "order" := S ]}; partial_scores := ∅ |}.

Definition empty_data : QuestionData :=
  {| params := ∅; correct_answers := ∅; submitted_answers := ∅;
     partial_scores := ∅ |}.

Definition a := block "first line" (Some 0) 1 "A" [] "ua".
Definition b := block "second line" (Some 1) 2 "B" ["A"] "ub".
Definition c := block "third line" (Some 1) 2 "C" ["A"] "uc".

Definition sa := submitted "first line" (Some 0) "ua".
Definition sb := submitted "second line" (Some 1) "ub".
Definition sc := submitted "third line" (Some 1) "uc".
(** [sa] moved one level to the right. *)
Definition sa_shifted := submitted "first line" (Some 1) "ua".

(** A source of random numbers: the largest count, the first blocks, no
    shuffling. *)
Definition random : Random :=
  {| randint := λ _ hi, hi; sample := λ l k, take k l; shuffle := λ l, l |}.

Definition attribs (correct : option bool) (t : option string)
    (deps : option string) (dfor : option string) : Attribs :=
  {| at_correct := correct; at_indent := None; at_ranking := None;
     at_distractor_for := dfor; at_tag := t; at_depends := deps;
     at_comment := None; at_other := [] |}.

Definition answer (content : string) (attrs : Attribs) : HtmlChild :=
  {| c_node := {| h_name := TagName "pl-answer"; h_attrs := attrs;
                  h_inner := content |};
     c_children := [] |}.

(** Two correct answers that declare the same tag. *)
Definition duplicate_tags : Element :=
  element DAG false None None
    [answer "first line" (attribs None (Some "a") None None);
     answer "second line" (attribs None (Some "a") (Some "a") None)].

(** A correct answer and a distractor that declare the same tag. *)
Definition distractor_shares_tag : Element :=
  element DAG false None None
    [answer "first line" (attribs None (Some "a") None None);
     answer "wrong line" (attribs (Some false) (Some "a") None None)].

(** An element that is graded externally. *)
Definition external : Element :=
  element EXTERNAL false None None
    [answer "first line" (attribs None None None None)].

(** Three answers under [RANKING], declared out of order. *)
Definition ranked (content : string) (rank : Z) : HtmlChild :=
  answer content
    {| at_correct := None; at_indent := None; at_ranking := Some rank;
       at_distractor_for := None; at_tag := None; at_depends := None;
       at_comment := None; at_other := [] |}.

Definition ranking_out_of_order : Element :=
  element RANKING false None None
    [ranked "second line" 2; ranked "first line" 1; ranked "third line" 2].

(** Three answers under [DAG], declared out of order. *)
Definition dag_out_of_order : Element :=
  element DAG false None None
    [answer "second line" (attribs None (Some "b") (Some "a") None);
     answer "first line" (attribs None (Some "a") None None);
     answer "third line" (attribs None (Some "c") (Some "a, b") None)].
End Examples.

(** ** Definitions used in the proofs *)

(** The order of two elements by their keys. *)
Definition key_le {A K : Type} (leb : K → K → bool) (key : A → K) (a b : A)
  : Prop :=
  leb (key a) (key b) = true.

(** The entries [e] give each key one value. *)
Definition consistent {K V : Type} (e : pydict K V) : Prop :=
  ∀ k v1 v2, (k, v1) ∈ e → (k, v2) ∈ e → v1 = v2.

(** [ts] are tags that were not used in [st] and are used in [st'], each
    of them once. *)
Definition tags_fresh (st st' : PrepareState) (ts : list string) : Prop :=
  (st_used_tags st ⊆ st_used_tags st')
  ∧ NoDup ts
  ∧ ∀ t, t ∈ ts → (t ∉ st_used_tags st) ∧ (t ∈ st_used_tags st').

(** What [prepare] establishes for the correct answers: tags and identifiers
    are distinct, no group is tagged like a fragment, and the fragments of
    a group carry the same group information. *)
Definition wf_answers (l : list OrderBlocksAnswerData) : Prop :=
  NoDup (tag <$> l)
  ∧ NoDup (uuid <$> l)
  ∧ (∀ a g, a ∈ l → gi_tag (group_info a) = Some g → g ∉ tag <$> l)
  ∧ (∀ a b g, a ∈ l → b ∈ l →
       gi_tag (group_info a) = Some g → gi_tag (group_info b) = Some g →
       group_info a = group_info b).

(** The invariant of the traversal of the markup. *)
Definition wf_state (st : PrepareState) : Prop :=
  wf_answers (st_correct_answers st)
  ∧ (∀ a, a ∈ st_correct_answers st → tag a ∈ st_used_tags st)
  ∧ (∀ a g, a ∈ st_correct_answers st →
       gi_tag (group_info a) = Some g → g ∈ st_used_tags st)
  ∧ (∀ a, a ∈ st_correct_answers st →
       ∃ k, (k < st_uuids st)%nat ∧ uuid a = get_uuid k).

(** The group that the traversal is in fits the state. *)
Definition group_fits (gi : GroupInfo) (st : PrepareState) : Prop :=
  ∀ g, gi_tag gi = Some g →
    g ∈ st_used_tags st
    ∧ (g ∉ tag <$> st_correct_answers st)
    ∧ ∀ b, b ∈ st_correct_answers st →
           gi_tag (group_info b) = Some g → group_info b = gi.

(** The entry of the graph that a grouped answer contributes for its
    group. *)
Definition group_entry (a : OrderBlocksAnswerData)
  : option (string * list string) :=
  match gi_depends (group_info a), gi_tag (group_info a) with
  | Some deps, Some g => Some (g, deps)
  | _, _ => None
  end.

(** The entries of the graph and of the group membership, read off the
    answers. *)
Definition dg_entry (l : list OrderBlocksAnswerData) (k : string)
    (v : list string) : Prop :=
  (∃ a, a ∈ l ∧ tag a = k ∧ depends a = v)
  ∨ (∃ a, a ∈ l ∧ gi_tag (group_info a) = Some k
          ∧ gi_depends (group_info a) = Some v).

Definition gb_entry (l : list OrderBlocksAnswerData) (k : string)
    (v : option string) : Prop :=
  ∃ a, a ∈ l ∧ tag a = k ∧ gi_tag (group_info a) = v.

(** The search of the solver returned an order of [remaining] that the
    prefix validator accepts from [seen]. *)
Definition search_ok (dg : depends_graph_t) (gb : group_belonging_t)
    (seen remaining order : list string) : Prop :=
  dag_checker.prefix_valid dg gb seen (Some <$> order) = length order
  ∧ order ≡ₚ remaining.

(** The position of a tag in a solution, as the sort key of [solve_problem]
    computes it. *)
Definition position (order : list string) (t : string) : nat :=
  default 0%nat (list_index t order).

(** ** Definitions used in the statements about the markup *)

(** A node that [prepare_tag] rejects whatever was seen before it: it is no
    [pl-answer], it has an attribute that the grading method does not
    allow, it is a correct answer with a [distractor-for], or it has an
    [indent] while indentation is disabled. *)
Definition node_rejected (grading_method : GradingMethodType)
    (check_indentation : bool) (n : HtmlNode) : Prop :=
  h_name n ≠ TagName "pl-answer"
  ∨ (∃ name, name ∈ attrib_names (h_attrs n)
             ∧ name ∉ answer_attribs grading_method)
  ∨ (at_distractor_for (h_attrs n) ≠ None
     ∧ default PL_ANSWER_CORRECT_DEFAULT (at_correct (h_attrs n)) = true)
  ∨ (check_indentation = false ∧ at_indent (h_attrs n) ≠ None).

(** A child of the element that the traversal rejects: a block group
    outside of [DAG], a block group with a node that is rejected, or a
    node that is rejected. *)
Definition child_rejected (grading_method : GradingMethodType)
    (check_indentation : bool) (c : HtmlChild) : Prop :=
  h_name (c_node c) ≠ CommentNode
  ∧ if decide (h_name (c_node c) = TagName "pl-block-group")
    then grading_method ≠ DAG
         ∨ ∃ n, n ∈ c_children c
                ∧ node_rejected grading_method check_indentation n
    else node_rejected grading_method check_indentation (c_node c).

(** The nodes that the traversal hands to [prepare_tag], in the order of
    the document. *)
Definition answer_nodes (c : HtmlChild) : list HtmlNode :=
  if decide (h_name (c_node c) = CommentNode) then []
  else if decide (h_name (c_node c) = TagName "pl-block-group")
  then c_children c
  else [c_node c].

Definition is_correct_node (n : HtmlNode) : bool :=
  default PL_ANSWER_CORRECT_DEFAULT (at_correct (h_attrs n)).

Definition correct_nodes (element : Element) : list HtmlNode :=
  filter (λ n, is_correct_node n = true)
         (el_children element ≫= answer_nodes).

Definition incorrect_nodes (element : Element) : list HtmlNode :=
  filter (λ n, is_correct_node n = false)
         (el_children element ≫= answer_nodes).

(** The content of a block for the content of its node: wrapped in
    [pl-code] under the format [code]. *)
Definition block_html (format : FormatType) (code_language : option string)
    (inner : string) : string :=
  match format with
  | FMT_CODE =>
      "<pl-code"
      +:+ match code_language with
          | Some l =>
              if decide (l = EmptyString) then EmptyString
              else " language=" +:+ dquote +:+ l +:+ dquote
          | None => EmptyString
          end
      +:+ ">" +:+ inner +:+ "</pl-code>"
  | FMT_DEFAULT => inner
  end.

(** What a block takes over from its node: content, indent, ranking and
    the tag of the block that it distracts from. *)
Definition node_fields (format : FormatType) (code_language : option string)
    (n : HtmlNode) : string * option Z * Z * option string :=
  (block_html format code_language (h_inner n),
   at_indent (h_attrs n),
   default (-1) (at_ranking (h_attrs n)),
   at_distractor_for (h_attrs n)).

Definition block_fields (a : OrderBlocksAnswerData)
  : string * option Z * Z * option string :=
  (inner_html a, indent a, ranking a, distractor_for a).

(** [sep.join(l)] *)
Fixpoint join (sep : string) (l : list string) : string :=
  match l with
  | [] => EmptyString
  | [x] => x
  | x :: l' => x +:+ sep +:+ join sep l'
  end.

(** ** Projection of dictionaries *)

(** The values of the dictionaries of the blocks. *)
Inductive pyvalue :=
  | PyNone
  | PyStr (s : string)
  | PyInt (z : Z)
  | PyList (l : list string)
  | PyGroup (g : GroupInfo).

(** [{key: item[key] for key in keys}], the keys being read in order. *)
Fixpoint project_keys {V} (item : pydict string V) (keys : list string)
    (acc : pydict string V) : result (pydict string V) :=
  match keys with
  | [] => Ok acc
  | key :: keys' =>
      v ← subscript (dict_get key item);
      project_keys item keys' (dict_set key v acc)
  end.

Definition filter_multiple_from_array {V} (data : list (pydict string V))
    (keys : list string) : result (list (pydict string V)) :=
  mapM (λ item, project_keys item keys []) data.

Definition py_option {A} (f : A → pyvalue) (o : option A) : pyvalue :=
  match o with Some a => f a | None => PyNone end.

(** An [OrderBlocksAnswerData] as the dictionary that [prepare_tag]
    builds; ["distractor_bin"] is written later, if at all. *)
Definition answer_dict (a : OrderBlocksAnswerData) : pydict string pyvalue :=
  [("inner_html", PyStr (inner_html a));
   ("indent", py_option PyInt (indent a));
   ("ranking", PyInt (ranking a));
   ("index", PyInt (Z.of_nat (index a)));
   ("tag", PyStr (tag a));
   ("distractor_for", py_option PyStr (distractor_for a));
   ("depends", PyList (depends a));
   ("group_info", PyGroup (group_info a));
   ("uuid", PyStr (uuid a))]
  ++ match distractor_bin a with
     | Some b => [("distractor_bin", PyStr b)]
     | None => []
     end.

(** A block of a submission as a dictionary with the keys ["inner_html"],
    ["indent"], ["uuid"] and, if it has one, ["tag"]. *)
Definition block_dict (b : SubmittedBlock) : pydict string pyvalue :=
  [("inner_html", py_option PyStr (s_inner_html b));
   ("indent", py_option PyInt (s_indent b));
   ("uuid", PyStr (s_uuid b))]
  ++ match s_tag b with
     | Some t => [("tag", py_option PyStr t)]
     | None => []
     end.

(** The block that [filter_multiple_from_array] yields for a correct
    answer and the keys ["inner_html"], ["indent"] and ["uuid"], as is
    shown among the properties. *)
Definition raw_block (a : OrderBlocksAnswerData) : SubmittedBlock :=
  {| s_inner_html := Some (inner_html a);
     s_indent := indent a;
     s_tag := None;
     s_uuid := uuid a |}.

(** ** Submissions as the client sends them *)

(** A block of a submission with the key ["ranking"] that [parse] adds
    under [RANKING]: absent, null or a ranking. [grade] does not read
    it. *)
Record ParsedBlock := {
  pb_block : SubmittedBlock;
  pb_ranking : option (option Z) }.

#[global] Instance ParsedBlock_eq_dec : EqDecision ParsedBlock.
Proof. solve_decision. Defined.

(** The JSON text of a submission, identified with the value that
    [json.loads] returns for it: [null] or an array of blocks.
    [json.dumps] is the identity on these values. *)
Definition json_value := option (list ParsedBlock).

(** An entry of [data["submitted_answers"]]: a submission, raw or parsed,
    or the list with the one file that [parse] builds under [EXTERNAL]. *)
Inductive SubmittedValue :=
  | SV_answer (j : json_value)
  | SV_files (name contents : string).

Record SubmissionData := {
  sd_correct_answers : gmap string (list OrderBlocksAnswerData);
  sd_raw_submitted_answers : gmap string json_value;
  sd_submitted_answers : gmap string SubmittedValue;
  sd_format_errors : gmap string string }.

(** The attributes of the element that [parse] reads and [Element] does
    not hold. *)
Record ParseAttribs := {
  allow_blank : option bool;
  file_name : option string }.

Definition ALLOW_BLANK_DEFAULT := false.
Definition FILE_NAME_DEFAULT : string := "user_code.py".

(** A [TypeError] and an [IndexError], carried as exceptions with their
    names. *)
Definition TypeError : error := Exception "TypeError".
Definition IndexError : error := Exception "IndexError".

Definition msg_blank : string :=
  "Your submitted answer was blank; you did not drag any answer blocks into the answer area.".

(** ** Parsing *)

(** [next((item for item in correct_answers
          if item["inner_html"] == answer["inner_html"]), None)] *)
Definition search (correct_answers : list OrderBlocksAnswerData)
    (answer : SubmittedBlock) : option OrderBlocksAnswerData :=
  head (filter (λ item, Some (inner_html item) = s_inner_html answer)
               correct_answers).

(** [answer["tag"] = t] *)
Definition set_tag (t : option string) (answer : SubmittedBlock)
  : SubmittedBlock :=
  {| s_inner_html := s_inner_html answer; s_indent := s_indent answer;
     s_tag := Some t; s_uuid := s_uuid answer |}.

(** One iteration of the loop of [parse] under [RANKING]. *)
Definition parse_ranking (correct_answers : list OrderBlocksAnswerData)
    (answer : ParsedBlock) : ParsedBlock :=
  let search := search correct_answers (pb_block answer) in
  {| pb_block := set_tag (tag <$> search) (pb_block answer);
     pb_ranking := Some (ranking <$> search) |}.

(** One iteration of the loop of [parse] under [DAG]. *)
Definition parse_dag (correct_answers : list OrderBlocksAnswerData)
    (answer : ParsedBlock) : ParsedBlock :=
  let search := search correct_answers (pb_block answer) in
  {| pb_block := set_tag (tag <$> search) (pb_block answer);
     pb_ranking := pb_ranking answer |}.

(** [s * n] for a string [s] *)
Fixpoint str_repeat (s : string) (n : nat) : string :=
  match n with
  | O => EmptyString
  | S n' => s +:+ str_repeat s n'
  end.

Section parse.
(** [lxml.html.fromstring(x).text_content()], for a string or [None]. *)
Variable text_content : option string → result string.
(** [base64.b64encode(s.encode("utf-8")).decode("utf-8")] *)
Variable b64encode : string → string.

(** The loop that builds [answer_code]. *)
Fixpoint answer_code (student_answer : list ParsedBlock) (code : string)
  : result string :=
  match student_answer with
  | [] => Ok code
  | answer :: rest =>
      let indent := default 0 (s_indent (pb_block answer)) in
      text ← text_content (s_inner_html (pb_block answer));
      answer_code rest
        (code +:+ (str_repeat "    " (Z.to_nat indent) +:+ text +:+ newline))
  end.

(** [for answer in student_answer], which raises for [None]. *)
Definition iterate (student_answer : json_value) : result (list ParsedBlock) :=
  match student_answer with
  | Some l => Ok l
  | None => Raise TypeError
  end.

(** The loops of [parse] that complete the blocks under [RANKING] and
    [DAG]. *)
Definition parse_answers (grading_method : GradingMethodType)
    (correct_answers : list OrderBlocksAnswerData)
    (student_answer : json_value) : result json_value :=
  match grading_method with
  | RANKING =>
      iterate student_answer ≫= λ l : list ParsedBlock,
      Ok (Some (parse_ranking correct_answers <$> l))
  | DAG =>
      iterate student_answer ≫= λ l : list ParsedBlock,
      Ok (Some (parse_dag correct_answers <$> l))
  | _ => Ok student_answer
  end.

(** The branch of [parse] for [EXTERNAL]; yields
    [(data["submitted_answers"], data["format_errors"])]. *)
Definition parse_files (attribs : ParseAttribs) (element : Element)
    (data : SubmissionData) (student_answer : json_value)
  : result (gmap string SubmittedValue * gmap string string) :=
  _ ← mapM (λ html_tags : HtmlChild,
              if decide (h_name (c_node html_tags) = TagName "pl-answer")
              then check_attribs (h_attrs (c_node html_tags)) []
              else Ok ())
           (el_children element);
  let file_name := default FILE_NAME_DEFAULT (file_name attribs) in
  l ← iterate student_answer;
  answer_code ← answer_code l EmptyString;
  if decide (answer_code = EmptyString)
  then Ok (sd_submitted_answers data,
           <["_files" := "The submitted file was empty."]>
             (sd_format_errors data))
  else Ok (<["_files" := SV_files file_name (b64encode answer_code)]>
             (sd_submitted_answers data),
           sd_format_errors data).

(** [parse(element_html, data)]: the data after the call. *)
Definition parse (attribs : ParseAttribs) (element : Element)
    (data : SubmissionData) : result SubmissionData :=
  let answer_name := answers_name element in
  let allow_blank_submission :=
    default ALLOW_BLANK_DEFAULT (allow_blank attribs) in
  let answer_raw_name := answer_name +:+ "-input" in
  let student_answer :=
    default (Some []) (sd_raw_submitted_answers data !! answer_raw_name) in
  if negb allow_blank_submission
     && (bool_decide (student_answer = None)
         || bool_decide (student_answer = Some []))
  then
    Ok {| sd_correct_answers := sd_correct_answers data;
          sd_raw_submitted_answers := sd_raw_submitted_answers data;
          sd_submitted_answers := sd_submitted_answers data;
          sd_format_errors :=
            <[answer_name := msg_blank]> (sd_format_errors data) |}
  else
    let grading_method :=
      default GRADING_METHOD_DEFAULT (grading_method element) in
    correct_answers ← subscript (sd_correct_answers data !! answer_name);
    student_answer ←
      parse_answers grading_method correct_answers student_answer;
    '(submitted, format_errors) ←
      match grading_method with
      | EXTERNAL => parse_files attribs element data student_answer
      | _ => Ok (sd_submitted_answers data, sd_format_errors data)
      end;
    Ok {| sd_correct_answers := sd_correct_answers data;
          sd_raw_submitted_answers := sd_raw_submitted_answers data;
          sd_submitted_answers :=
            delete answer_raw_name
                   (<[answer_name := SV_answer student_answer]> submitted);
          sd_format_errors := format_errors |}.
End parse.

(** ** Test data *)

Record ElementTestData := {
  td_test_type : string;
  td_correct_answers : gmap string (list OrderBlocksAnswerData);
  td_raw_submitted_answers : gmap string json_value;
  td_partial_scores : gmap string PartialScore;
  td_format_errors : gmap string string }.

(** A block as [json.dumps] writes it and [json.loads] reads it back. *)
Definition dumped (b : SubmittedBlock) : ParsedBlock :=
  {| pb_block := b; pb_ranking := None |}.

(** [test(element_html, data)]: the data after the call. The call of
    [filter_multiple_from_array] on the correct answers yields their
    [raw_block]s. *)
Definition test (element : Element) (data : ElementTestData)
  : result ElementTestData :=
  let grading_method :=
    default GRADING_METHOD_DEFAULT (grading_method element) in
  let answer_name := answers_name element in
  let answer_name_field := answer_name +:+ "-input" in
  let weight := default WEIGHT_DEFAULT (weight element) in
  let feedback_type := default FEEDBACK_DEFAULT (feedback element) in
  let partial_credit_type := default LCS (partial_credit element) in
  if decide (td_test_type data = "invalid") then
    Ok {| td_test_type := td_test_type data;
          td_correct_answers := td_correct_answers data;
          td_raw_submitted_answers :=
            <[answer_name_field := Some []]> (td_raw_submitted_answers data);
          td_partial_scores := td_partial_scores data;
          td_format_errors :=
            <[answer_name := "No answer was submitted."]>
              (td_format_errors data) |}
  else if decide (td_test_type data = "correct") then
    correct_answers ← subscript (td_correct_answers data !! answer_name);
    let answer := raw_block <$> correct_answers in
    Ok {| td_test_type := td_test_type data;
          td_correct_answers := td_correct_answers data;
          td_raw_submitted_answers :=
            <[answer_name_field := Some (dumped <$> answer)]>
              (td_raw_submitted_answers data);
          td_partial_scores :=
            <[answer_name := {| score := 1; ps_feedback := EmptyString;
                                ps_weight := weight |}]>
              (td_partial_scores data);
          td_format_errors := td_format_errors data |}
  else if decide (td_test_type data = "incorrect") then
    correct_answers ← subscript (td_correct_answers data !! answer_name);
    match raw_block <$> correct_answers with
    | [] => Raise IndexError
    | _ :: answer =>
        score ←
          (if bool_decide (grading_method = UNORDERED)
              || (bool_decide (grading_method = DAG)
                  || bool_decide (grading_method = RANKING))
                 && bool_decide (partial_credit_type = LCS)
           then q ← float_div (Z.of_nat (length answer))
                              (Z.of_nat (length answer) + 1);
                Ok (round2 q)
           else Ok 0%Q);
        let feedback :=
          if bool_decide (grading_method = DAG)
             && bool_decide (feedback_type = FIRST_WRONG)
          then
            let group_belonging :=
              dict_comp tag (λ ans, gi_tag (group_info ans)) correct_answers in
            FW_wrong_at_block "1"
            +:+ (if has_block_groups group_belonging then FW_block_group
                 else EmptyString)
            +:+ "</ul>"
          else EmptyString in
        Ok {| td_test_type := td_test_type data;
              td_correct_answers := td_correct_answers data;
              td_raw_submitted_answers :=
                <[answer_name_field := Some (dumped <$> answer)]>
                  (td_raw_submitted_answers data);
              td_partial_scores :=
                <[answer_name := {| score := score; ps_feedback := feedback;
                                    ps_weight := weight |}]>
                  (td_partial_scores data);
              td_format_errors := td_format_errors data |}
    end
  else Raise (Exception ("invalid result: " +:+ td_test_type data)).

(** ** Definitions used in the statements about parsing and testing *)

(** The blocks that [grade] finds under the answer name after [parse]. *)
Definition parsed_blocks (name : string) (data : SubmissionData)
  : option (list SubmittedBlock) :=
  match sd_submitted_answers data !! name with
  | Some (SV_answer (Some l)) => Some (pb_block <$> l)
  | _ => None
  end.

(** The data that [parse] is given for the raw submission that [test]
    wrote. *)
Definition submission_of_test (data : ElementTestData) : SubmissionData :=
  {| sd_correct_answers := td_correct_answers data;
     sd_raw_submitted_answers := td_raw_submitted_answers data;
     sd_submitted_answers := SV_answer <$> td_raw_submitted_answers data;
     sd_format_errors := ∅ |}.

(** The lines of the file that [parse] builds under [EXTERNAL]. *)
Definition code_line (text : string) (indent : option Z) : string :=
  str_repeat "    " (Z.to_nat (default 0 indent)) +:+ text +:+ newline.

(** Concrete submissions and test data for the examples. *)

Module ParseExamples.
Definition attribs : ParseAttribs :=
  {| allow_blank := None; file_name := None |}.

Definition text_content (x : option string) : result string :=
  match x with Some s => Ok s | None => Raise TypeError end.

Definition b64encode (s : string) : string := s.

Definition submission (raw : list SubmittedBlock) : SubmissionData :=
  {| sd_correct_answers :=
       {[ "order" := [Examples.a; Examples.b; Examples.c] ]};
     sd_raw_submitted_answers := {[ "order-input" := Some (dumped <$> raw) ]};
     sd_submitted_answers :=
       {[ "order-input" := SV_answer (Some (dumped <$> raw)) ]};
     sd_format_errors := ∅ |}.

Definition test_data (type : string) : ElementTestData :=
  {| td_test_type := type;
     td_correct_answers :=
       {[ "order" := [Examples.a; Examples.b; Examples.c] ]};
     td_raw_submitted_answers := ∅;
     td_partial_scores := ∅;
     td_format_errors := ∅ |}.
End ParseExamples.

(** * Properties *)

Lemma bind_Ok {A B} (m : result A) (f : A → result B) (b : B) :
  m ≫= f = Ok b ↔ ∃ a, m = Ok a ∧ f a = Ok b.
Proof.
  destruct m as [a|e]; simpl; split.
  - intros H. by exists a.
  - by intros (a' & [= <-] & H).
  - discriminate.
  - by intros (a' & [=] & _).
Qed.

Section gate_facts.
Implicit Types (T : list OrderBlocksAnswerData) (sub : list SubmittedBlock).

Lemma indentations_fold_notin T (m : gmap string (option Z)) u :
  u ∉ uuid <$> T →
  foldl (λ m ans, <[uuid ans := indent ans]> m) m T !! u = m !! u.
Proof.
  revert m. induction T as [|x T IH]; intros m Hu; [done|].
  rewrite fmap_cons, not_elem_of_cons in Hu. destruct Hu as [Hne Hu].
  simpl. rewrite IH by done. by rewrite lookup_insert_ne.
Qed.

Lemma indentations_fold_in T (m : gmap string (option Z)) c :
  NoDup (uuid <$> T) → c ∈ T →
  foldl (λ m ans, <[uuid ans := indent ans]> m) m T !! uuid c
  = Some (indent c).
Proof.
  revert m. induction T as [|x T IH]; intros m Hnd Hc.
  - by apply elem_of_nil in Hc.
  - rewrite fmap_cons in Hnd. apply NoDup_cons in Hnd as [Hx Hnd].
    simpl. apply elem_of_cons in Hc as [->|Hc].
    + rewrite indentations_fold_notin by done. apply lookup_insert_eq.
    + by apply IH.
Qed.

Lemma indentations_lookup T c :
  NoDup (uuid <$> T) → c ∈ T →
  indentations T !! uuid c = Some (indent c).
Proof. apply indentations_fold_in. Qed.

Lemma null_block_uuid ans : s_uuid (null_block ans) = s_uuid ans.
Proof. unfold null_block. by destruct (s_tag ans). Qed.

Lemma gate_block_uuid inds ans : s_uuid (gate_block inds ans) = s_uuid ans.
Proof.
  unfold gate_block. case_match; [apply null_block_uuid|done].
Qed.

Lemma indentation_gate_uuids b T sub :
  s_uuid <$> indentation_gate b T sub = s_uuid <$> sub.
Proof.
  unfold indentation_gate. destruct b; [|done].
  rewrite <- list_fmap_compose. apply list_fmap_ext.
  intros i x _. apply gate_block_uuid.
Qed.

Lemma indentation_gate_length b T sub :
  length (indentation_gate b T sub) = length sub.
Proof. unfold indentation_gate. destruct b; [apply length_fmap|done]. Qed.

Lemma indentation_gate_off T sub : indentation_gate false T sub = sub.
Proof. done. Qed.

Lemma indentation_gate_lookup T sub i ans :
  sub !! i = Some ans →
  indentation_gate true T sub !! i = Some (gate_block (indentations T) ans).
Proof. intros H. unfold indentation_gate. by rewrite list_lookup_fmap, H. Qed.

(** A block that is graded against itself is not written to. *)
Lemma gate_block_self T c :
  NoDup (uuid <$> T) → c ∈ T →
  gate_block (indentations T) (as_submitted c) = as_submitted c.
Proof.
  intros Hnd Hc. unfold gate_block. simpl.
  rewrite (indentations_lookup T c Hnd Hc). simpl.
  rewrite (bool_decide_eq_false_2 (indent c ≠ indent c)) by auto.
  by rewrite andb_false_r.
Qed.

Lemma indentation_gate_self b T :
  NoDup (uuid <$> T) →
  indentation_gate b T (as_submitted <$> T) = as_submitted <$> T.
Proof.
  intros Hnd. destruct b; [|done]. unfold indentation_gate.
  rewrite <- list_fmap_compose. apply list_fmap_ext.
  intros i x Hx. simpl. apply gate_block_self; [done|].
  by eapply list_elem_of_lookup_2.
Qed.
End gate_facts.

(** ** The indentation gate *)

(** C7: with indentation checking enabled, a submitted block whose correct
    fragment records an indent other than the wildcard [-1] and whose own
    indent differs from it has its tag nulled, or its content if it carries
    no tag key, before the grading method is dispatched; a block whose
    correct fragment records the wildcard, or whose indent matches, is left
    as it was. *)
Theorem C7_indentation_gate
    (gd : list (option string) → depends_graph_t → group_belonging_t →
          result (nat * nat))
    (lcs : list (option string) → depends_graph_t → group_belonging_t →
           result nat)
    (element : Element) (T : list OrderBlocksAnswerData)
    (sub : list SubmittedBlock) (c : OrderBlocksAnswerData)
    (ans : SubmittedBlock) (i : nat) :
  indentation element = Some true →
  NoDup (uuid <$> T) →
  c ∈ T →
  sub !! i = Some ans →
  s_uuid ans = uuid c →
  ∃ ans',
    indentation_gate true T sub !! i = Some ans'
    ∧ (∀ g, grade_locals gd lcs element T sub = Ok g →
            g_student_answer g !! i = Some ans')
    ∧ (indent c ≠ Some (-1) → s_indent ans ≠ indent c →
       match s_tag ans with
       | Some _ =>
           s_tag ans' = Some None ∧ s_inner_html ans' = s_inner_html ans
       | None => s_inner_html ans' = None ∧ s_tag ans' = None
       end
       ∧ s_indent ans' = s_indent ans ∧ s_uuid ans' = s_uuid ans)
    ∧ (indent c = Some (-1) ∨ s_indent ans = indent c → ans' = ans).
Proof.
  intros Hind Hnd Hc Hi Hu.
  exists (gate_block (indentations T) ans).
  split; [by apply indentation_gate_lookup|].
  split.
  { intros g Hg. unfold grade_locals in Hg. rewrite Hind in Hg. simpl in Hg.
    assert (g_student_answer g = indentation_gate true T sub) as ->.
    { destruct (default GRADING_METHOD_DEFAULT (grading_method element));
        simpl in Hg.
      - apply bind_Ok in Hg as (q & _ & [= <-]). done.
      - by injection Hg as <-.
      - apply bind_Ok in Hg as ([[q fb] fw] & _ & [= <-]). done.
      - apply bind_Ok in Hg as ([[q fb] fw] & _ & [= <-]). done.
      - by injection Hg as <-. }
    by apply indentation_gate_lookup. }
  unfold gate_block. rewrite Hu, (indentations_lookup T c Hnd Hc). simpl.
  split.
  - intros Hw Hne.
    rewrite (bool_decide_eq_true_2 _ Hw), (bool_decide_eq_true_2 _ Hne). simpl.
    unfold null_block. destruct (s_tag ans); simpl; auto.
  - intros [Hw|Heq].
    + rewrite (bool_decide_eq_false_2 (indent c ≠ Some (-1))); [done|].
      intros H. by apply H.
    + rewrite (bool_decide_eq_false_2 (s_indent ans ≠ indent c)) by auto.
      by rewrite andb_false_r.
Qed.

Lemma C7_indentation_gate_witness :
  ∃ ans',
    indentation_gate true [Examples.a] [Examples.sa_shifted] !! 0%nat
    = Some ans'
    ∧ s_inner_html ans' = None.
Proof.
  destruct (C7_indentation_gate dag_checker.grade_dag
              dag_checker.lcs_partial_credit
              (Examples.element ORDERED true None None [])
              [Examples.a] [Examples.sa_shifted] Examples.a
              Examples.sa_shifted 0%nat)
    as (ans' & Hl & _ & Hnull & _).
  - reflexivity.
  - apply NoDup_singleton.
  - apply list_elem_of_singleton. reflexivity.
  - reflexivity.
  - reflexivity.
  - exists ans'. split; [exact Hl|].
    destruct Hnull as [[Hc _] _]; [discriminate|discriminate|exact Hc].
Defined.

(** ** Arithmetic of scores *)

Lemma Qdiv_inject_one (a n : Z) :
  n ≠ 0 → (Qdiv (inject_Z a) (inject_Z n) == 1)%Q ↔ a = n.
Proof.
  intros Hn.
  assert (¬ (inject_Z n == 0)%Q) as Hn'.
  { intros H. apply (inject_Z_injective n 0) in H. done. }
  split.
  - intros H. apply inject_Z_injective.
    rewrite <- (Qmult_div_r (inject_Z a) (inject_Z n)) by done.
    rewrite H. ring.
  - intros ->. unfold Qdiv. by apply Qmult_inv_r.
Qed.

Lemma Qdiv_inject_zero (n : Z) : (Qdiv (inject_Z 0) (inject_Z n) == 0)%Q.
Proof. unfold Qdiv. ring. Qed.

Lemma pymax_zero_one (q : Q) : (pymax 0 q == 1)%Q ↔ (q == 1)%Q.
Proof.
  unfold pymax. destruct (Qlt_le_dec 0 q) as [Hlt|Hle]; [done|].
  split; intros H.
  - by apply (Qeq_bool_neq 0 1) in H.
  - rewrite H in Hle. by apply Qle_bool_iff in Hle.
Qed.

Lemma pymax_zero_zero (q : Q) : (q == 0)%Q → (pymax 0 q == 0)%Q.
Proof.
  intros H. unfold pymax. destruct (Qlt_le_dec 0 q) as [Hlt|Hle]; [|done].
  exact H.
Qed.

Lemma round2_one (q : Q) : (q == 1)%Q → (round2 q == 1)%Q.
Proof.
  destruct q as [a b]. unfold Qeq. simpl. intros H.
  assert (a = Z.pos b) as -> by lia.
  unfold round2, round_half_even. simpl.
  rewrite Pos.mul_1_r, (Z.mul_comm (Z.pos b) 100).
  rewrite Z.mod_mul, Z.div_mul by lia.
  replace (2 * 0 ?= Z.pos b) with Lt; [reflexivity|].
  symmetry. apply Z.compare_lt_iff. lia.
Qed.

(** ** Unordered grading *)

Lemma grade_unordered_uuids T (sub sub' : list SubmittedBlock) :
  s_uuid <$> sub = s_uuid <$> sub' → grade_unordered T sub = grade_unordered T sub'.
Proof.
  intros H. unfold grade_unordered. rewrite H.
  assert (length sub = length sub') as ->; [|done].
  by rewrite <- (length_fmap s_uuid sub), H, length_fmap.
Qed.

Lemma grade_locals_unordered gd lcs element T sub :
  grading_method element = Some UNORDERED →
  grade_locals gd lcs element T sub
  = (final_score ← grade_unordered T sub;
     Ok {| g_student_answer :=
             indentation_gate (default INDENTION_DEFAULT (indentation element))
                              T sub;
           g_final_score := final_score;
           g_feedback := EmptyString; g_first_wrong := None |}).
Proof.
  intros Hm. unfold grade_locals. rewrite Hm. simpl.
  by rewrite (grade_unordered_uuids T _ sub (indentation_gate_uuids _ T sub)).
Qed.

(** C10: under [UNORDERED] the score depends on the submission through the
    identifiers of its blocks only: two submissions with the same blocks
    that differ in their indents score the same, whether indentation
    checking is on or off. *)
Theorem C10_unordered_ignores_indent
    (gd : list (option string) → depends_graph_t → group_belonging_t →
          result (nat * nat))
    (lcs : list (option string) → depends_graph_t → group_belonging_t →
           result nat)
    (element1 element2 : Element) (T : list OrderBlocksAnswerData)
    (sub1 sub2 : list SubmittedBlock) :
  grading_method element1 = Some UNORDERED →
  grading_method element2 = Some UNORDERED →
  s_uuid <$> sub1 = s_uuid <$> sub2 →
  g_final_score <$> grade_locals gd lcs element1 T sub1
  = g_final_score <$> grade_locals gd lcs element2 T sub2.
Proof.
  intros H1 H2 HS.
  rewrite !grade_locals_unordered by done.
  rewrite (grade_unordered_uuids T sub1 sub2 HS).
  by destruct (grade_unordered T sub2).
Qed.

Lemma C10_unordered_ignores_indent_witness :
  g_final_score
    <$> grade_locals dag_checker.grade_dag dag_checker.lcs_partial_credit
          (Examples.element UNORDERED true None None [])
          [Examples.a; Examples.b] [Examples.sa_shifted; Examples.sb]
  = g_final_score
      <$> grade_locals dag_checker.grade_dag dag_checker.lcs_partial_credit
            (Examples.element UNORDERED false None None [])
            [Examples.a; Examples.b] [Examples.sa; Examples.sb].
Proof.
  apply C10_unordered_ignores_indent; reflexivity.
Defined.

Lemma unordered_counts (T : list OrderBlocksAnswerData)
    (sub : list SubmittedBlock) :
  NoDup (uuid <$> T) → NoDup (s_uuid <$> sub) →
  let correct : gset string := list_to_set (uuid <$> T) in
  let submitted : gset string := list_to_set (s_uuid <$> sub) in
  size correct = length T
  ∧ Z.of_nat (length sub) - Z.of_nat (size (correct ∩ submitted))
    = Z.of_nat (size (submitted ∖ correct)).
Proof.
  intros HT HS correct submitted. split.
  - unfold correct.
    rewrite (size_list_to_set (C := gset string)) by done.
    apply length_fmap.
  - rewrite (size_difference_alt submitted correct).
    assert (size submitted = length sub) as ->.
    { unfold submitted.
      rewrite (size_list_to_set (C := gset string)) by done.
      apply length_fmap. }
    assert (submitted ∩ correct = correct ∩ submitted) as -> by set_solver.
    assert (size (correct ∩ submitted) ≤ length sub)%nat; [|lia].
    rewrite <- (length_fmap s_uuid sub), <- (size_list_to_set (C := gset string))
      by done.
    apply subseteq_size. set_solver.
Qed.

(** C5 (as amended): under [UNORDERED], for a submission without repeated
    blocks against a correct list that is not empty, the score is
    [max(0, (|correct ∩ submitted| − |submitted \ correct|) / |correct|)]
    over the sets of block identifiers; the empty submission scores 0, and
    the score is 1 exactly when the two sets are equal. *)
Theorem C5_unordered_score
    (gd : list (option string) → depends_graph_t → group_belonging_t →
          result (nat * nat))
    (lcs : list (option string) → depends_graph_t → group_belonging_t →
           result nat)
    (element : Element) (T : list OrderBlocksAnswerData)
    (sub : list SubmittedBlock) :
  grading_method element = Some UNORDERED →
  T ≠ [] →
  NoDup (uuid <$> T) →
  NoDup (s_uuid <$> sub) →
  ∃ g,
    grade_locals gd lcs element T sub = Ok g
    ∧ g_final_score g = unordered_spec_score T sub
    ∧ (sub = [] → (g_final_score g == 0)%Q)
    ∧ ((g_final_score g == 1)%Q
       ↔ list_to_set (s_uuid <$> sub) =@{gset string} list_to_set (uuid <$> T)).
Proof.
  intros Hm HT HndT HndS.
  destruct (unordered_counts T sub HndT HndS) as [Hsize Hinc].
  assert (Z.of_nat (length T) ≠ 0) as Hlen by (destruct T; [done|simpl; lia]).
  rewrite grade_locals_unordered by done.
  unfold grade_unordered, float_div.
  destruct (decide (Z.of_nat (length T) = 0)) as [?|_]; [done|]. simpl.
  eexists. split; [reflexivity|]. simpl.
  set (correct := list_to_set (uuid <$> T) : gset string) in *.
  set (submitted := list_to_set (s_uuid <$> sub) : gset string) in *.
  split; [|split].
  - unfold unordered_spec_score. fold correct submitted.
    rewrite Hinc, Hsize. reflexivity.
  - intros ->. apply pymax_zero_zero.
    assert (correct ∩ submitted = ∅) as Hempty.
    { apply leibniz_equiv. intros x. rewrite elem_of_intersection.
      unfold submitted. simpl. split; [by intros [_ ?]|].
      intros Hx. by apply elem_of_empty in Hx. }
    rewrite Hempty, size_empty. simpl. apply Qdiv_inject_zero.
  - rewrite pymax_zero_one, Qdiv_inject_one by exact Hlen.
    rewrite Hinc, <- Hsize. split.
    + intros H.
      assert (size (correct ∩ submitted) ≤ size correct)%nat as Hle.
      { apply subseteq_size. apply intersection_subseteq_l. }
      assert (size (correct ∩ submitted) = size correct) as Heq by lia.
      assert (size (submitted ∖ correct) = 0%nat) as Hz by lia.
      apply size_empty_inv in Hz.
      assert (correct ∩ submitted = correct) as Hsub.
      { apply set_subseteq_size_eq; [apply intersection_subseteq_l|lia]. }
      apply leibniz_equiv. intros x. split; intros Hx.
      * destruct (decide (x ∈ correct)) as [|Hn]; [done|].
        exfalso. apply (not_elem_of_empty (C := gset string) x).
        rewrite <- Hz. by apply elem_of_difference.
      * rewrite <- Hsub in Hx. by apply elem_of_intersection in Hx as [_ ?].
    + intros Heq. rewrite Heq.
      assert (correct ∩ correct = correct) as Hcc.
      { apply leibniz_equiv. intros x. rewrite elem_of_intersection. tauto. }
      assert (correct ∖ correct = ∅) as Hdd.
      { apply leibniz_equiv. intros x.
        rewrite elem_of_difference, elem_of_empty. tauto. }
      rewrite Hcc, Hdd, size_empty. lia.
Qed.

Lemma C5_unordered_score_witness :
  ∃ g,
    grade_locals dag_checker.grade_dag dag_checker.lcs_partial_credit
      (Examples.element UNORDERED false None None [])
      [Examples.a; Examples.b] [Examples.sb; Examples.sc]
    = Ok g
    ∧ g_final_score g
      = unordered_spec_score [Examples.a; Examples.b]
                             [Examples.sb; Examples.sc].
Proof.
  destruct (C5_unordered_score dag_checker.grade_dag
              dag_checker.lcs_partial_credit
              (Examples.element UNORDERED false None None [])
              [Examples.a; Examples.b] [Examples.sb; Examples.sc])
    as (g & Hg & Hs & _).
  - reflexivity.
  - discriminate.
  - refine (bool_decide_unpack _ _). vm_compute. exact I.
  - refine (bool_decide_unpack _ _). vm_compute. exact I.
  - exists g. split; [exact Hg|exact Hs].
Defined.

(** C5 as stated fails on a submission that repeats a block: the repeated
    block counts as an incorrect selection, and the score is 0 where the
    formula over sets gives 1/2. *)
Lemma C5_counterexample :
  ∃ g,
    grade_locals dag_checker.grade_dag dag_checker.lcs_partial_credit
      (Examples.element UNORDERED false None None [])
      [Examples.a; Examples.b] [Examples.sa; Examples.sa]
    = Ok g
    ∧ (g_final_score g == 0)%Q
    ∧ (unordered_spec_score [Examples.a; Examples.b]
                            [Examples.sa; Examples.sa] == 1 # 2)%Q.
Proof.
  eexists. split; [vm_compute; reflexivity|]. split; vm_compute; reflexivity.
Qed.

(** ** Ordered grading *)

Lemma gate_block_inner_html inds ans :
  s_inner_html (gate_block inds ans) = s_inner_html ans
  ∨ s_inner_html (gate_block inds ans) = None.
Proof.
  unfold gate_block. case_match; [|by left].
  unfold null_block. destruct (s_tag ans); simpl; auto.
Qed.

Lemma grade_locals_ordered gd lcs element T sub :
  default GRADING_METHOD_DEFAULT (grading_method element) = ORDERED →
  grade_locals gd lcs element T sub
  = Ok {| g_student_answer :=
            indentation_gate (default INDENTION_DEFAULT (indentation element))
                             T sub;
          g_final_score :=
            grade_ordered T
              (indentation_gate
                 (default INDENTION_DEFAULT (indentation element)) T sub);
          g_feedback := EmptyString; g_first_wrong := None |}.
Proof. intros Hm. unfold grade_locals. by rewrite Hm. Qed.

(** The contents of a gated transposition differ from the correct contents
    at the first of the two positions. *)
Lemma gated_transposition_differs b T sub l1 l2 x y :
  T = l1 ++ x :: y :: l2 →
  inner_html x ≠ inner_html y →
  s_inner_html <$> sub = contents (l1 ++ y :: x :: l2) →
  s_inner_html <$> indentation_gate b T sub ≠ contents T.
Proof.
  intros HT Hxy Hsub Heq.
  assert ((s_inner_html <$> sub) !! length l1 = Some (Some (inner_html y)))
    as Hs.
  { rewrite Hsub. unfold contents. rewrite fmap_app, lookup_app_r, length_fmap
      by (rewrite length_fmap; lia).
    by rewrite Nat.sub_diag. }
  assert (contents T !! length l1 = Some (Some (inner_html x))) as Ht.
  { rewrite HT. unfold contents. rewrite fmap_app, lookup_app_r, length_fmap
      by (rewrite length_fmap; lia).
    by rewrite Nat.sub_diag. }
  rewrite <- Heq in Ht. rewrite list_lookup_fmap in Hs, Ht.
  destruct (sub !! length l1) as [ans|] eqn:Hans; [|done].
  simpl in Hs. injection Hs as Hs.
  destruct b.
  - rewrite (indentation_gate_lookup T sub _ ans Hans) in Ht. simpl in Ht.
    injection Ht as Ht.
    destruct (gate_block_inner_html (indentations T) ans) as [Hg|Hg];
      rewrite Hg in Ht; congruence.
  - rewrite indentation_gate_off, Hans in Ht. simpl in Ht. congruence.
Qed.

(** C6 (as amended): under [ORDERED] the score is 1 if the contents of the
    submission as the indentation gate leaves them equal the correct
    contents, element for element, and 0 otherwise; with indentation
    checking off these are the submitted contents themselves; and the
    transposition of two adjacent correct elements of different content
    scores 0. *)
Theorem C6_ordered_score
    (gd : list (option string) → depends_graph_t → group_belonging_t →
          result (nat * nat))
    (lcs : list (option string) → depends_graph_t → group_belonging_t →
           result nat)
    (element : Element) (T : list OrderBlocksAnswerData)
    (sub : list SubmittedBlock)
    (l1 l2 : list OrderBlocksAnswerData) (x y : OrderBlocksAnswerData) :
  default GRADING_METHOD_DEFAULT (grading_method element) = ORDERED →
  ∃ g,
    grade_locals gd lcs element T sub = Ok g
    ∧ g_final_score g
      = (if decide (s_inner_html
                      <$> indentation_gate
                            (default INDENTION_DEFAULT (indentation element))
                            T sub
                    = contents T)
         then 1%Q else 0%Q)
    ∧ (default INDENTION_DEFAULT (indentation element) = false →
       g_final_score g
       = if decide (s_inner_html <$> sub = contents T) then 1%Q else 0%Q)
    ∧ (T = l1 ++ x :: y :: l2 →
       inner_html x ≠ inner_html y →
       s_inner_html <$> sub = contents (l1 ++ y :: x :: l2) →
       g_final_score g = 0%Q).
Proof.
  intros Hm. rewrite grade_locals_ordered by done.
  eexists. split; [reflexivity|]. simpl. unfold grade_ordered.
  fold (contents T). split; [done|]. split.
  - intros ->. by rewrite indentation_gate_off.
  - intros HT Hxy Hsub.
    destruct (decide _) as [Heq|_]; [|done].
    by apply gated_transposition_differs with (b :=
      default INDENTION_DEFAULT (indentation element)) (T := T) in Hsub.
Qed.

Lemma C6_ordered_score_witness :
  ∃ g,
    grade_locals dag_checker.grade_dag dag_checker.lcs_partial_credit
      (Examples.element ORDERED true None None [])
      [Examples.a; Examples.b; Examples.c]
      [Examples.sa; Examples.sc; Examples.sb]
    = Ok g
    ∧ g_final_score g = 0%Q.
Proof.
  destruct (C6_ordered_score dag_checker.grade_dag
              dag_checker.lcs_partial_credit
              (Examples.element ORDERED true None None [])
              [Examples.a; Examples.b; Examples.c]
              [Examples.sa; Examples.sc; Examples.sb]
              [Examples.a] [] Examples.b Examples.c)
    as (g & Hg & _ & _ & Hswap).
  - reflexivity.
  - exists g. split; [exact Hg|].
    apply Hswap; [reflexivity|discriminate|reflexivity].
Defined.

(** C6 as stated fails when indentation checking is on: a submission whose
    contents are the correct contents, with one block at another indent,
    scores 0. *)
Lemma C6_counterexample :
  s_inner_html <$> [Examples.sa_shifted] = contents [Examples.a]
  ∧ ∃ g,
      grade_locals dag_checker.grade_dag dag_checker.lcs_partial_credit
        (Examples.element ORDERED true None None [])
        [Examples.a] [Examples.sa_shifted]
      = Ok g
      ∧ g_final_score g = 0%Q.
Proof.
  split; [reflexivity|]. eexists. split; [vm_compute; reflexivity|reflexivity].
Qed.

(** ** The writes of [grade] *)

Lemma grade_locals_student_answer gd lcs element T sub g :
  grade_locals gd lcs element T sub = Ok g →
  g_student_answer g
  = indentation_gate (default INDENTION_DEFAULT (indentation element)) T sub.
Proof.
  unfold grade_locals. intros Hg.
  destruct (default GRADING_METHOD_DEFAULT (grading_method element)).
  - apply bind_Ok in Hg as (q & _ & [= <-]). done.
  - by injection Hg as <-.
  - apply bind_Ok in Hg as ([[q fb] fw] & _ & [= <-]). done.
  - apply bind_Ok in Hg as ([[q fb] fw] & _ & [= <-]). done.
  - by injection Hg as <-.
Qed.

(** C8 (as amended): a call of [grade] leaves the stored correct answers
    and the parameters as they were (so the dependency graph, which is
    rebuilt from the correct answers at every call, is the same at the next
    call); it writes the score result under the name of the element, and it
    overwrites the submitted blocks of that name with what the indentation
    gate makes of them. With indentation checking off the submitted answers
    are unchanged. *)
Theorem C8_grade_frame
    (gd : list (option string) → depends_graph_t → group_belonging_t →
          result (nat * nat))
    (lcs : list (option string) → depends_graph_t → group_belonging_t →
           result nat)
    (element : Element) (data data' : QuestionData) :
  grade gd lcs element data = Ok data' →
  correct_answers data' = correct_answers data
  ∧ params data' = params data
  ∧ (∃ T sub ps,
       correct_answers data !! answers_name element = Some T
       ∧ submitted_answers data !! answers_name element = Some sub
       ∧ submitted_answers data'
         = <[answers_name element :=
               indentation_gate
                 (default INDENTION_DEFAULT (indentation element)) T sub]>
             (submitted_answers data)
       ∧ partial_scores data'
         = <[answers_name element := ps]> (partial_scores data))
  ∧ (default INDENTION_DEFAULT (indentation element) = false →
     submitted_answers data' = submitted_answers data).
Proof.
  unfold grade. intros H.
  apply bind_Ok in H as (sub & Hsub & H).
  apply bind_Ok in H as (T & HT & H).
  apply bind_Ok in H as (g & Hg & H).
  injection H as <-. simpl.
  apply grade_locals_student_answer in Hg as ->.
  destruct (submitted_answers data !! answers_name element) as [sub'|] eqn:Hs;
    [|done].
  destruct (correct_answers data !! answers_name element) as [T'|] eqn:Ht;
    [|done].
  injection Hsub as ->. injection HT as ->.
  split; [done|]. split; [done|]. split.
  - exists T, sub. eexists. done.
  - intros ->. rewrite indentation_gate_off. by apply insert_id.
Qed.

Lemma C8_grade_frame_witness :
  ∃ data',
    grade dag_checker.grade_dag dag_checker.lcs_partial_credit
      (Examples.element ORDERED false None None [])
      (Examples.data [Examples.a] [Examples.sa_shifted])
    = Ok data'
    ∧ correct_answers data'
      = correct_answers (Examples.data [Examples.a] [Examples.sa_shifted])
    ∧ submitted_answers data'
      = submitted_answers (Examples.data [Examples.a] [Examples.sa_shifted]).
Proof.
  eexists. split; [vm_compute; reflexivity|].
  destruct (C8_grade_frame dag_checker.grade_dag
              dag_checker.lcs_partial_credit
              (Examples.element ORDERED false None None [])
              (Examples.data [Examples.a] [Examples.sa_shifted])
              _ eq_refl)
    as (Hc & _ & _ & Hs).
  split; [exact Hc|]. apply Hs. reflexivity.
Defined.

(** C8 as stated fails when indentation checking is on: the call overwrites
    the content of a submitted block whose indent does not match. *)
Lemma C8_counterexample :
  ∃ data',
    grade dag_checker.grade_dag dag_checker.lcs_partial_credit
      (Examples.element ORDERED true None None [])
      (Examples.data [Examples.a] [Examples.sa_shifted])
    = Ok data'
    ∧ submitted_answers
        (Examples.data [Examples.a] [Examples.sa_shifted]) !! "order"
      = Some [Examples.sa_shifted]
    ∧ s_inner_html Examples.sa_shifted = Some "first line"
    ∧ ∃ ans, submitted_answers data' !! "order" = Some [ans]
             ∧ s_inner_html ans = None.
Proof.
  eexists. split; [vm_compute; reflexivity|].
  split; [reflexivity|]. split; [reflexivity|].
  eexists. split; [vm_compute; reflexivity|reflexivity].
Qed.

(** ** Grading against the dependency graph *)

Lemma mapM_result_length {A B} (f : A → result B) (l : list A) (k : list B) :
  mapM f l = Ok k → length k = length l.
Proof.
  revert k. induction l as [|x l IH]; intros k H; simpl in H.
  - by injection H as <-.
  - apply bind_Ok in H as (y & _ & H).
    apply bind_Ok in H as (k' & Hk' & H).
    injection H as <-. simpl. f_equal. by apply IH.
Qed.

Lemma graph_model_length method T sub submission dg gb :
  graph_model method T sub = Ok (submission, dg, gb) →
  length submission = length sub.
Proof.
  unfold graph_model. intros H.
  apply bind_Ok in H as (s & Hs & H).
  apply mapM_result_length in Hs.
  destruct method; try (destruct (extract_dag T); by injection H as <- _ _).
  apply bind_Ok in H as (d & _ & H). by injection H as <- _ _.
Qed.

(** The branch of [grade_locals] for the two graph methods. *)
Lemma grade_locals_graph gd lcs element T sub :
  default GRADING_METHOD_DEFAULT (grading_method element) = RANKING
  ∨ default GRADING_METHOD_DEFAULT (grading_method element) = DAG →
  grade_locals gd lcs element T sub
  = ('(final_score, feedback, first_wrong) ←
       grade_graph gd lcs
         (default GRADING_METHOD_DEFAULT (grading_method element))
         (default INDENTION_DEFAULT (indentation element))
         (default FEEDBACK_DEFAULT (feedback element))
         (default LCS (partial_credit element)) T
         (indentation_gate (default INDENTION_DEFAULT (indentation element))
                           T sub);
     Ok {| g_student_answer :=
             indentation_gate
               (default INDENTION_DEFAULT (indentation element)) T sub;
           g_final_score := final_score;
           g_feedback := feedback; g_first_wrong := first_wrong |}).
Proof. intros [Hm|Hm]; unfold grade_locals; by rewrite Hm. Qed.

(** C2: under [RANKING] or [DAG], with partial credit [none] the score is 1
    if the number of initially correct positions equals the length of the
    true answer and 0 otherwise; with [lcs] it is
    [max(0, (true_answer_length − edit_distance) / true_answer_length)],
    the counts and the edit distance being those that [grade_dag] and
    [lcs_partial_credit] return for the submission and the graph. *)
Theorem C2_partial_credit
    (gd : list (option string) → depends_graph_t → group_belonging_t →
          result (nat * nat))
    (lcs : list (option string) → depends_graph_t → group_belonging_t →
           result nat)
    (element : Element) (T : list OrderBlocksAnswerData)
    (sub : list SubmittedBlock) (submission : list (option string))
    (dg : depends_graph_t) (gb : group_belonging_t)
    (num_initial_correct true_answer_length : nat) :
  default GRADING_METHOD_DEFAULT (grading_method element) = RANKING
  ∨ default GRADING_METHOD_DEFAULT (grading_method element) = DAG →
  graph_model (default GRADING_METHOD_DEFAULT (grading_method element)) T
    (indentation_gate (default INDENTION_DEFAULT (indentation element)) T sub)
  = Ok (submission, dg, gb) →
  gd submission dg gb = Ok (num_initial_correct, true_answer_length) →
  (default LCS (partial_credit element) = PC_NONE →
   ∃ g,
     grade_locals gd lcs element T sub = Ok g
     ∧ g_final_score g
       = if decide (num_initial_correct = true_answer_length)
         then 1%Q else 0%Q)
  ∧ (default LCS (partial_credit element) = LCS →
     ∀ edit_distance,
       lcs submission dg gb = Ok edit_distance →
       true_answer_length ≠ 0%nat →
       ∃ g,
         grade_locals gd lcs element T sub = Ok g
         ∧ g_final_score g
           = pymax 0%Q
               (Qdiv (inject_Z (Z.of_nat true_answer_length
                                - Z.of_nat edit_distance))
                     (inject_Z (Z.of_nat true_answer_length)))).
Proof.
  intros Hm Hgm Hgd.
  rewrite grade_locals_graph by done. unfold grade_graph.
  rewrite Hgm. simpl. rewrite Hgd. simpl. split.
  - intros ->. simpl. eexists. split; [reflexivity|]. simpl.
    by repeat case_decide.
  - intros -> ed Hed Hlen. simpl. rewrite Hed. simpl.
    unfold float_div.
    destruct (decide (Z.of_nat true_answer_length = 0)) as [?|_]; [lia|].
    simpl.
    eexists. split; [reflexivity|]. done.
Qed.

Lemma C2_partial_credit_witness :
  ∃ g,
    grade_locals dag_checker.grade_dag dag_checker.lcs_partial_credit
      (Examples.element RANKING false (Some LCS) None [])
      [Examples.a; Examples.b; Examples.c]
      (as_submitted <$> [Examples.b; Examples.c])
    = Ok g
    ∧ g_final_score g
      = pymax 0%Q (Qdiv (inject_Z (3 - 1)) (inject_Z 3)).
Proof.
  destruct (C2_partial_credit dag_checker.grade_dag
              dag_checker.lcs_partial_credit
              (Examples.element RANKING false (Some LCS) None [])
              [Examples.a; Examples.b; Examples.c]
              (as_submitted <$> [Examples.b; Examples.c])
              [Some "B"; Some "C"]
              [("A", []); ("B", ["A"]); ("C", ["A"])] [] 0%nat 3%nat)
    as [_ Hlcs].
  - left. reflexivity.
  - vm_compute. reflexivity.
  - vm_compute. reflexivity.
  - apply (Hlcs eq_refl 1%nat).
    + vm_compute. reflexivity.
    + discriminate.
Defined.

(** C3: under [RANKING] or [DAG] there is no first wrong index exactly when
    the number of initially correct positions is the length of the
    submission, whatever the length of the true answer; otherwise it is
    that number. When the score is below 1 and the feedback is
    [first-wrong], the feedback is the "incomplete" message if there is no
    first wrong index, and otherwise the "wrong-at-block" message for the
    block number [first_wrong + 1], followed by the hints and the closing
    tag of the list. *)
Theorem C3_first_wrong_feedback
    (gd : list (option string) → depends_graph_t → group_belonging_t →
          result (nat * nat))
    (lcs : list (option string) → depends_graph_t → group_belonging_t →
           result nat)
    (element : Element) (T : list OrderBlocksAnswerData)
    (sub : list SubmittedBlock) (submission : list (option string))
    (dg : depends_graph_t) (gb : group_belonging_t)
    (num_initial_correct true_answer_length : nat) (g : Graded) :
  default GRADING_METHOD_DEFAULT (grading_method element) = RANKING
  ∨ default GRADING_METHOD_DEFAULT (grading_method element) = DAG →
  graph_model (default GRADING_METHOD_DEFAULT (grading_method element)) T
    (indentation_gate (default INDENTION_DEFAULT (indentation element)) T sub)
  = Ok (submission, dg, gb) →
  gd submission dg gb = Ok (num_initial_correct, true_answer_length) →
  grade_locals gd lcs element T sub = Ok g →
  length submission = length sub
  ∧ (g_first_wrong g = None ↔ num_initial_correct = length submission)
  ∧ (∀ fw, g_first_wrong g = Some fw → fw = num_initial_correct)
  ∧ ((g_final_score g < 1)%Q →
     default FEEDBACK_DEFAULT (feedback element) = FIRST_WRONG →
     match g_first_wrong g with
     | None => g_feedback g = FW_incomplete
     | Some fw =>
         g_feedback g
         = FW_wrong_at_block (pretty (fw + 1)%nat)
           +:+ (if default INDENTION_DEFAULT (indentation element)
                then FW_indentation else EmptyString)
           +:+ (if has_block_groups gb then FW_block_group else EmptyString)
           +:+ "</ul>"
     end).
Proof.
  intros Hm Hgm Hgd Hg.
  split.
  { apply graph_model_length in Hgm.
    by rewrite Hgm, indentation_gate_length. }
  rewrite grade_locals_graph in Hg by done. unfold grade_graph in Hg.
  rewrite Hgm in Hg. simpl in Hg. rewrite Hgd in Hg. simpl in Hg.
  apply bind_Ok in Hg as ([[q fb] fw] & Hq & Hg). injection Hg as <-.
  apply bind_Ok in Hq as (q' & _ & Hq). injection Hq as -> <- <-. simpl.
  split; [|split].
  - case_decide; [done|]. split; [done|]. intros; done.
  - intros fw. case_decide; [done|]. by intros [= <-].
  - intros Hlt ->. destruct (Qlt_le_dec q 1) as [_|Hle].
    + unfold first_wrong_feedback. by case_decide.
    + exfalso. by apply (Qlt_not_le q 1).
Qed.

Lemma C3_first_wrong_feedback_witness :
  ∃ g,
    grade_locals dag_checker.grade_dag dag_checker.lcs_partial_credit
      (Examples.element DAG true (Some LCS) (Some FIRST_WRONG) [])
      [Examples.a; Examples.b; Examples.c]
      (as_submitted <$> [Examples.a; Examples.c])
    = Ok g
    ∧ g_first_wrong g = None
    ∧ g_feedback g = FW_incomplete.
Proof.
  eexists. split; [vm_compute; reflexivity|].
  destruct (C3_first_wrong_feedback dag_checker.grade_dag
              dag_checker.lcs_partial_credit
              (Examples.element DAG true (Some LCS) (Some FIRST_WRONG) [])
              [Examples.a; Examples.b; Examples.c]
              (as_submitted <$> [Examples.a; Examples.c])
              [Some "A"; Some "C"]
              [("A", []); ("B", ["A"]); ("C", ["A"])]
              [("A", None); ("B", None); ("C", None)] 2%nat 3%nat
              {| g_student_answer := as_submitted <$> [Examples.a; Examples.c];
                 g_final_score := 2 # 3;
                 g_feedback := FW_incomplete;
                 g_first_wrong := None |})
    as (_ & Hnone & _ & Hfb).
  - right. reflexivity.
  - vm_compute. reflexivity.
  - vm_compute. reflexivity.
  - vm_compute. reflexivity.
  - split; [reflexivity|].
    apply Hfb; reflexivity.
Defined.

(** ** Dictionaries in insertion order *)

Section pydict_facts.
Context {K V : Type} `{EqDecision K}.
Implicit Types (d : pydict K V) (k : K) (v : V).

Lemma dict_get_set_eq k v d : dict_get k (dict_set k v d) = Some v.
Proof.
  induction d as [|[k' v'] d IH]; simpl.
  - by rewrite decide_True.
  - destruct (decide (k' = k)) as [->|Hne]; simpl.
    + by rewrite decide_True.
    + by rewrite decide_False.
Qed.

Lemma dict_get_set_ne k k' v d :
  k ≠ k' → dict_get k' (dict_set k v d) = dict_get k' d.
Proof.
  intros Hne. induction d as [|[k0 v0] d IH]; simpl.
  - by rewrite decide_False.
  - destruct (decide (k0 = k)) as [->|Hk]; simpl.
    + by rewrite !decide_False.
    + destruct (decide (k0 = k')); [done|apply IH].
Qed.

Lemma dict_get_None k d : k ∉ d.*1 → dict_get k d = None.
Proof.
  induction d as [|[k' v'] d IH]; [done|]. simpl.
  rewrite not_elem_of_cons. intros [Hne Hk].
  rewrite decide_False by done. by apply IH.
Qed.

Lemma dict_get_Some_elem k v d : dict_get k d = Some v → (k, v) ∈ d.
Proof.
  induction d as [|[k' v'] d IH]; [done|]. simpl.
  destruct (decide (k' = k)) as [->|Hne].
  - intros [= ->]. apply list_elem_of_here.
  - intros H'. apply list_elem_of_further. by apply IH.
Qed.

Lemma dict_set_fresh k v d : k ∉ d.*1 → dict_set k v d = d ++ [(k, v)].
Proof.
  induction d as [|[k' v'] d IH]; [done|]. simpl.
  rewrite not_elem_of_cons. intros [Hne Hk].
  rewrite decide_False by done. by rewrite IH.
Qed.

Lemma dict_set_keys_elem k k' v d :
  k' ∈ (dict_set k v d).*1 ↔ k' = k ∨ k' ∈ d.*1.
Proof.
  induction d as [|[k0 v0] d IH]; simpl.
  - rewrite list_elem_of_singleton. split; [auto|].
    intros [?|Hn]; [done|]. by apply elem_of_nil in Hn.
  - destruct (decide (k0 = k)) as [->|Hne]; simpl.
    + rewrite !elem_of_cons. tauto.
    + rewrite !elem_of_cons, IH. tauto.
Qed.

Lemma dict_comp_fold {A} (key : A → K) (val : A → V) (l : list A) d :
  NoDup (d.*1 ++ (key <$> l)) →
  foldl (λ d x, dict_set (key x) (val x) d) d l
  = d ++ ((λ x, (key x, val x)) <$> l).
Proof.
  revert d. induction l as [|x l IH]; intros d Hnd; simpl.
  - by rewrite app_nil_r.
  - rewrite fmap_cons in Hnd.
    assert (key x ∉ d.*1) as Hx.
    { apply NoDup_app in Hnd as (_ & Hd & _). intros Hin.
      apply (Hd _ Hin). apply list_elem_of_here. }
    rewrite dict_set_fresh by done. rewrite IH.
    + by rewrite <- app_assoc.
    + rewrite fmap_app. simpl. by rewrite <- app_assoc.
Qed.

Lemma dict_comp_NoDup {A} (key : A → K) (val : A → V) (l : list A) :
  NoDup (key <$> l) → dict_comp key val l = (λ x, (key x, val x)) <$> l.
Proof. intros Hnd. unfold dict_comp. by rewrite dict_comp_fold. Qed.

Lemma dict_get_fmap_NoDup {A} (key : A → K) (val : A → V) (l : list A) a :
  NoDup (key <$> l) → a ∈ l →
  dict_get (key a) ((λ x, (key x, val x)) <$> l) = Some (val a).
Proof.
  induction l as [|x l IH]; intros Hnd Ha.
  - by apply elem_of_nil in Ha.
  - rewrite fmap_cons in Hnd. apply NoDup_cons in Hnd as [Hx Hnd]. simpl.
    apply elem_of_cons in Ha as [->|Ha].
    + by rewrite decide_True.
    + rewrite decide_False; [by apply IH|].
      intros Heq. apply Hx. rewrite Heq. by apply list_elem_of_fmap_2.
Qed.
End pydict_facts.

(** ** Stable sorting *)

Section sorting_facts.
Context {A K : Type} (leb : K → K → bool) (key : A → K).
Hypothesis leb_total : ∀ x y, leb x y = false → leb y x = true.
Hypothesis leb_trans : ∀ x y z, leb x y = true → leb y z = true → leb x z = true.

Lemma insert_by_Permutation x l : insert_by leb key x l ≡ₚ x :: l.
Proof.
  induction l as [|y l IH]; [done|]. simpl.
  destruct (leb (key x) (key y)); [done|].
  rewrite IH. apply Permutation_swap.
Qed.

Lemma sorted_Permutation l : sorted leb key l ≡ₚ l.
Proof.
  induction l as [|x l IH]; [done|]. simpl.
  by rewrite insert_by_Permutation, IH.
Qed.

Lemma insert_by_StronglySorted x l :
  StronglySorted (key_le leb key) l → StronglySorted (key_le leb key) (insert_by leb key x l).
Proof.
  induction l as [|y l IH]; intros Hs; simpl.
  - repeat constructor.
  - destruct (leb (key x) (key y)) eqn:Hxy.
    + constructor; [done|]. apply Forall_cons. split; [done|].
      apply StronglySorted_inv in Hs as [_ Hall].
      eapply Forall_impl; [exact Hall|]. intros z Hz.
      by apply (leb_trans _ (key y)).
    + apply StronglySorted_inv in Hs as [Hs Hall].
      constructor; [by apply IH|].
      rewrite insert_by_Permutation. apply Forall_cons. split; [|done].
      by apply leb_total.
Qed.

Lemma sorted_StronglySorted l : StronglySorted (key_le leb key) (sorted leb key l).
Proof.
  induction l as [|x l IH]; simpl; [constructor|].
  by apply insert_by_StronglySorted.
Qed.

Lemma sorted_id l : StronglySorted (key_le leb key) l → sorted leb key l = l.
Proof.
  induction l as [|x l IH]; intros Hs; [done|].
  apply StronglySorted_inv in Hs as [Hs Hall]. simpl. rewrite IH by done.
  destruct l as [|y l]; [done|]. simpl.
  apply Forall_cons in Hall as [Hxy _]. unfold key_le in Hxy. by rewrite Hxy.
Qed.

Lemma sorted_elem_of l x : x ∈ sorted leb key l ↔ x ∈ l.
Proof. by rewrite sorted_Permutation. Qed.

Lemma sorted_length l : length (sorted leb key l) = length l.
Proof. by rewrite sorted_Permutation. Qed.
End sorting_facts.

Lemma Z_leb_total (x y : Z) : (x <=? y) = false → (y <=? x) = true.
Proof. intros H. apply Z.leb_gt in H. apply Z.leb_le. lia. Qed.

Lemma Z_leb_trans (x y z : Z) :
  (x <=? y) = true → (y <=? z) = true → (x <=? z) = true.
Proof. rewrite !Z.leb_le. lia. Qed.

Lemma Nat_leb_total (x y : nat) : (x <=? y)%nat = false → (y <=? x)%nat = true.
Proof. intros H. apply Nat.leb_gt in H. apply Nat.leb_le. lia. Qed.

Lemma Nat_leb_trans (x y z : nat) :
  (x <=? y)%nat = true → (y <=? z)%nat = true → (x <=? z)%nat = true.
Proof. rewrite !Nat.leb_le. lia. Qed.

Lemma NoDup_fmap_inj_on {A B} (f : A → B) (l : list A) (x y : A) :
  NoDup (f <$> l) → x ∈ l → y ∈ l → f x = f y → x = y.
Proof.
  induction l as [|z l IH]; intros Hnd Hx Hy Hf.
  - by apply elem_of_nil in Hx.
  - rewrite fmap_cons in Hnd. apply NoDup_cons in Hnd as [Hz Hnd].
    apply elem_of_cons in Hx as [->|Hx]; apply elem_of_cons in Hy as [->|Hy].
    + done.
    + exfalso. apply Hz. rewrite Hf. by apply list_elem_of_fmap_2.
    + exfalso. apply Hz. rewrite <- Hf. by apply list_elem_of_fmap_2.
    + by apply IH.
Qed.

(** ** The graph of the ranking method *)

Lemma prev_distinct_rank_spec (ranks : list Z) (r : Z) :
  match prev_distinct_rank ranks r with
  | Some p => p ∈ ranks ∧ p < r ∧ ∀ x, x ∈ ranks → x < r → x ≤ p
  | None => ∀ x, x ∈ ranks → r ≤ x
  end.
Proof.
  induction ranks as [|y ranks IH]; simpl.
  - intros x Hx. by apply elem_of_nil in Hx.
  - destruct (decide (y < r)) as [Hy|Hy];
      destruct (prev_distinct_rank ranks r) as [m|].
    + destruct IH as (Hm & Hmr & Hmax). split; [|split; [lia|]].
      * destruct (Z.max_spec y m) as [[_ ->]|[_ ->]];
          [by apply list_elem_of_further|apply list_elem_of_here].
      * intros x Hx Hxr. apply elem_of_cons in Hx as [->|Hx]; [lia|].
        specialize (Hmax x Hx Hxr). lia.
    + split; [apply list_elem_of_here|]. split; [done|].
      intros x Hx Hxr. apply elem_of_cons in Hx as [->|Hx]; [lia|].
      specialize (IH x Hx). lia.
    + destruct IH as (Hm & Hmr & Hmax).
      split; [by apply list_elem_of_further|]. split; [done|].
      intros x Hx Hxr. apply elem_of_cons in Hx as [->|Hx]; [lia|]. auto.
    + intros x Hx. apply elem_of_cons in Hx as [->|Hx]; [lia|]. auto.
Qed.

Lemma prev_distinct_rank_is (ranks : list Z) (r p : Z) :
  p ∈ ranks → p < r → (∀ x, x ∈ ranks → x < r → x ≤ p) →
  prev_distinct_rank ranks r = Some p.
Proof.
  intros Hp Hpr Hmax. pose proof (prev_distinct_rank_spec ranks r) as Hs.
  destruct (prev_distinct_rank ranks r) as [q|].
  - destruct Hs as (Hq & Hqr & Hqmax). f_equal.
    specialize (Hmax q Hq Hqr). specialize (Hqmax p Hp Hpr). lia.
  - specialize (Hs p Hp). lia.
Qed.

Lemma prev_distinct_rank_none (ranks : list Z) (r : Z) :
  (∀ x, x ∈ ranks → r ≤ x) → prev_distinct_rank ranks r = None.
Proof.
  intros Hmin. pose proof (prev_distinct_rank_spec ranks r) as Hs.
  destruct (prev_distinct_rank ranks r) as [q|]; [|done].
  destruct Hs as (Hq & Hqr & _). specialize (Hmin q Hq). lia.
Qed.

Section ranking_facts.
Variable T : list OrderBlocksAnswerData.
Hypothesis tags_NoDup : NoDup (tag <$> T).


Lemma ranking_sorted_Permutation : ranking_sorted T ≡ₚ T.
Proof. apply sorted_Permutation. Qed.

Lemma ranking_sorted_tags_NoDup : NoDup (tag <$> ranking_sorted T).
Proof. by rewrite ranking_sorted_Permutation. Qed.

Lemma ranking_sorted_StronglySorted :
  StronglySorted (key_le Z.leb ranking) (ranking_sorted T).
Proof. apply sorted_StronglySorted; [apply Z_leb_total|apply Z_leb_trans]. Qed.

Lemma tag_to_rank_eq :
  tag_to_rank T = (λ a, (tag a, ranking a)) <$> ranking_sorted T.
Proof. apply dict_comp_NoDup, ranking_sorted_tags_NoDup. Qed.

Lemma tag_to_rank_lookup a :
  a ∈ ranking_sorted T → dict_get (tag a) (tag_to_rank T) = Some (ranking a).
Proof.
  intros Ha. rewrite tag_to_rank_eq.
  by apply dict_get_fmap_NoDup; [apply ranking_sorted_tags_NoDup|].
Qed.

Lemma tags_of_rank_filter (l : list OrderBlocksAnswerData) (p : Z) :
  (filter (λ kv : string * Z, kv.2 = p) ((λ a, (tag a, ranking a)) <$> l)).*1
  = tag <$> filter (λ a, ranking a = p) l.
Proof.
  induction l as [|x l IH]; [done|]. rewrite fmap_cons, !filter_cons.
  destruct (decide ((tag x, ranking x).2 = p)) as [H1|H1];
    destruct (decide (ranking x = p)) as [H2|H2]; simpl in H1; try done.
  rewrite !fmap_cons. f_equal. exact IH.
Qed.

Lemma lines_of_rank_lookup z :
  z ∈ ranking_sorted T →
  lines_of_rank T !! ranking z = Some (tags_of_rank T (ranking z)).
Proof.
  intros Hz. unfold lines_of_rank.
  apply (lookup_set_to_map (M := gmap Z) (C := gset Z)).
  - by intros y y' _ _ Hy.
  - exists (ranking z). split.
    + apply elem_of_list_to_set. unfold dict_values. rewrite tag_to_rank_eq.
      rewrite <- list_fmap_compose.
      by apply (list_elem_of_fmap_2 (λ a, ranking a)).
    + f_equal. rewrite tag_to_rank_eq. apply tags_of_rank_filter.
Qed.

Lemma rank_elem_sorted x :
  x ∈ ranking <$> T ↔ x ∈ ranking <$> ranking_sorted T.
Proof. by rewrite ranking_sorted_Permutation. Qed.

(** The loop over [true_answer], from a state reached on [pre]. *)
Lemma ranking_loop_spec rest :
  ∀ pre dg cur prev,
    ranking_sorted T = pre ++ rest →
    (∀ a, a ∈ pre → dict_get (tag a) dg = Some (rank_depends T (ranking a))) →
    match last pre with
    | None => prev = None ∧ cur = []
    | Some z => prev = Some (ranking z) ∧ cur = rank_depends T (ranking z)
    end →
    ∃ st,
      ranking_loop T (dg, cur, prev) (tag <$> rest) = Ok st
      ∧ ∀ a, a ∈ ranking_sorted T →
             dict_get (tag a) st.1.1 = Some (rank_depends T (ranking a)).
Proof.
  induction rest as [|a rest IH]; intros pre dg cur prev Hsl Hdg Hlast.
  - simpl. eexists. split; [reflexivity|]. simpl.
    rewrite Hsl, app_nil_r. exact Hdg.
  - assert (a ∈ ranking_sorted T) as Ha.
    { rewrite Hsl. apply elem_of_app. right. apply list_elem_of_here. }
    pose proof ranking_sorted_StronglySorted as Hsorted.
    rewrite Hsl in Hsorted.
    assert (∀ x, x ∈ a :: rest → ranking a ≤ ranking x) as Hge.
    { intros x Hx. apply StronglySorted_app_1_r in Hsorted.
      apply StronglySorted_inv in Hsorted as [_ Hall].
      apply elem_of_cons in Hx as [->|Hx]; [lia|].
      rewrite Forall_forall in Hall. specialize (Hall x Hx).
      by apply Z.leb_le in Hall. }
    assert (∀ x, x ∈ pre → ranking x ≤ ranking a) as Hle.
    { intros x Hx. apply Z.leb_le.
      apply (StronglySorted_app_1_elem_of _ _ _ x a Hsorted Hx).
      apply list_elem_of_here. }
    assert (∃ cur',
      ranking_step T (dg, cur, prev) (tag a)
      = Ok (dict_set (tag a) cur' dg, cur', Some (ranking a))
      ∧ cur' = rank_depends T (ranking a)) as (cur' & Hstep & Hcur').
    { unfold ranking_step. rewrite (tag_to_rank_lookup a Ha). simpl.
      destruct (last pre) as [z|] eqn:Hz.
      - destruct Hlast as [-> ->].
        assert (z ∈ pre) as Hzpre.
        { apply last_Some in Hz as [l' ->]. apply elem_of_app. right.
          apply list_elem_of_here. }
        assert (z ∈ ranking_sorted T) as Hzsl.
        { rewrite Hsl. apply elem_of_app. by left. }
        destruct (decide (ranking a ≠ ranking z)) as [Hne|Heq].
        + rewrite (lines_of_rank_lookup z Hzsl). simpl.
          eexists. split; [reflexivity|].
          unfold rank_depends.
          rewrite (prev_distinct_rank_is _ _ (ranking z)); [done| | |].
          * apply rank_elem_sorted. by apply list_elem_of_fmap_2.
          * specialize (Hle z Hzpre). lia.
          * intros x Hx Hxa. apply rank_elem_sorted in Hx.
            apply list_elem_of_fmap in Hx as (b & -> & Hb).
            rewrite Hsl in Hb. apply elem_of_app in Hb as [Hb|Hb].
            -- apply last_Some in Hz as [l' ->].
               apply elem_of_app in Hb as [Hb|Hb].
               ++ apply StronglySorted_app_1_l in Hsorted.
                  apply Z.leb_le.
                  apply (StronglySorted_app_1_elem_of _ _ _ b z Hsorted Hb).
                  apply list_elem_of_here.
               ++ apply list_elem_of_singleton in Hb as ->. lia.
            -- specialize (Hge b Hb). lia.
        + apply dec_stable in Heq. simpl.
          eexists. split; [reflexivity|]. by rewrite Heq.
      - destruct Hlast as [-> ->]. simpl.
        eexists. split; [reflexivity|].
        unfold rank_depends. rewrite prev_distinct_rank_none; [done|].
        intros x Hx. apply rank_elem_sorted in Hx.
        apply list_elem_of_fmap in Hx as (b & -> & Hb).
        apply last_None in Hz. subst pre. simpl in Hsl.
        rewrite Hsl in Hb. by apply Hge. }
    rewrite fmap_cons.
    change (ranking_loop T (dg, cur, prev) (tag a :: (tag <$> rest)))
      with (ranking_step T (dg, cur, prev) (tag a)
            ≫= λ st', ranking_loop T st' (tag <$> rest)).
    rewrite Hstep.
    change (Ok (dict_set (tag a) cur' dg, cur', Some (ranking a))
            ≫= λ st', ranking_loop T st' (tag <$> rest))
      with (ranking_loop T (dict_set (tag a) cur' dg, cur', Some (ranking a))
                         (tag <$> rest)).
    apply (IH (pre ++ [a])).
    + by rewrite <- app_assoc.
    + intros b Hb. apply elem_of_app in Hb as [Hb|Hb].
      * rewrite dict_get_set_ne; [by apply Hdg|].
        intros Heq.
        assert (a = b) as <-.
        { apply (NoDup_fmap_inj_on tag (ranking_sorted T));
            [apply ranking_sorted_tags_NoDup|done| |done].
          rewrite Hsl. apply elem_of_app. by left. }
        pose proof ranking_sorted_tags_NoDup as Hnd.
        rewrite Hsl, fmap_app, fmap_cons in Hnd.
        apply NoDup_app in Hnd as (_ & Hdisj & _).
        apply (Hdisj (tag a)); [by apply list_elem_of_fmap_2|].
        apply list_elem_of_here.
      * apply list_elem_of_singleton in Hb as ->.
        rewrite dict_get_set_eq. by rewrite Hcur'.
    + rewrite last_snoc. by rewrite Hcur'.
Qed.

Lemma ranking_depends_graph_spec :
  ∃ dg,
    ranking_depends_graph T = Ok dg
    ∧ ∀ a, a ∈ T → dict_get (tag a) dg = Some (rank_depends T (ranking a)).
Proof.
  destruct (ranking_loop_spec (ranking_sorted T) [] [] [] None)
    as (st & Hst & Hget); [done| |done|].
  { intros a Ha. by apply elem_of_nil in Ha. }
  unfold ranking_depends_graph, ranking_true_answer.
  exists st.1.1. split.
  { exact (f_equal (λ r, r ≫= λ st0, Ok st0.1.1) Hst). }
  intros a Ha. apply Hget. by rewrite ranking_sorted_Permutation.
Qed.
End ranking_facts.

(** C4: under [RANKING], given correct fragments with distinct tags, the
    graph is built without an error and gives every fragment the tags of
    the fragments whose rank is the previous distinct rank, the fragments
    being listed in ascending order of rank; a fragment of the lowest rank
    gets the empty list, and fragments of the same rank do not depend on
    each other. *)
Theorem C4_ranking_depends_graph (T : list OrderBlocksAnswerData) :
  NoDup (tag <$> T) →
  ∃ dg,
    ranking_depends_graph T = Ok dg
    ∧ ∀ a, a ∈ T →
        dict_get (tag a) dg
        = Some (match prev_distinct_rank (ranking <$> T) (ranking a) with
                | Some p => tags_of_rank T p
                | None => []
                end)
        ∧ ((∀ b, b ∈ T → ranking a ≤ ranking b) →
           dict_get (tag a) dg = Some [])
        ∧ (∀ b deps, b ∈ T → ranking b = ranking a →
             dict_get (tag a) dg = Some deps → tag b ∉ deps).
Proof.
  intros Hnd.
  destruct (ranking_depends_graph_spec T Hnd) as (dg & Hdg & Hget).
  exists dg. split; [done|]. intros a Ha.
  specialize (Hget a Ha). unfold rank_depends in Hget.
  split; [done|]. split.
  - intros Hmin. rewrite Hget. rewrite prev_distinct_rank_none; [done|].
    intros x Hx. apply list_elem_of_fmap in Hx as (b & -> & Hb). by apply Hmin.
  - intros b deps Hb Hrank Hdeps. rewrite Hget in Hdeps.
    injection Hdeps as <-.
    pose proof (prev_distinct_rank_spec (ranking <$> T) (ranking a)) as Hs.
    destruct (prev_distinct_rank (ranking <$> T) (ranking a)) as [p|];
      [|apply not_elem_of_nil].
    destruct Hs as (_ & Hp & _). unfold tags_of_rank. intros Hin.
    apply list_elem_of_fmap in Hin as (c & Htag & Hc).
    apply list_elem_of_filter in Hc as [Hcp Hc].
    apply sorted_elem_of in Hc.
    assert (b = c) as ->
      by (by apply (NoDup_fmap_inj_on tag T)).
    lia.
Qed.

Lemma C4_ranking_depends_graph_witness :
  ∃ dg,
    ranking_depends_graph [Examples.b; Examples.a; Examples.c] = Ok dg
    ∧ dict_get "B" dg = Some ["A"]
    ∧ dict_get "A" dg = Some [].
Proof.
  destruct (C4_ranking_depends_graph [Examples.b; Examples.a; Examples.c])
    as (dg & Hdg & Hget).
  - refine (bool_decide_unpack _ _). vm_compute. exact I.
  - exists dg. split; [exact Hdg|]. split.
    + destruct (Hget Examples.b) as (Hb & _).
      * apply list_elem_of_here.
      * exact Hb.
    + destruct (Hget Examples.a) as (Ha & _).
      * apply list_elem_of_further, list_elem_of_here.
      * exact Ha.
Defined.

(** ** The tags that [prepare] checks *)

Lemma tags_fresh_nil st st' :
  st_used_tags st ⊆ st_used_tags st' → tags_fresh st st' [].
Proof.
  intros Hs. split; [done|]. split; [constructor|]. intros t Ht.
  by apply elem_of_nil in Ht.
Qed.

Lemma tags_fresh_app st st1 st2 ts1 ts2 :
  tags_fresh st st1 ts1 → tags_fresh st1 st2 ts2 →
  tags_fresh st st2 (ts1 ++ ts2).
Proof.
  intros (Hs1 & Hn1 & Hf1) (Hs2 & Hn2 & Hf2). split; [|split].
  - by transitivity (st_used_tags st1).
  - apply NoDup_app. split; [done|]. split; [|done].
    intros t Ht1 Ht2. destruct (Hf1 t Ht1) as [_ Hin].
    destruct (Hf2 t Ht2) as [Hnot _]. done.
  - intros t Ht. apply elem_of_app in Ht as [Ht|Ht].
    + destruct (Hf1 t Ht) as [Hnot Hin]. split; [done|]. by apply Hs2.
    + destruct (Hf2 t Ht) as [Hnot Hin]. split; [|done].
      intros Hin'. apply Hnot. by apply Hs1.
Qed.

Section prepare_tag_facts.
Variable grading_method : GradingMethodType.
Variable check_indentation : bool.
Variable format : FormatType.
Variable code_language : option string.

Lemma prepare_tag_tags_fresh n idx gi st st' :
  prepare_tag grading_method check_indentation format code_language
              n idx gi st = Ok st' →
  tags_fresh st st' (answer_checked_tags n).
Proof.
  unfold prepare_tag. intros H.
  destruct (decide (h_name n ≠ TagName "pl-answer")); [done|].
  apply bind_Ok in H as (_ & _ & H).
  destruct (bool_decide (at_distractor_for (h_attrs n) ≠ None)
            && default PL_ANSWER_CORRECT_DEFAULT (at_correct (h_attrs n)));
    [done|].
  unfold get_graph_info in H. unfold answer_checked_tags, declared_tag.
  destruct (default PL_ANSWER_CORRECT_DEFAULT (at_correct (h_attrs n)))
    eqn:Hcorrect; simpl in H.
  - destruct (bool_decide
                (strip (default (get_uuid (st_uuids st)) (at_tag (h_attrs n)))
                 ∈ st_used_tags st)) eqn:Hused; [done|].
    apply bool_decide_eq_false in Hused.
    destruct (negb check_indentation
              && bool_decide (at_indent (h_attrs n) ≠ None)); [done|].
    injection H as <-. split; [|split]; simpl.
    + apply union_subseteq_r.
    + destruct (at_tag (h_attrs n)); [apply NoDup_singleton|constructor].
    + intros t Ht. destruct (at_tag (h_attrs n)) as [t'|]; simpl in *.
      * apply list_elem_of_singleton in Ht as ->. split; [done|].
        apply elem_of_union. left. by apply elem_of_singleton.
      * by apply elem_of_nil in Ht.
  - destruct (negb check_indentation
              && bool_decide (at_indent (h_attrs n) ≠ None)); [done|].
    injection H as <-. by apply tags_fresh_nil.
Qed.

Lemma prepare_group_tags_fresh grouped gi st idx st' idx' :
  prepare_group grading_method check_indentation format code_language
                grouped gi st idx = Ok (st', idx') →
  tags_fresh st st' (grouped ≫= answer_checked_tags).
Proof.
  revert st idx. induction grouped as [|n grouped IH]; intros st idx H.
  - injection H as <- _. by apply tags_fresh_nil.
  - simpl in H. apply bind_Ok in H as (st1 & H1 & H).
    apply prepare_tag_tags_fresh in H1. apply IH in H.
    by apply (tags_fresh_app st st1 st').
Qed.

Lemma prepare_child_tags_fresh c st idx st' idx' :
  prepare_child grading_method check_indentation format code_language
                c st idx = Ok (st', idx') →
  tags_fresh st st' (child_checked_tags c).
Proof.
  unfold prepare_child, child_checked_tags. intros H.
  destruct (decide (h_name (c_node c) = CommentNode)).
  { injection H as <- _. by apply tags_fresh_nil. }
  destruct (decide (h_name (c_node c) = TagName "pl-block-group")).
  - destruct (decide (grading_method ≠ DAG)); [done|].
    unfold get_graph_info in H.
    destruct (decide (strip (default (get_uuid (st_uuids st))
                               (at_tag (h_attrs (c_node c))))
                      ∈ st_used_tags st)) as [|Hnew]; [done|].
    apply prepare_group_tags_fresh in H.
    eapply tags_fresh_app; [|exact H].
    unfold declared_tag. split; [|split]; simpl.
    + apply union_subseteq_r.
    + destruct (at_tag _); [apply NoDup_singleton|constructor].
    + intros t Ht. destruct (at_tag (h_attrs (c_node c))) as [t'|]; simpl in *.
      * apply list_elem_of_singleton in Ht as ->. split; [done|].
        apply elem_of_union. left. by apply elem_of_singleton.
      * by apply elem_of_nil in Ht.
  - apply bind_Ok in H as (st1 & H1 & H). injection H as <- _.
    by apply prepare_tag_tags_fresh in H1.
Qed.

Lemma prepare_children_tags_fresh children st idx st' idx' :
  prepare_children grading_method check_indentation format code_language
                   children st idx = Ok (st', idx') →
  tags_fresh st st' (children ≫= child_checked_tags).
Proof.
  revert st idx. induction children as [|c children IH]; intros st idx H.
  - injection H as <- _. by apply tags_fresh_nil.
  - simpl in H. apply bind_Ok in H as ([st1 idx1] & H1 & H).
    apply prepare_child_tags_fresh in H1. apply IH in H.
    by apply (tags_fresh_app st st1 st').
Qed.
End prepare_tag_facts.

(** ** Preparation *)

Lemma subscript_Ok {A} (o : option A) (a : A) :
  subscript o = Ok a → o = Some a.
Proof. destruct o; [by intros [= ->]|done]. Qed.

Section prepare_facts.
Variable grade_dag :
  list (option string) → depends_graph_t → group_belonging_t →
  result (nat * nat).
Variable lcs_partial_credit :
  list (option string) → depends_graph_t → group_belonging_t → result nat.
Variable solve_dag :
  depends_graph_t → group_belonging_t → result (list string).
Variable random : Random.

(** What a preparation that completes has gone through. *)
Lemma prepare_Ok_inv element data data' :
  prepare grade_dag lcs_partial_credit solve_dag random element data
  = Ok data' →
  let method := default GRADING_METHOD_DEFAULT (grading_method element) in
  let name := answers_name element in
  ∃ st idx all_blocks bins n,
    prepare_checks element = Ok ()
    ∧ prepare_children method
        (default INDENTION_DEFAULT (indentation element))
        (default FMT_DEFAULT (format element)) (code_language element)
        (el_children element)
        {| st_uuids := 0; st_used_tags := ∅;
           st_correct_answers := []; st_incorrect_answers := [] |} 0%nat
      = Ok (st, idx)
    ∧ (method ≠ EXTERNAL → st_correct_answers st ≠ [])
    ∧ prepare_blocks random element (st_correct_answers st)
                     (st_incorrect_answers st) = Ok all_blocks
    ∧ incorrect_tags all_blocks ⊆ correct_tags all_blocks
    ∧ assign_bins all_blocks (st_uuids st) = (bins, n)
    ∧ params data' = <[name := with_bin bins <$> all_blocks]> (params data)
    ∧ ∃ graded partial_score,
        grade grade_dag lcs_partial_credit element
          {| params := <[name := with_bin bins <$> all_blocks]> (params data);
             correct_answers :=
               <[name := with_bin bins <$> st_correct_answers st]>
                 (correct_answers data);
             submitted_answers :=
               {[ name := as_submitted
                          <$> (with_bin bins <$> st_correct_answers st) ]};
             partial_scores := ∅ |} = Ok graded
        ∧ partial_scores graded !! name = Some partial_score
        ∧ ((Qeq_bool (score partial_score) 1 = true
            ∧ correct_answers data'
              = <[name := with_bin bins <$> st_correct_answers st]>
                  (correct_answers data))
           ∨ (Qeq_bool (score partial_score) 1 = false
              ∧ ∃ solution,
                  solve_problem solve_dag
                    (with_bin bins <$> st_correct_answers st) method
                  = Ok solution
                  ∧ correct_answers data'
                    = <[name := solution]>
                        (<[name := with_bin bins <$> st_correct_answers st]>
                           (correct_answers data)))).
Proof.
  intros H. unfold prepare in H. cbv zeta.
  apply bind_Ok in H as ([] & Hchecks & H).
  apply bind_Ok in H as ([st idx] & Hchildren & H).
  destruct (bool_decide (default GRADING_METHOD_DEFAULT
                           (grading_method element) ≠ EXTERNAL)
            && bool_decide (length (st_correct_answers st) = 0%nat))
    eqn:Hnone; [done|].
  apply bind_Ok in H as (all_blocks & Hblocks & H).
  destruct (decide (incorrect_tags all_blocks ⊆ correct_tags all_blocks))
    as [Hsub|]; [|done].
  destruct (assign_bins all_blocks (st_uuids st)) as [bins n] eqn:Hbins.
  apply bind_Ok in H as (graded & Hgraded & H).
  apply bind_Ok in H as (ps & Hps & H).
  apply subscript_Ok in Hps.
  exists st, idx, all_blocks, bins, n.
  split; [done|]. split; [done|]. split.
  { intros Hm Hnil. apply andb_false_iff in Hnone as [Hn|Hn].
    - by apply bool_decide_eq_false in Hn.
    - apply bool_decide_eq_false in Hn. apply Hn. by rewrite Hnil. }
  split; [done|]. split; [done|]. split; [done|].
  destruct (Qeq_bool (score ps) 1) eqn:Hscore.
  - injection H as <-. split; [done|].
    exists graded, ps. split; [done|]. split; [done|]. left.
    split; [exact Hscore|reflexivity].
  - apply bind_Ok in H as (solution & Hsol & H). injection H as <-.
    split; [done|].
    exists graded, ps. split; [done|]. split; [done|]. right.
    split; [exact Hscore|]. exists solution. split; [done|reflexivity].
Qed.

Lemma is_Raise_not_Ok {A} (r : result A) : (∀ a, r ≠ Ok a) → is_Raise r.
Proof. destruct r as [a|e]; [intros H; by destruct (H a)|by exists e]. Qed.

Lemma prepare_Ok_checked_tags element data data' :
  prepare grade_dag lcs_partial_credit solve_dag random element data
  = Ok data' →
  NoDup (checked_tags element).
Proof.
  intros H. apply prepare_Ok_inv in H as (st & idx & _ & _ & _ & _ & H & _).
  apply prepare_children_tags_fresh in H as (_ & Hnd & _). exact Hnd.
Qed.

Lemma prepare_Ok_distractors_resolve element data data' all_blocks b d :
  prepare grade_dag lcs_partial_credit solve_dag random element data
  = Ok data' →
  sampled_blocks random element = Ok all_blocks →
  b ∈ all_blocks → distractor_for b = Some d → d ≠ EmptyString →
  d ∈ tag <$> all_blocks.
Proof.
  intros H Hs Hb Hd Hne.
  apply prepare_Ok_inv in H
    as (st & idx & blocks & _ & _ & _ & Hch & _ & Hbl & Hsub & _).
  unfold sampled_blocks in Hs. rewrite Hch in Hs. simpl in Hs.
  rewrite Hbl in Hs. injection Hs as ->.
  assert (d ∈ incorrect_tags all_blocks) as Hin.
  { unfold incorrect_tags. apply elem_of_list_to_set.
    apply list_elem_of_omap. exists b. split; [done|].
    rewrite Hd. by rewrite decide_False. }
  apply Hsub in Hin. unfold correct_tags in Hin.
  by apply elem_of_list_to_set in Hin.
Qed.

(** C9 (as amended): preparation aborts with an error, and yields no
    instance data, whenever two of the nodes whose tags it records (the
    block groups and the correct answers) declare the same tag, and
    whenever a block kept in the instance refers, by a [distractor-for]
    that is not empty, to a tag that no block kept in the instance has. *)
Theorem C9_prepare_aborts (element : Element) (data : QuestionData) :
  ¬ NoDup (checked_tags element)
  ∨ (∃ all_blocks b d,
       sampled_blocks random element = Ok all_blocks
       ∧ b ∈ all_blocks
       ∧ distractor_for b = Some d
       ∧ d ≠ EmptyString
       ∧ d ∉ tag <$> all_blocks) →
  is_Raise (prepare grade_dag lcs_partial_credit solve_dag random
                    element data).
Proof.
  intros Hbad. apply is_Raise_not_Ok. intros data' H.
  destruct Hbad as [Hdup|(all_blocks & b & d & Hs & Hb & Hd & Hne & Hnot)].
  - apply Hdup. by eapply prepare_Ok_checked_tags.
  - apply Hnot. by eapply prepare_Ok_distractors_resolve.
Qed.
End prepare_facts.

Lemma C9_prepare_aborts_witness :
  is_Raise (prepare dag_checker.grade_dag dag_checker.lcs_partial_credit
                    dag_checker.solve_dag Examples.random
                    Examples.duplicate_tags Examples.empty_data).
Proof.
  apply C9_prepare_aborts. left.
  intros Hnd. apply (bool_decide_pack _) in Hnd. vm_compute in Hnd.
  exact Hnd.
Defined.

(** C9 as stated fails for a distractor: its tag is not recorded, so a
    distractor that shares its tag with a correct answer is accepted. *)
Lemma C9_counterexample :
  ∃ data' b1 b2,
    prepare dag_checker.grade_dag dag_checker.lcs_partial_credit
            dag_checker.solve_dag Examples.random
            Examples.distractor_shares_tag Examples.empty_data
    = Ok data'
    ∧ params data' !! "order" = Some [b1; b2]
    ∧ tag b1 = tag b2
    ∧ index b1 ≠ index b2.
Proof.
  eexists _, _, _. split; [vm_compute; reflexivity|].
  split; [vm_compute; reflexivity|]. split; [reflexivity|discriminate].
Qed.

(** ** Well-formed correct answers *)

Lemma wf_answers_Permutation l l' : l ≡ₚ l' → wf_answers l → wf_answers l'.
Proof.
  intros Hp (Ht & Hu & Hg & Hc). split; [|split; [|split]].
  - by rewrite <- Hp.
  - by rewrite <- Hp.
  - intros a g Ha. rewrite <- Hp in Ha |- *. by apply Hg.
  - intros a b g Ha Hb. rewrite <- Hp in Ha, Hb. by apply Hc.
Qed.

Lemma with_bin_tag bins a : tag (with_bin bins a) = tag a.
Proof. unfold with_bin. by destruct (bins !! index a). Qed.
Lemma with_bin_uuid bins a : uuid (with_bin bins a) = uuid a.
Proof. unfold with_bin. by destruct (bins !! index a). Qed.
Lemma with_bin_group_info bins a :
  group_info (with_bin bins a) = group_info a.
Proof. unfold with_bin. by destruct (bins !! index a). Qed.

Lemma wf_answers_with_bin bins l :
  wf_answers l → wf_answers (with_bin bins <$> l).
Proof.
  intros (Ht & Hu & Hg & Hc).
  assert (tag <$> (with_bin bins <$> l) = tag <$> l) as Htags.
  { rewrite <- list_fmap_compose. apply list_fmap_ext.
    intros i x _. apply with_bin_tag. }
  assert (uuid <$> (with_bin bins <$> l) = uuid <$> l) as Huuids.
  { rewrite <- list_fmap_compose. apply list_fmap_ext.
    intros i x _. apply with_bin_uuid. }
  split; [by rewrite Htags|]. split; [by rewrite Huuids|]. split.
  - intros a g Ha Hga. rewrite Htags.
    apply list_elem_of_fmap in Ha as (a0 & -> & Ha0).
    rewrite with_bin_group_info in Hga. by apply (Hg a0).
  - intros a b g Ha Hb Hga Hgb.
    apply list_elem_of_fmap in Ha as (a0 & -> & Ha0).
    apply list_elem_of_fmap in Hb as (b0 & -> & Hb0).
    rewrite !with_bin_group_info in *. by apply (Hc a0 b0 g).
Qed.

Lemma get_uuid_inj : Inj (=) (=) get_uuid.
Proof.
  intros m n H. unfold get_uuid in H. simpl in H.
  injection H as H. change (pretty m = pretty n) in H.
  by apply pretty_nat_inj in H.
Qed.

Section prepare_wf.
Variable grading_method : GradingMethodType.
Variable check_indentation : bool.
Variable format : FormatType.
Variable code_language : option string.

Lemma prepare_tag_wf n idx gi st st' :
  prepare_tag grading_method check_indentation format code_language
              n idx gi st = Ok st' →
  wf_state st → group_fits gi st →
  wf_state st' ∧ group_fits gi st'.
Proof.
  unfold prepare_tag. intros H Hwf Hfit.
  destruct (decide (h_name n ≠ TagName "pl-answer")); [done|].
  apply bind_Ok in H as (_ & _ & H).
  destruct (bool_decide (at_distractor_for (h_attrs n) ≠ None)
            && default PL_ANSWER_CORRECT_DEFAULT (at_correct (h_attrs n)));
    [done|].
  unfold get_graph_info in H.
  set (t := strip (default (get_uuid (st_uuids st)) (at_tag (h_attrs n))))
    in *.
  destruct Hwf as ((Ht & Hu & Hg & Hc) & Hused & Hgused & Huuid).
  destruct (default PL_ANSWER_CORRECT_DEFAULT (at_correct (h_attrs n)));
    simpl in H.
  - destruct (bool_decide (t ∈ st_used_tags st)) eqn:Hnew; [done|].
    apply bool_decide_eq_false in Hnew.
    destruct (negb check_indentation
              && bool_decide (at_indent (h_attrs n) ≠ None)); [done|].
    injection H as <-. simpl.
    set (a := {| inner_html := _; uuid := get_uuid (S (st_uuids st)) |}).
    assert (t ∉ tag <$> st_correct_answers st) as Htnew.
    { intros Hin. apply list_elem_of_fmap in Hin as (b & Hb & Hbin).
      apply Hnew. rewrite Hb. by apply Hused. }
    unfold wf_state, wf_answers, group_fits. simpl.
    split; [split; [split; [|split; [|split]]|split; [|split]]|].
    + rewrite fmap_app. apply NoDup_app. split; [done|]. split.
      * intros x Hx Hx'. apply list_elem_of_singleton in Hx'. by subst x.
      * apply NoDup_singleton.
    + rewrite fmap_app. apply NoDup_app. split; [done|]. split.
      * intros x Hx Hx'. apply list_elem_of_singleton in Hx'. simpl in Hx'.
        subst x. apply list_elem_of_fmap in Hx as (b & Hb & Hbin).
        destruct (Huuid b Hbin) as (k & Hk & Hbk). rewrite Hbk in Hb.
        apply get_uuid_inj in Hb. lia.
      * apply NoDup_singleton.
    + intros b g Hb Hgb. rewrite fmap_app. simpl.
      assert (g ∈ st_used_tags st ∧ g ∉ tag <$> st_correct_answers st)
        as [Hgu Hgt].
      { apply elem_of_app in Hb as [Hb|Hb].
        - split; [by apply (Hgused b)|by apply (Hg b)].
        - apply list_elem_of_singleton in Hb as ->. simpl in Hgb.
          destruct (Hfit g Hgb) as (? & ? & _). done. }
      intros Hin. apply elem_of_app in Hin as [Hin|Hin]; [done|].
      apply list_elem_of_singleton in Hin. by subst g.
    + intros b1 b2 g Hb1 Hb2 Hg1 Hg2.
      apply elem_of_app in Hb1 as [Hb1|Hb1];
        apply elem_of_app in Hb2 as [Hb2|Hb2].
      * by apply (Hc b1 b2 g).
      * apply list_elem_of_singleton in Hb2 as ->. simpl in *.
        destruct (Hfit g Hg2) as (_ & _ & Hsame). by apply Hsame.
      * apply list_elem_of_singleton in Hb1 as ->. simpl in *.
        destruct (Hfit g Hg1) as (_ & _ & Hsame). symmetry. by apply Hsame.
      * apply list_elem_of_singleton in Hb1 as ->.
        by apply list_elem_of_singleton in Hb2 as ->.
    + intros b Hb. apply elem_of_app in Hb as [Hb|Hb].
      * apply elem_of_union. right. by apply Hused.
      * apply list_elem_of_singleton in Hb as ->. simpl.
        apply elem_of_union. left. by apply elem_of_singleton.
    + intros b g Hb Hgb. apply elem_of_union. right.
      apply elem_of_app in Hb as [Hb|Hb]; [by apply (Hgused b)|].
      apply list_elem_of_singleton in Hb as ->. simpl in Hgb.
      by destruct (Hfit g Hgb) as (? & _).
    + intros b Hb. apply elem_of_app in Hb as [Hb|Hb].
      * destruct (Huuid b Hb) as (k & Hk & Hbk). exists k. split; [lia|done].
      * apply list_elem_of_singleton in Hb as ->. simpl.
        exists (S (st_uuids st)). split; [lia|done].
    + intros g Hgi. destruct (Hfit g Hgi) as (Hgu & Hgt & Hsame).
      split; [apply elem_of_union; by right|]. split.
      * rewrite fmap_app. simpl. intros Hin.
        apply elem_of_app in Hin as [Hin|Hin]; [done|].
        apply list_elem_of_singleton in Hin. by subst g.
      * intros b Hb Hgb. apply elem_of_app in Hb as [Hb|Hb];
          [by apply Hsame|].
        by apply list_elem_of_singleton in Hb as ->.
  - destruct (negb check_indentation
              && bool_decide (at_indent (h_attrs n) ≠ None)); [done|].
    injection H as <-. unfold wf_state. simpl. split; [|done].
    split; [done|]. split; [done|]. split; [done|].
    intros b Hb. destruct (Huuid b Hb) as (k & Hk & Hbk).
    exists k. split; [lia|done].
Qed.

Lemma prepare_group_wf grouped gi st idx st' idx' :
  prepare_group grading_method check_indentation format code_language
                grouped gi st idx = Ok (st', idx') →
  wf_state st → group_fits gi st → wf_state st'.
Proof.
  revert st idx. induction grouped as [|n grouped IH]; intros st idx H Hwf Hfit.
  - by injection H as <- _.
  - simpl in H. apply bind_Ok in H as (st1 & H1 & H).
    destruct (prepare_tag_wf _ _ _ _ _ H1 Hwf Hfit) as [Hwf1 Hfit1].
    by apply (IH st1 (S idx)).
Qed.

Lemma prepare_child_wf c st idx st' idx' :
  prepare_child grading_method check_indentation format code_language
                c st idx = Ok (st', idx') →
  wf_state st → wf_state st'.
Proof.
  unfold prepare_child. intros H Hwf.
  destruct (decide (h_name (c_node c) = CommentNode)).
  { by injection H as <- _. }
  destruct (decide (h_name (c_node c) = TagName "pl-block-group")).
  - destruct (decide (grading_method ≠ DAG)); [done|].
    unfold get_graph_info in H.
    set (g := strip (default (get_uuid (st_uuids st))
                       (at_tag (h_attrs (c_node c))))) in *.
    destruct (decide (g ∈ st_used_tags st)) as [|Hnew]; [done|].
    destruct Hwf as (Hans & Hused & Hgused & Huuid).
    apply prepare_group_wf in H; [done| |].
    + unfold wf_state. simpl. split; [done|]. split; [|split].
      * intros a Ha. apply elem_of_union. right. by apply Hused.
      * intros a g' Ha Hg'. apply elem_of_union. right. by apply (Hgused a).
      * intros a Ha. destruct (Huuid a Ha) as (k & Hk & Hak).
        exists k. split; [lia|done].
    + unfold group_fits. simpl. intros g' [= <-]. split; [|split].
      * apply elem_of_union. left. by apply elem_of_singleton.
      * intros Hin. apply list_elem_of_fmap in Hin as (b & Hb & Hbin).
        apply Hnew. rewrite Hb. by apply Hused.
      * intros b Hb Hgb. exfalso. apply Hnew. by apply (Hgused b).
  - apply bind_Ok in H as (st1 & H1 & H). injection H as <- _.
    apply (prepare_tag_wf _ _ _ _ _ H1 Hwf). by intros g.
Qed.

Lemma prepare_children_wf children st idx st' idx' :
  prepare_children grading_method check_indentation format code_language
                   children st idx = Ok (st', idx') →
  wf_state st → wf_state st'.
Proof.
  revert st idx. induction children as [|c children IH]; intros st idx H Hwf.
  - by injection H as <- _.
  - simpl in H. apply bind_Ok in H as ([st1 idx1] & H1 & H).
    apply prepare_child_wf in H1; [|done]. by apply (IH st1 idx1).
Qed.
End prepare_wf.

Lemma wf_state_init :
  wf_state {| st_uuids := 0; st_used_tags := ∅;
              st_correct_answers := []; st_incorrect_answers := [] |}.
Proof.
  split; [|split; [|split]]; simpl.
  - split; [constructor|]. split; [constructor|].
    split; intros; by match goal with H : _ ∈ [] |- _ =>
                         apply elem_of_nil in H end.
  - intros a Ha. by apply elem_of_nil in Ha.
  - intros a g Ha. by apply elem_of_nil in Ha.
  - intros a Ha. by apply elem_of_nil in Ha.
Qed.

(** ** Grading a list of correct answers against itself *)

Lemma as_submitted_uuids (T : list OrderBlocksAnswerData) :
  s_uuid <$> (as_submitted <$> T) = uuid <$> T.
Proof. by rewrite <- list_fmap_compose. Qed.

Lemma as_submitted_contents (T : list OrderBlocksAnswerData) :
  s_inner_html <$> (as_submitted <$> T) = contents T.
Proof. unfold contents. by rewrite <- list_fmap_compose. Qed.

Lemma as_submitted_tags (T : list OrderBlocksAnswerData) :
  mapM (λ ans, subscript (s_tag ans)) (as_submitted <$> T)
  = Ok (Some <$> (tag <$> T)).
Proof.
  induction T as [|a T IH]; [done|].
  rewrite !fmap_cons. simpl. by rewrite IH.
Qed.

Section self_grading.
Variable grade_dag :
  list (option string) → depends_graph_t → group_belonging_t →
  result (nat * nat).
Variable lcs_partial_credit :
  list (option string) → depends_graph_t → group_belonging_t → result nat.

Lemma grade_score element data graded T sub partial_score :
  grade grade_dag lcs_partial_credit element data = Ok graded →
  correct_answers data !! answers_name element = Some T →
  submitted_answers data !! answers_name element = Some sub →
  partial_scores graded !! answers_name element = Some partial_score →
  ∃ g,
    grade_locals grade_dag lcs_partial_credit element T sub = Ok g
    ∧ score partial_score = round2 (g_final_score g).
Proof.
  unfold grade. intros H HT Hsub Hps. rewrite Hsub, HT in H. simpl in H.
  apply bind_Ok in H as (g & Hg & H). injection H as <-. simpl in Hps.
  rewrite lookup_insert_eq in Hps. injection Hps as <-.
  by exists g.
Qed.

Lemma self_score_locals element stored g :
  grade_locals grade_dag lcs_partial_credit element stored
               (as_submitted <$> stored) = Ok g →
  self_score grade_dag lcs_partial_credit element stored
  = Ok (round2 (g_final_score g)).
Proof.
  intros Hg. unfold self_score, grade. simpl.
  rewrite !lookup_singleton_eq. simpl. rewrite Hg. simpl.
  by rewrite lookup_insert_eq.
Qed.

Lemma grade_unordered_self (T : list OrderBlocksAnswerData) :
  T ≠ [] → NoDup (uuid <$> T) →
  ∃ q, grade_unordered T (as_submitted <$> T) = Ok q ∧ (q == 1)%Q.
Proof.
  intros Hne Hnd. unfold grade_unordered. rewrite as_submitted_uuids.
  set (correct := list_to_set (uuid <$> T) : gset string).
  assert (correct ∩ correct = correct) as ->.
  { apply leibniz_equiv. intros x. rewrite elem_of_intersection. tauto. }
  assert (size correct = length T) as ->.
  { unfold correct. rewrite (size_list_to_set (C := gset string)) by done.
    apply length_fmap. }
  rewrite length_fmap. unfold float_div.
  assert (Z.of_nat (length T) ≠ 0) as Hlen by (destruct T; [done|simpl; lia]).
  destruct (decide (Z.of_nat (length T) = 0)) as [?|_]; [done|]. simpl.
  eexists. split; [reflexivity|].
  apply pymax_zero_one. apply Qdiv_inject_one; [done|]. lia.
Qed.

Lemma grade_ordered_self (T : list OrderBlocksAnswerData) :
  grade_ordered T (as_submitted <$> T) = 1%Q.
Proof.
  unfold grade_ordered. rewrite as_submitted_contents. unfold contents.
  by rewrite decide_True.
Qed.

Lemma grade_locals_self_unordered element T :
  default GRADING_METHOD_DEFAULT (grading_method element) = UNORDERED →
  T ≠ [] → NoDup (uuid <$> T) →
  ∃ g, grade_locals grade_dag lcs_partial_credit element T
                    (as_submitted <$> T) = Ok g
       ∧ (g_final_score g == 1)%Q.
Proof.
  intros Hm Hne Hnd. unfold grade_locals. rewrite Hm.
  rewrite indentation_gate_self by done.
  destruct (grade_unordered_self T Hne Hnd) as (q & -> & Hq). simpl.
  eexists. split; [reflexivity|]. done.
Qed.

Lemma grade_locals_self_ordered element T :
  default GRADING_METHOD_DEFAULT (grading_method element) = ORDERED →
  NoDup (uuid <$> T) →
  ∃ g, grade_locals grade_dag lcs_partial_credit element T
                    (as_submitted <$> T) = Ok g
       ∧ (g_final_score g == 1)%Q.
Proof.
  intros Hm Hnd. unfold grade_locals. rewrite Hm.
  rewrite indentation_gate_self by done. rewrite grade_ordered_self.
  eexists. split; [reflexivity|]. done.
Qed.

(** The branch for the graph methods, when [grade_dag] accepts the whole
    submission, the submission has the length of the true answer, and no
    edit is needed. *)
Lemma grade_locals_self_graph element T submission dg gb n :
  default GRADING_METHOD_DEFAULT (grading_method element) = RANKING
  ∨ default GRADING_METHOD_DEFAULT (grading_method element) = DAG →
  NoDup (uuid <$> T) →
  n ≠ 0%nat →
  graph_model (default GRADING_METHOD_DEFAULT (grading_method element)) T
              (as_submitted <$> T) = Ok (submission, dg, gb) →
  grade_dag submission dg gb = Ok (n, n) →
  lcs_partial_credit submission dg gb = Ok 0%nat →
  ∃ g, grade_locals grade_dag lcs_partial_credit element T
                    (as_submitted <$> T) = Ok g
       ∧ (g_final_score g == 1)%Q.
Proof.
  intros Hm Hnd Hn Hgm Hgd Hlcs.
  rewrite grade_locals_graph by done. rewrite indentation_gate_self by done.
  unfold grade_graph. rewrite Hgm. simpl. rewrite Hgd. simpl.
  destruct (default LCS (partial_credit element)); simpl.
  - rewrite decide_True by done. eexists. split; [reflexivity|]. done.
  - rewrite Hlcs. simpl. unfold float_div.
    destruct (decide (Z.of_nat n = 0)) as [?|Hz]; [lia|]. simpl.
    eexists. split; [reflexivity|]. simpl.
    apply pymax_zero_one. apply Qdiv_inject_one; [done|]. lia.
Qed.
End self_grading.

(** ** The dependency checker on a valid order *)

Lemma lcs_length_refl {A} `{EqDecision A} (l : list A) :
  dag_checker.lcs_length l l = length l.
Proof.
  induction l as [|x l IH]; [done|]. simpl.
  rewrite decide_True by done. by rewrite IH.
Qed.

Lemma edits_self (o : list string) : dag_checker.edits (Some <$> o) o = 0%nat.
Proof.
  unfold dag_checker.edits. rewrite lcs_length_refl, length_fmap. lia.
Qed.

Lemma foldr_min_zero (x : nat) (l : list nat) :
  x = 0%nat ∨ 0%nat ∈ l → foldr Nat.min x l = 0%nat.
Proof.
  induction l as [|y l IH]; simpl.
  - intros [->|H]; [done|]. by apply elem_of_nil in H.
  - intros [->|H].
    + rewrite IH by auto. lia.
    + apply elem_of_cons in H as [<-|H]; [done|]. rewrite IH by auto. lia.
Qed.

Lemma lcs_partial_credit_valid dg gb (o : list string) :
  o ∈ dag_checker.valid_orders dg gb →
  dag_checker.lcs_partial_credit (Some <$> o) dg gb = Ok 0%nat.
Proof.
  unfold dag_checker.lcs_partial_credit. intros Ho.
  destruct (dag_checker.valid_orders dg gb) as [|o1 os]; [by apply elem_of_nil in Ho|].
  f_equal. apply foldr_min_zero.
  apply elem_of_cons in Ho as [<-|Ho]; [left; apply edits_self|right].
  rewrite <- (edits_self o). by apply list_elem_of_fmap_2.
Qed.

Lemma valid_orders_elem dg gb (o : list string) :
  o ≡ₚ dag_checker.fragment_tags dg gb →
  dag_checker.prefix_valid dg gb [] (Some <$> o) = length o →
  o ∈ dag_checker.valid_orders dg gb.
Proof.
  intros Hp Hv. unfold dag_checker.valid_orders.
  apply list_elem_of_filter. split.
  - unfold dag_checker.valid_order. by apply bool_decide_eq_true.
  - by apply permutations_Permutation.
Qed.

(** ** The prefix validator without groups *)

Lemma dict_keys_set_fresh {V} (k : string) (v : V) (d : pydict string V) :
  k ∉ dict_keys d → dict_keys (dict_set k v d) = dict_keys d ++ [k].
Proof.
  intros Hk. unfold dict_keys in *. rewrite dict_set_fresh by done.
  by rewrite fmap_app.
Qed.

Lemma fragment_tags_ungrouped (dg : depends_graph_t) :
  dag_checker.fragment_tags dg [] = dict_keys dg.
Proof.
  unfold dag_checker.fragment_tags, dag_checker.group_tags. simpl.
  induction (dict_keys dg) as [|t l IH]; [done|].
  rewrite filter_cons. rewrite decide_True by apply not_elem_of_nil.
  by rewrite IH.
Qed.

Lemma forallb_elem_of {A} (f : A → bool) (l : list A) :
  forallb f l = true ↔ ∀ x, x ∈ l → f x = true.
Proof.
  rewrite forallb_forall. split; intros H x Hx; apply H.
  - by apply list_elem_of_In.
  - by apply list_elem_of_In.
Qed.

Lemma prefix_valid_cons dg gb seen (t : string) rest :
  dag_checker.prefix_valid dg gb seen (Some t :: rest)
  = if dag_checker.valid_next dg gb seen (Some t)
    then S (dag_checker.prefix_valid dg gb (t :: seen) rest) else 0%nat.
Proof. done. Qed.

Lemma prefix_valid_ungrouped (dg : depends_graph_t) (rest : list string) :
  ∀ seen,
    (∀ r1 t r2, rest = r1 ++ t :: r2 →
       t ∈ dict_keys dg
       ∧ ∀ d, d ∈ default [] (dict_get t dg) → d ∈ seen ∨ d ∈ r1) →
    dag_checker.prefix_valid dg [] seen (Some <$> rest) = length rest.
Proof.
  induction rest as [|t rest IH]; intros seen H; [done|].
  destruct (H [] t rest eq_refl) as [Hkey Hdeps].
  rewrite fmap_cons, prefix_valid_cons.
  assert (dag_checker.valid_next dg [] seen (Some t) = true) as ->.
  { unfold dag_checker.valid_next. rewrite !andb_true_iff. split; [split|].
    - apply bool_decide_eq_true. by rewrite fragment_tags_ungrouped.
    - unfold dag_checker.effective_depends, dag_checker.group_of. simpl.
      rewrite app_nil_r. apply forallb_elem_of.
      intros d Hd. unfold dag_checker.satisfied, dag_checker.group_tags.
      simpl. apply bool_decide_eq_true. destruct (Hdeps d Hd) as [?|Hnil]; [done|].
      by apply elem_of_nil in Hnil.
    - unfold dag_checker.contiguous, dag_checker.open_group.
      by destruct seen. }
  simpl. f_equal. apply IH. intros r1 t' r2 ->.
  destruct (H (t :: r1) t' r2 eq_refl) as [Hkey' Hdeps'].
  split; [done|]. intros d Hd. destruct (Hdeps' d Hd) as [?|Hin].
  - left. by apply list_elem_of_further.
  - apply elem_of_cons in Hin as [->|?]; [left; apply list_elem_of_here|].
    by right.
Qed.

(** ** The sorted answers under [RANKING] *)

Lemma ranking_step_graph T st t st' :
  ranking_step T st t = Ok st' → ∃ v, st'.1.1 = dict_set t v st.1.1.
Proof.
  destruct st as [[dg cur] prev]. unfold ranking_step. intros H.
  apply bind_Ok in H as (rank & _ & H).
  apply bind_Ok in H as (cur' & _ & H). injection H as <-. by exists cur'.
Qed.

Lemma ranking_loop_keys T ts :
  ∀ st st',
    ranking_loop T st ts = Ok st' →
    NoDup (dict_keys st.1.1 ++ ts) →
    dict_keys st'.1.1 = dict_keys st.1.1 ++ ts.
Proof.
  induction ts as [|t ts IH]; intros st st' H Hnd.
  - injection H as <-. by rewrite app_nil_r.
  - simpl in H. apply bind_Ok in H as (st1 & H1 & H).
    apply ranking_step_graph in H1 as (v & Hst1).
    assert (t ∉ dict_keys st.1.1) as Ht.
    { apply NoDup_app in Hnd as (_ & Hd & _). intros Hin.
      apply (Hd t Hin). apply list_elem_of_here. }
    apply IH in H.
    + rewrite H, Hst1, dict_keys_set_fresh by done. by rewrite <- app_assoc.
    + rewrite Hst1, dict_keys_set_fresh by done. by rewrite <- app_assoc.
Qed.

Lemma ranking_depends_graph_keys T dg :
  NoDup (tag <$> T) →
  ranking_depends_graph T = Ok dg →
  dict_keys dg = tag <$> ranking_sorted T.
Proof.
  intros Hnd H. unfold ranking_depends_graph in H.
  apply bind_Ok in H as (st & Hst & H). injection H as <-.
  apply ranking_loop_keys in Hst; [done|]. simpl.
  by apply ranking_sorted_tags_NoDup.
Qed.

Section ranking_self.
Variable T : list OrderBlocksAnswerData.
Hypothesis T_sorted : StronglySorted (key_le Z.leb ranking) T.
Hypothesis T_tags : NoDup (tag <$> T).

Lemma ranking_sorted_self : ranking_sorted T = T.
Proof. by apply sorted_id. Qed.

Lemma ranking_self_prefix_valid dg :
  ranking_depends_graph T = Ok dg →
  dag_checker.prefix_valid dg [] [] (Some <$> (tag <$> T)) = length T
  ∧ dag_checker.fragment_tags dg [] = tag <$> T.
Proof.
  intros Hdg.
  pose proof (ranking_depends_graph_keys T dg T_tags Hdg) as Hkeys.
  rewrite ranking_sorted_self in Hkeys.
  destruct (ranking_depends_graph_spec T T_tags) as (dg' & Hdg' & Hget).
  rewrite Hdg in Hdg'. injection Hdg' as <-.
  split; [|by rewrite fragment_tags_ungrouped].
  rewrite <- (length_fmap tag T). apply prefix_valid_ungrouped.
  intros r1 t r2 Hsplit.
  apply fmap_app_inv in Hsplit as (l1 & l2' & -> & Hr & HT).
  symmetry in Hr. apply fmap_cons_inv in Hr as (a & l2 & -> & -> & ->).
  assert (a ∈ T) as Ha.
  { rewrite HT. apply elem_of_app. right. apply list_elem_of_here. }
  split.
  { rewrite Hkeys. by apply list_elem_of_fmap_2. }
  rewrite (Hget a Ha). simpl. intros d Hd. right.
  unfold rank_depends in Hd.
  pose proof (prev_distinct_rank_spec (ranking <$> T) (ranking a)) as Hs.
  destruct (prev_distinct_rank (ranking <$> T) (ranking a)) as [p|];
    [|by apply elem_of_nil in Hd].
  destruct Hs as (_ & Hp & _). unfold tags_of_rank in Hd.
  apply list_elem_of_fmap in Hd as (c & -> & Hc).
  apply list_elem_of_filter in Hc as [Hcp Hc].
  apply sorted_elem_of in Hc. rewrite HT in Hc.
  apply elem_of_app in Hc as [Hc|Hc]; [by apply list_elem_of_fmap_2|].
  exfalso. pose proof T_sorted as Hsorted. rewrite HT in Hsorted.
  apply StronglySorted_app_1_r in Hsorted.
  apply StronglySorted_inv in Hsorted as [_ Hall].
  apply elem_of_cons in Hc as [->|Hc]; [lia|].
  rewrite Forall_forall in Hall. specialize (Hall c Hc).
  apply Z.leb_le in Hall. lia.
Qed.

Lemma grade_locals_self_ranking element :
  default GRADING_METHOD_DEFAULT (grading_method element) = RANKING →
  T ≠ [] → NoDup (uuid <$> T) →
  ∃ g, grade_locals dag_checker.grade_dag dag_checker.lcs_partial_credit
                    element T (as_submitted <$> T) = Ok g
       ∧ (g_final_score g == 1)%Q.
Proof.
  intros Hm Hne Hnd.
  destruct (ranking_depends_graph_spec T T_tags) as (dg & Hdg & _).
  destruct (ranking_self_prefix_valid dg Hdg) as [Hvalid Hfrag].
  apply (grade_locals_self_graph _ _ element T (Some <$> (tag <$> T)) dg []
                                 (length T)).
  - by left.
  - done.
  - by destruct T.
  - rewrite Hm. unfold graph_model. rewrite as_submitted_tags. simpl.
    by rewrite Hdg.
  - unfold dag_checker.grade_dag. by rewrite Hvalid, Hfrag, length_fmap.
  - apply lcs_partial_credit_valid, valid_orders_elem.
    + by rewrite Hfrag.
    + by rewrite Hvalid, length_fmap.
Qed.
End ranking_self.

(** ** Lookups in dictionaries that are built by assignment *)

Section pydict_update.
Context {K V : Type} `{EqDecision K}.
Implicit Types (d e : pydict K V) (k : K) (v : V).

Lemma dict_set_keys_NoDup k v d :
  NoDup (dict_keys d) → NoDup (dict_keys (dict_set k v d)).
Proof.
  unfold dict_keys. induction d as [|[k' v'] d IH]; simpl; intros Hnd.
  - apply NoDup_singleton.
  - apply NoDup_cons in Hnd as [Hk' Hnd].
    destruct (decide (k' = k)) as [->|Hne]; simpl.
    + by apply NoDup_cons.
    + apply NoDup_cons. split; [|by apply IH].
      rewrite dict_set_keys_elem. intros [?|?]; done.
Qed.

Lemma dict_update_keys_NoDup d e :
  NoDup (dict_keys d) → NoDup (dict_keys (dict_update d e)).
Proof.
  unfold dict_update. revert d. induction e as [|[k v] e IH]; intros d Hnd.
  - done.
  - simpl. apply IH. by apply dict_set_keys_NoDup.
Qed.

Lemma dict_get_elem_NoDup k v d :
  NoDup (dict_keys d) → (k, v) ∈ d ↔ dict_get k d = Some v.
Proof.
  intros Hnd. split; [|apply dict_get_Some_elem].
  unfold dict_keys in Hnd. induction d as [|[k' v'] d IH]; intros Hin.
  - by apply elem_of_nil in Hin.
  - simpl in *. apply NoDup_cons in Hnd as [Hk' Hnd].
    apply elem_of_cons in Hin as [[= -> ->]|Hin].
    + by rewrite decide_True.
    + rewrite decide_False; [by apply IH|].
      intros ->. apply Hk'. by apply (list_elem_of_fmap_2 fst) in Hin.
Qed.

Lemma dict_keys_elem k d : k ∈ dict_keys d ↔ is_Some (dict_get k d).
Proof.
  unfold dict_keys. induction d as [|[k' v'] d IH]; simpl.
  - split; [intros Hin; by apply elem_of_nil in Hin|by intros [? ?]].
  - destruct (decide (k' = k)) as [->|Hne].
    + split; [by eexists|intros _; apply list_elem_of_here].
    + rewrite elem_of_cons, IH. split; [intros [?|?]; done|auto].
Qed.

Lemma dict_update_get_notin k d e :
  k ∉ e.*1 → dict_get k (dict_update d e) = dict_get k d.
Proof.
  unfold dict_update. revert d. induction e as [|[k0 v0] e IH]; intros d Hk.
  - done.
  - simpl in *. apply not_elem_of_cons in Hk as [Hne Hk].
    rewrite IH by done. by apply dict_get_set_ne.
Qed.

Lemma dict_update_get_in k v d e :
  (∀ v1 v2, (k, v1) ∈ e → (k, v2) ∈ e → v1 = v2) →
  (k, v) ∈ e → dict_get k (dict_update d e) = Some v.
Proof.
  revert d. induction e as [|[k0 v0] e IH]; intros d Hcons Hin.
  - by apply elem_of_nil in Hin.
  - change (dict_update d ((k0, v0) :: e))
      with (dict_update (dict_set k0 v0 d) e).
    destruct (decide (k ∈ e.*1)) as [Hk|Hk].
    + apply list_elem_of_fmap in Hk as ([k' v'] & Hk' & Hin'). simpl in Hk'.
      subst k'.
      assert (v = v') as <-.
      { apply Hcons; [done|by apply list_elem_of_further]. }
      apply IH; [|done]. intros v1 v2 H1 H2.
      apply Hcons; by apply list_elem_of_further.
    + apply elem_of_cons in Hin as [[= -> ->]|Hin].
      * rewrite dict_update_get_notin by done. apply dict_get_set_eq.
      * exfalso. apply Hk. by apply (list_elem_of_fmap_2 fst) in Hin.
Qed.

Lemma dict_update_get k v d e :
  consistent e →
  dict_get k (dict_update d e) = Some v
  ↔ (k, v) ∈ e ∨ ((k ∉ e.*1) ∧ dict_get k d = Some v).
Proof.
  intros Hcons. destruct (decide (k ∈ e.*1)) as [Hk|Hk].
  - apply list_elem_of_fmap in Hk as ([k' v'] & Hk' & Hin). simpl in Hk'.
    subst k'. rewrite (dict_update_get_in k v' d e); [|by apply Hcons|done].
    split.
    + intros [= ->]. by left.
    + intros [Hv|[Hn _]].
      * f_equal. by apply (Hcons k).
      * exfalso. apply Hn. by apply (list_elem_of_fmap_2 fst) in Hin.
  - rewrite dict_update_get_notin by done. split; [auto|].
    intros [Hv|[_ ?]]; [|done].
    exfalso. apply Hk. by apply (list_elem_of_fmap_2 fst) in Hv.
Qed.

Lemma dict_comp_update {A} (key : A → K) (val : A → V) (l : list A) :
  dict_comp key val l = dict_update [] ((λ x, (key x, val x)) <$> l).
Proof.
  unfold dict_comp, dict_update. generalize ([] : pydict K V).
  induction l as [|x l IH]; intros d; [done|]. simpl. apply IH.
Qed.

Lemma dict_comp_get {A} (key : A → K) (val : A → V) (l : list A) k v :
  (∀ a b, a ∈ l → b ∈ l → key a = key b → val a = val b) →
  dict_get k (dict_comp key val l) = Some v
  ↔ ∃ a, a ∈ l ∧ key a = k ∧ val a = v.
Proof.
  intros Hfun. rewrite dict_comp_update, dict_update_get.
  - split.
    + intros [Hin|[_ ?]]; [|done].
      apply list_elem_of_fmap in Hin as (a & [= -> ->] & Ha). by exists a.
    + intros (a & Ha & <- & <-). left.
      by apply (list_elem_of_fmap_2 (λ x, (key x, val x))).
  - intros k' v1 v2 H1 H2.
    apply list_elem_of_fmap in H1 as (a & [= -> ->] & Ha).
    apply list_elem_of_fmap in H2 as (b & [= Hk ->] & Hb).
    by apply Hfun.
Qed.

Lemma dict_comp_keys_NoDup {A} (key : A → K) (val : A → V) (l : list A) :
  NoDup (dict_keys (dict_comp key val l)).
Proof.
  rewrite dict_comp_update. apply dict_update_keys_NoDup. constructor.
Qed.
End pydict_update.

Lemma option_eq_iff {A} (o1 o2 : option A) :
  (∀ v, o1 = Some v ↔ o2 = Some v) → o1 = o2.
Proof.
  intros H. destruct o1 as [x|], o2 as [y|].
  - symmetry. by apply H.
  - symmetry. by apply (H x).
  - by apply (H y).
  - done.
Qed.

(** ** The graph that [extract_dag] builds *)

Implicit Types (l : list OrderBlocksAnswerData) (k : string).

Lemma extract_dag_eq l :
  extract_dag l
  = (dict_update (dict_comp tag depends l)
                 (dict_update [] (omap group_entry l)),
     dict_comp tag (λ a, gi_tag (group_info a)) l).
Proof.
  unfold extract_dag. f_equal. f_equal. unfold dict_update.
  generalize ([] : pydict string (list string)).
  induction l as [|a l IH]; intros d; [done|]. simpl.
  unfold group_entry at 1.
  destruct (gi_depends (group_info a)) as [deps|];
    destruct (gi_tag (group_info a)) as [g|]; simpl; apply IH.
Qed.

Lemma group_entry_elem l k v :
  (k, v) ∈ omap group_entry l
  ↔ ∃ a, a ∈ l ∧ gi_tag (group_info a) = Some k
         ∧ gi_depends (group_info a) = Some v.
Proof.
  rewrite list_elem_of_omap. unfold group_entry. split.
  - intros (a & Ha & He). exists a. split; [done|].
    destruct (gi_depends (group_info a)), (gi_tag (group_info a));
      try done. by injection He as -> ->.
  - intros (a & Ha & Hg & Hd). exists a. split; [done|]. by rewrite Hg, Hd.
Qed.

Lemma extract_dag_dg l k v :
  wf_answers l → dict_get k (extract_dag l).1 = Some v ↔ dg_entry l k v.
Proof.
  intros (Ht & _ & Hg & Hc). rewrite extract_dag_eq. simpl.
  assert (consistent (omap group_entry l)) as Hcons.
  { intros g d1 d2 H1 H2.
    apply group_entry_elem in H1 as (a & Ha & Hga & Hda).
    apply group_entry_elem in H2 as (b & Hb & Hgb & Hdb).
    rewrite (Hc a b g Ha Hb Hga Hgb) in Hda. congruence. }
  set (G := dict_update [] (omap group_entry l)).
  assert (NoDup (dict_keys G)) as HG
    by (apply dict_update_keys_NoDup; constructor).
  assert (∀ k' v', (k', v') ∈ G ↔ (k', v') ∈ omap group_entry l) as HGe.
  { intros k' v'. rewrite dict_get_elem_NoDup by done. unfold G.
    rewrite dict_update_get by done. split; [|auto].
    intros [?|[_ ?]]; done. }
  assert (consistent G) as HGc.
  { intros k' v1 v2 H1 H2. apply HGe in H1, H2. by apply (Hcons k'). }
  rewrite dict_update_get by done.
  rewrite dict_comp_get.
  2:{ intros a b Ha Hb Hab.
      by rewrite (NoDup_fmap_inj_on tag l a b Ht Ha Hb Hab). }
  rewrite HGe, group_entry_elem. unfold dg_entry. split.
  - intros [?|[_ ?]]; [by right|by left].
  - intros [(a & Ha & Hk & Hv)|?]; [|by left].
    right. split; [|by exists a].
    intros Hin. apply list_elem_of_fmap in Hin as ([k' v'] & Hk' & Hin).
    simpl in Hk'. subst k'. apply HGe, group_entry_elem in Hin
      as (b & Hb & Hgb & _).
    apply (Hg b k Hb Hgb). rewrite <- Hk. by apply list_elem_of_fmap_2.
Qed.

Lemma extract_dag_gb l k v :
  wf_answers l → dict_get k (extract_dag l).2 = Some v ↔ gb_entry l k v.
Proof.
  intros (Ht & _). rewrite extract_dag_eq. simpl. apply dict_comp_get.
  intros a b Ha Hb Hab.
  by rewrite (NoDup_fmap_inj_on tag l a b Ht Ha Hb Hab).
Qed.

Lemma extract_dag_keys_NoDup l :
  NoDup (dict_keys (extract_dag l).1) ∧ NoDup (dict_keys (extract_dag l).2).
Proof.
  rewrite extract_dag_eq. simpl. split.
  - apply dict_update_keys_NoDup, dict_comp_keys_NoDup.
  - apply dict_comp_keys_NoDup.
Qed.

Lemma extract_dag_Permutation l l' :
  wf_answers l → l ≡ₚ l' →
  (∀ k, dict_get k (extract_dag l).1 = dict_get k (extract_dag l').1)
  ∧ (∀ k, dict_get k (extract_dag l).2 = dict_get k (extract_dag l').2).
Proof.
  intros Hwf Hp. pose proof (wf_answers_Permutation l l' Hp Hwf) as Hwf'.
  split; intros k; apply option_eq_iff; intros v.
  - rewrite !extract_dag_dg by done. unfold dg_entry.
    by setoid_rewrite Hp.
  - rewrite !extract_dag_gb by done. unfold gb_entry.
    by setoid_rewrite Hp.
Qed.

(** ** Graphs with the same lookups *)

Lemma bool_eq_iff (b1 b2 : bool) : (b1 = true ↔ b2 = true) → b1 = b2.
Proof. destruct b1, b2; intros [H1 H2]; auto. symmetry. auto. Qed.

Section graph_lookups.
Variable gb : group_belonging_t.
Hypothesis gb_NoDup : NoDup (dict_keys gb).

Lemma group_tags_elem g :
  g ∈ dag_checker.group_tags gb ↔ ∃ t, dict_get t gb = Some (Some g).
Proof.
  unfold dag_checker.group_tags, dict_values. rewrite list_elem_of_omap.
  split.
  - intros (v & Hv & Hid). simpl in Hid. subst v.
    apply list_elem_of_fmap in Hv as ([t v] & Hv & Hin). simpl in Hv.
    subst v. exists t. by apply dict_get_elem_NoDup.
  - intros (t & Ht). exists (Some g). split; [|done].
    apply dict_get_elem_NoDup in Ht; [|done].
    by apply (list_elem_of_fmap_2 snd) in Ht.
Qed.

Lemma members_elem g t :
  t ∈ dag_checker.members gb g ↔ dict_get t gb = Some (Some g).
Proof.
  unfold dag_checker.members. rewrite list_elem_of_fmap. split.
  - intros ([t' v] & -> & Hin). apply list_elem_of_filter in Hin as [Hv Hin].
    simpl in *. subst v. by apply dict_get_elem_NoDup.
  - intros Ht. exists (t, Some g). split; [done|].
    apply list_elem_of_filter. split; [done|]. by apply dict_get_elem_NoDup.
Qed.
End graph_lookups.

Lemma fragment_tags_elem dg gb t :
  t ∈ dag_checker.fragment_tags dg gb
  ↔ is_Some (dict_get t dg) ∧ t ∉ dag_checker.group_tags gb.
Proof.
  unfold dag_checker.fragment_tags. rewrite list_elem_of_filter.
  rewrite dict_keys_elem. tauto.
Qed.

Lemma fragment_tags_NoDup dg gb :
  NoDup (dict_keys dg) → NoDup (dag_checker.fragment_tags dg gb).
Proof. apply NoDup_filter. Qed.

Section graph_equiv.
Variables dg dg' : depends_graph_t.
Variables gb gb' : group_belonging_t.
Hypothesis dg_eq : ∀ k, dict_get k dg = dict_get k dg'.
Hypothesis gb_eq : ∀ k, dict_get k gb = dict_get k gb'.
Hypothesis dg_NoDup : NoDup (dict_keys dg).
Hypothesis dg'_NoDup : NoDup (dict_keys dg').
Hypothesis gb_NoDup : NoDup (dict_keys gb).
Hypothesis gb'_NoDup : NoDup (dict_keys gb').

Lemma group_tags_equiv g :
  g ∈ dag_checker.group_tags gb ↔ g ∈ dag_checker.group_tags gb'.
Proof. rewrite !group_tags_elem by done. by setoid_rewrite gb_eq. Qed.

Lemma fragment_tags_equiv t :
  t ∈ dag_checker.fragment_tags dg gb ↔ t ∈ dag_checker.fragment_tags dg' gb'.
Proof. by rewrite !fragment_tags_elem, dg_eq, group_tags_equiv. Qed.

Lemma fragment_tags_Permutation :
  dag_checker.fragment_tags dg gb ≡ₚ dag_checker.fragment_tags dg' gb'.
Proof.
  apply NoDup_Permutation; [by apply fragment_tags_NoDup..|].
  apply fragment_tags_equiv.
Qed.

Lemma group_of_equiv t :
  dag_checker.group_of gb t = dag_checker.group_of gb' t.
Proof. unfold dag_checker.group_of. by rewrite gb_eq. Qed.

Lemma effective_depends_equiv t :
  dag_checker.effective_depends dg gb t
  = dag_checker.effective_depends dg' gb' t.
Proof.
  unfold dag_checker.effective_depends.
  rewrite group_of_equiv, dg_eq. by destruct (dag_checker.group_of gb' t);
    [rewrite dg_eq|].
Qed.

Lemma consumed_equiv seen g :
  dag_checker.consumed gb seen g = dag_checker.consumed gb' seen g.
Proof.
  apply bool_eq_iff. unfold dag_checker.consumed. rewrite !forallb_elem_of.
  split; intros H t Ht; apply H.
  - apply members_elem; [done|]. apply members_elem in Ht; [|done].
    by rewrite gb_eq.
  - apply members_elem; [done|]. apply members_elem in Ht; [|done].
    by rewrite <- gb_eq.
Qed.

Lemma satisfied_equiv seen d :
  dag_checker.satisfied gb seen d = dag_checker.satisfied gb' seen d.
Proof.
  unfold dag_checker.satisfied.
  rewrite (bool_decide_ext _ _ (group_tags_equiv d)).
  by rewrite consumed_equiv.
Qed.

Lemma open_group_equiv seen :
  dag_checker.open_group gb seen = dag_checker.open_group gb' seen.
Proof.
  unfold dag_checker.open_group. destruct seen as [|p seen]; [done|].
  rewrite group_of_equiv. destruct (dag_checker.group_of gb' p); [|done].
  by rewrite consumed_equiv.
Qed.

Lemma valid_next_equiv seen t :
  dag_checker.valid_next dg gb seen t = dag_checker.valid_next dg' gb' seen t.
Proof.
  unfold dag_checker.valid_next. destruct t as [t|]; [|done].
  rewrite (bool_decide_ext _ _ (fragment_tags_equiv t)).
  rewrite effective_depends_equiv. f_equal; [f_equal|].
  - apply bool_eq_iff. rewrite !forallb_elem_of.
    split; intros H d Hd;
      [rewrite <- satisfied_equiv|rewrite satisfied_equiv]; by apply H.
  - unfold dag_checker.contiguous. rewrite open_group_equiv.
    destruct (dag_checker.open_group gb' seen); [|done].
    by rewrite group_of_equiv, effective_depends_equiv.
Qed.

Lemma prefix_valid_equiv seen submission :
  dag_checker.prefix_valid dg gb seen submission
  = dag_checker.prefix_valid dg' gb' seen submission.
Proof.
  revert seen. induction submission as [|t rest IH]; intros seen; [done|].
  simpl. rewrite valid_next_equiv.
  destruct (dag_checker.valid_next dg' gb' seen t); [|done].
  destruct t; [|done]. by rewrite IH.
Qed.
End graph_equiv.

(** ** The search of the solver *)

Lemma filter_ne_notin (l : list string) (x : string) :
  x ∉ l → filter (λ t', t' ≠ x) l = l.
Proof.
  induction l as [|y l IH]; intros Hx; [done|].
  apply not_elem_of_cons in Hx as [Hne Hx]. rewrite filter_cons.
  rewrite decide_True by auto. by rewrite IH.
Qed.

Lemma NoDup_remove_Permutation (l : list string) (t : string) :
  NoDup l → t ∈ l → l ≡ₚ t :: filter (λ t', t' ≠ t) l.
Proof.
  induction l as [|x l IH]; intros Hnd Ht.
  - by apply elem_of_nil in Ht.
  - apply NoDup_cons in Hnd as [Hx Hnd]. rewrite filter_cons.
    apply elem_of_cons in Ht as [->|Ht].
    + rewrite decide_False by auto.
      by rewrite filter_ne_notin.
    + assert (x ≠ t) as Hne by (by intros ->).
      rewrite decide_True by done. rewrite (IH Hnd Ht) at 1.
      apply Permutation_swap.
Qed.

Section search.
Variable dg : depends_graph_t.
Variable gb : group_belonging_t.

Lemma search_try_sound fuel seen remaining :
  (∀ seen' remaining' order,
     NoDup remaining' →
     dag_checker.search dg gb fuel seen' remaining' = Some order →
     search_ok dg gb seen' remaining' order) →
  NoDup remaining →
  ∀ candidates order,
    (∀ t, t ∈ candidates → t ∈ remaining) →
    (fix try (candidates : list string) : option (list string) :=
       match candidates with
       | [] => None
       | t :: candidates' =>
           if dag_checker.valid_next dg gb seen (Some t)
           then match dag_checker.search dg gb fuel (t :: seen)
                        (filter (λ t', t' ≠ t) remaining) with
                | Some order => Some (t :: order)
                | None => try candidates'
                end
           else try candidates'
       end) candidates = Some order →
    search_ok dg gb seen remaining order.
Proof.
  intros IH Hnd candidates.
  induction candidates as [|t candidates IHc]; intros order Hsub H; [done|].
  assert (∀ t', t' ∈ candidates → t' ∈ remaining) as Hsub'.
  { intros t' Ht'. apply Hsub. by apply list_elem_of_further. }
  destruct (dag_checker.valid_next dg gb seen (Some t)) eqn:Hvalid;
    [|by apply IHc].
  destruct (dag_checker.search dg gb fuel (t :: seen)
              (filter (λ t', t' ≠ t) remaining)) as [order'|] eqn:Hs;
    [|by apply IHc].
  injection H as <-.
  apply IH in Hs as [Hv Hp]; [|by apply NoDup_filter].
  split.
  - rewrite fmap_cons, prefix_valid_cons, Hvalid. simpl. by rewrite Hv.
  - rewrite Hp. symmetry. apply NoDup_remove_Permutation; [done|].
    apply Hsub, list_elem_of_here.
Qed.

Lemma search_sound fuel :
  ∀ seen remaining order,
    NoDup remaining →
    dag_checker.search dg gb fuel seen remaining = Some order →
    search_ok dg gb seen remaining order.
Proof.
  induction fuel as [|fuel IH]; intros seen remaining order Hnd H.
  - destruct remaining; [|done]. injection H as <-. by split.
  - destruct remaining as [|x r]; [injection H as <-; by split|].
    by apply (search_try_sound fuel seen (x :: r) IH Hnd (x :: r) order).
Qed.

Lemma solve_dag_sound order :
  NoDup (dict_keys dg) →
  dag_checker.solve_dag dg gb = Ok order →
  search_ok dg gb [] (dag_checker.fragment_tags dg gb) order.
Proof.
  intros Hnd H. unfold dag_checker.solve_dag in H.
  destruct (dag_checker.search dg gb _ [] _) as [o|] eqn:Hs; [|done].
  injection H as <-. apply search_sound in Hs; [done|].
  by apply fragment_tags_NoDup.
Qed.
End search.

(** ** The position of a tag in the solution *)

Lemma list_index_Some (order : list string) t i :
  list_index t order = Some i → order !! i = Some t.
Proof.
  revert i. induction order as [|y order IH]; intros i H; [done|].
  simpl in H. destruct (decide (y = t)) as [->|Hne].
  - by injection H as <-.
  - destruct (list_index t order) as [j|]; [|done].
    injection H as <-. simpl. by apply IH.
Qed.

Lemma list_index_elem (order : list string) t :
  t ∈ order → is_Some (list_index t order).
Proof.
  induction order as [|y order IH]; intros Ht.
  - by apply elem_of_nil in Ht.
  - simpl. destruct (decide (y = t)); [by eexists|].
    apply elem_of_cons in Ht as [->|Ht]; [done|].
    destruct (IH Ht) as [j ->]. by eexists.
Qed.

Lemma list_index_app_notin (pre l : list string) t :
  t ∉ pre →
  list_index t (pre ++ l) = (λ i, (length pre + i)%nat) <$> list_index t l.
Proof.
  induction pre as [|y pre IH]; intros Ht; simpl.
  - by destruct (list_index t l).
  - apply not_elem_of_cons in Ht as [Hne Ht].
    rewrite decide_False by done. rewrite IH by done.
    by destruct (list_index t l).
Qed.

Lemma order_sorted_by_position (order : list string) :
  NoDup order →
  StronglySorted (λ t1 t2, (position order t1 ≤ position order t2)%nat) order.
Proof.
  intros Hnd.
  cut (∀ rest pre, order = pre ++ rest →
         StronglySorted
           (λ t1 t2, (position order t1 ≤ position order t2)%nat) rest).
  { intros H. by apply (H order []). }
  induction rest as [|t rest IH]; intros pre Hsplit; [constructor|].
  constructor.
  - apply (IH (pre ++ [t])). by rewrite <- app_assoc.
  - rewrite Hsplit in Hnd. apply NoDup_app in Hnd as (_ & Hdisj & Hnd').
    apply NoDup_cons in Hnd' as [Ht _].
    assert (t ∉ pre) as Htpre.
    { intros Hin. apply (Hdisj t Hin), list_elem_of_here. }
    apply Forall_forall. intros u Hu. unfold position. rewrite Hsplit.
    rewrite !list_index_app_notin.
    + simpl. rewrite decide_True by done.
      rewrite decide_False by (intros ->; done).
      destruct (list_index_elem rest u Hu) as [j ->]. simpl. lia.
    + intros Hin. apply (Hdisj u Hin). by apply list_elem_of_further.
    + done.
Qed.

Lemma sorted_by_position_tags (l : list OrderBlocksAnswerData)
    (order : list string) :
  NoDup (tag <$> l) → order ≡ₚ tag <$> l →
  tag <$> sorted Nat.leb (λ x, position order (tag x)) l = order.
Proof.
  intros Hnd Hp.
  apply (StronglySorted_unique_strong
           (λ t1 t2, (position order t1 ≤ position order t2)%nat)).
  - intros t1 t2 Ht1' Ht2 H12 H21.
    assert (t1 ∈ order) as Ht1.
    { rewrite Hp. by rewrite sorted_Permutation in Ht1'. }
    destruct (list_index_elem order t1 Ht1) as [i Hi].
    destruct (list_index_elem order t2 Ht2) as [j Hj].
    unfold position in H12, H21. rewrite Hi, Hj in H12, H21. simpl in *.
    assert (i = j) as -> by lia.
    apply list_index_Some in Hi, Hj. congruence.
  - apply (StronglySorted_fmap tag
             (key_le Nat.leb (λ x, position order (tag x)))).
    + intros x y Hxy. by apply Nat.leb_le in Hxy.
    + apply sorted_StronglySorted; [apply Nat_leb_total|apply Nat_leb_trans].
  - apply order_sorted_by_position. by rewrite Hp.
  - by rewrite sorted_Permutation.
Qed.

(** ** The solution under [DAG] *)

Lemma extract_dag_fragment_tags (l : list OrderBlocksAnswerData) :
  wf_answers l →
  dag_checker.fragment_tags (extract_dag l).1 (extract_dag l).2
  ≡ₚ tag <$> l.
Proof.
  intros Hwf. pose proof Hwf as (Ht & _ & Hg & _).
  destruct (extract_dag_keys_NoDup l) as [Hdgk Hgbk].
  apply NoDup_Permutation; [by apply fragment_tags_NoDup|done|].
  intros t. rewrite fragment_tags_elem, group_tags_elem by done.
  split.
  - intros [[v Hv] Hnot]. apply extract_dag_dg in Hv; [|done].
    destruct Hv as [(a & Ha & <- & _)|(a & Ha & Hga & _)].
    + by apply list_elem_of_fmap_2.
    + exfalso. apply Hnot. exists (tag a).
      apply extract_dag_gb; [done|]. by exists a.
  - intros Hin. apply list_elem_of_fmap in Hin as (a & -> & Ha). split.
    + exists (depends a). apply extract_dag_dg; [done|]. left. by exists a.
    + intros (t' & Ht'). apply extract_dag_gb in Ht'; [|done].
      destruct Ht' as (b & Hb & _ & Hgb).
      apply (Hg b (tag a) Hb Hgb). by apply list_elem_of_fmap_2.
Qed.

Lemma solve_problem_dag (l sol : list OrderBlocksAnswerData) :
  wf_answers l →
  solve_problem dag_checker.solve_dag l DAG = Ok sol →
  sol ≡ₚ l
  ∧ dag_checker.prefix_valid (extract_dag l).1 (extract_dag l).2 []
      (Some <$> (tag <$> sol)) = length sol.
Proof.
  intros Hwf H. unfold solve_problem in H.
  destruct (extract_dag l) as [dg gb] eqn:He.
  apply bind_Ok in H as (order & Hsolve & H).
  destruct (forallb _ l); [|done]. injection H as <-.
  assert (NoDup (dict_keys dg)) as Hnd.
  { pose proof (extract_dag_keys_NoDup l) as [H1 _]. by rewrite He in H1. }
  apply solve_dag_sound in Hsolve as [Hvalid Hperm]; [|done].
  pose proof (extract_dag_fragment_tags l Hwf) as Hfrag.
  rewrite He in Hfrag. simpl in *. rewrite Hfrag in Hperm.
  destruct Hwf as (Ht & _).
  split; [apply sorted_Permutation|].
  change (λ x, default 0%nat (list_index (tag x) order))
    with (λ x, position order (tag x)).
  rewrite sorted_by_position_tags by done.
  by rewrite Hvalid, Hperm, length_fmap, sorted_length.
Qed.

Lemma grade_locals_self_dag element (l sol : list OrderBlocksAnswerData) :
  default GRADING_METHOD_DEFAULT (grading_method element) = DAG →
  wf_answers l → l ≠ [] →
  solve_problem dag_checker.solve_dag l DAG = Ok sol →
  ∃ g, grade_locals dag_checker.grade_dag dag_checker.lcs_partial_credit
                    element sol (as_submitted <$> sol) = Ok g
       ∧ (g_final_score g == 1)%Q.
Proof.
  intros Hm Hwf Hne Hsol.
  destruct (solve_problem_dag l sol Hwf Hsol) as [Hperm Hvalid].
  assert (wf_answers sol) as Hwfs
    by (by apply (wf_answers_Permutation l sol)).
  destruct (extract_dag_Permutation l sol Hwf) as [Hdg Hgb]; [done|].
  destruct (extract_dag_keys_NoDup l) as [Hk1 Hk2].
  destruct (extract_dag_keys_NoDup sol) as [Hk1' Hk2'].
  rewrite (prefix_valid_equiv _ (extract_dag sol).1 _ (extract_dag sol).2)
    in Hvalid by done.
  pose proof (extract_dag_fragment_tags sol Hwfs) as Hfrag.
  destruct Hwfs as (_ & Hu & _).
  apply (grade_locals_self_graph _ _ element sol (Some <$> (tag <$> sol))
           (extract_dag sol).1 (extract_dag sol).2 (length sol)).
  - by right.
  - done.
  - intros Hz. apply Hne. apply Permutation_length in Hperm.
    destruct l; [done|]. simpl in Hperm. lia.
  - rewrite Hm. unfold graph_model. rewrite as_submitted_tags. simpl.
    by destruct (extract_dag sol).
  - unfold dag_checker.grade_dag. by rewrite Hvalid, Hfrag, length_fmap.
  - apply lcs_partial_credit_valid, valid_orders_elem.
    + by rewrite Hfrag.
    + by rewrite Hvalid, length_fmap.
Qed.

(** ** The canonical answer *)

Lemma solve_problem_self_score element (l sol : list OrderBlocksAnswerData) :
  default GRADING_METHOD_DEFAULT (grading_method element) ≠ EXTERNAL →
  wf_answers l → l ≠ [] →
  solve_problem dag_checker.solve_dag l
    (default GRADING_METHOD_DEFAULT (grading_method element)) = Ok sol →
  ∃ g, grade_locals dag_checker.grade_dag dag_checker.lcs_partial_credit
                    element sol (as_submitted <$> sol) = Ok g
       ∧ (g_final_score g == 1)%Q.
Proof.
  intros Hext Hwf Hne Hsol. pose proof Hwf as (Ht & Hu & _).
  destruct (default GRADING_METHOD_DEFAULT (grading_method element)) eqn:Hm.
  - injection Hsol as <-. by apply grade_locals_self_unordered.
  - injection Hsol as <-. by apply grade_locals_self_ordered.
  - injection Hsol as <-.
    pose proof (sorted_Permutation Z.leb ranking l) as Hp.
    apply grade_locals_self_ranking.
    + apply sorted_StronglySorted; [apply Z_leb_total|apply Z_leb_trans].
    + by rewrite Hp.
    + done.
    + intros Hnil. apply Hne. apply Permutation_length in Hp.
      rewrite Hnil in Hp. by destruct l.
    + by rewrite Hp.
  - by apply (grade_locals_self_dag element l sol).
  - done.
Qed.

(** C1 (as amended): after [prepare] completes for a question instance
    whose grading method is not [EXTERNAL], the stored list of correct
    answers (the declared order if it grades itself to a score of 1, and
    the list that [solve_problem] returns otherwise) scores 1 when it is
    graded as a submission under the grading method and the partial-credit
    policy of the instance. The functions of [dag_checker] are the ones
    modelled from the specification. *)
Theorem C1_canonical_answer_scores_one
    (random : Random) (element : Element) (data data' : QuestionData) :
  default GRADING_METHOD_DEFAULT (grading_method element) ≠ EXTERNAL →
  prepare dag_checker.grade_dag dag_checker.lcs_partial_credit
          dag_checker.solve_dag random element data = Ok data' →
  ∃ stored q,
    correct_answers data' !! answers_name element = Some stored
    ∧ self_score dag_checker.grade_dag dag_checker.lcs_partial_credit
                 element stored = Ok q
    ∧ (q == 1)%Q.
Proof.
  intros Hext H.
  apply prepare_Ok_inv in H
    as (st & idx & all_blocks & bins & n & _ & Hch & Hne & _ & _ & _ & _
        & graded & ps & Hgraded & Hps & Hbranch).
  apply prepare_children_wf in Hch; [|apply wf_state_init].
  destruct Hch as (Hwf & _). specialize (Hne Hext).
  apply (wf_answers_with_bin bins) in Hwf.
  set (correct1 := with_bin bins <$> st_correct_answers st) in *.
  assert (correct1 ≠ []) as Hne1.
  { unfold correct1. by destruct (st_correct_answers st). }
  destruct Hbranch as [[Hone Hstored]|[_ (sol & Hsol & Hstored)]].
  - exists correct1.
    destruct (grade_score _ _ element _ graded correct1
                (as_submitted <$> correct1) ps Hgraded)
      as (g & Hg & Hscore).
    + simpl. apply lookup_insert_eq.
    + simpl. apply lookup_singleton_eq.
    + done.
    + exists (round2 (g_final_score g)). split; [|split].
      * rewrite Hstored. apply lookup_insert_eq.
      * by apply self_score_locals.
      * rewrite <- Hscore. by apply Qeq_bool_iff.
  - exists sol.
    destruct (solve_problem_self_score element correct1 sol Hext Hwf Hne1 Hsol)
      as (g & Hg & Hone).
    exists (round2 (g_final_score g)). split; [|split].
    + rewrite Hstored. apply lookup_insert_eq.
    + by apply self_score_locals.
    + by apply round2_one.
Qed.

Lemma C1_canonical_answer_scores_one_witness :
  ∃ data' stored q,
    prepare dag_checker.grade_dag dag_checker.lcs_partial_credit
            dag_checker.solve_dag Examples.random
            Examples.dag_out_of_order Examples.empty_data = Ok data'
    ∧ correct_answers data' !! "order" = Some stored
    ∧ inner_html <$> stored = ["first line"; "second line"; "third line"]
    ∧ self_score dag_checker.grade_dag dag_checker.lcs_partial_credit
                 Examples.dag_out_of_order stored = Ok q
    ∧ (q == 1)%Q.
Proof.
  destruct (prepare dag_checker.grade_dag dag_checker.lcs_partial_credit
              dag_checker.solve_dag Examples.random
              Examples.dag_out_of_order Examples.empty_data)
    as [data'|e] eqn:Hprep; [|vm_compute in Hprep; discriminate].
  destruct (C1_canonical_answer_scores_one Examples.random
              Examples.dag_out_of_order Examples.empty_data data'
              ltac:(discriminate) Hprep)
    as (stored & q & Hstored & Hq & Hone).
  exists data', stored, q. split; [reflexivity|]. split; [exact Hstored|].
  split; [|split; [exact Hq|exact Hone]].
  vm_compute in Hprep. injection Hprep as <-.
  vm_compute in Hstored. injection Hstored as <-. reflexivity.
Defined.

(** C1 as stated fails under [EXTERNAL]: [grade] has no branch for it, the
    score stays 0, and [solve_problem] returns the list as it is. *)
Lemma C1_counterexample :
  ∃ data' stored q,
    prepare dag_checker.grade_dag dag_checker.lcs_partial_credit
            dag_checker.solve_dag Examples.random
            Examples.external Examples.empty_data = Ok data'
    ∧ correct_answers data' !! "order" = Some stored
    ∧ self_score dag_checker.grade_dag dag_checker.lcs_partial_credit
                 Examples.external stored = Ok q
    ∧ (q == 0)%Q.
Proof.
  eexists _, _, _. split; [vm_compute; reflexivity|].
  split; [vm_compute; reflexivity|].
  split; [vm_compute; reflexivity|reflexivity].
Qed.

(** ** Further properties of [grade] *)

Lemma size_list_to_set_le (l : list string) :
  (size (list_to_set (C := gset string) l) ≤ length l)%nat.
Proof.
  induction l as [|x l IH].
  - rewrite list_to_set_nil, size_empty. simpl. lia.
  - rewrite list_to_set_cons, size_union_alt, size_singleton. simpl.
    assert (size (list_to_set (C := gset string) l ∖ {[x]})
            ≤ size (list_to_set (C := gset string) l))%nat.
    { apply subseteq_size. intros z Hz.
      apply elem_of_difference in Hz. tauto. }
    lia.
Qed.

Lemma pymax_zero_bounds (q : Q) : (q <= 1)%Q → (0 <= pymax 0 q <= 1)%Q.
Proof.
  intros Hq. unfold pymax. destruct (Qlt_le_dec 0 q) as [H|H].
  - split; [apply Qlt_le_weak; exact H | exact Hq].
  - split; [apply Qle_refl | discriminate].
Qed.

Lemma Qdiv_inject_le_one (a n : Z) :
  0 < n → a <= n → (Qdiv (inject_Z a) (inject_Z n) <= 1)%Q.
Proof.
  intros Hn Ha. apply Qle_shift_div_r.
  - change 0%Q with (inject_Z 0). rewrite <- Zlt_Qlt. exact Hn.
  - rewrite Qmult_1_l. rewrite <- Zle_Qle. exact Ha.
Qed.

Lemma float_div_Ok a b q :
  float_div a b = Ok q → b ≠ 0 ∧ q = Qdiv (inject_Z a) (inject_Z b).
Proof.
  unfold float_div. destruct (decide (b = 0)); [discriminate|].
  intros [= <-]. done.
Qed.

Lemma grade_unordered_bounds T sub q :
  grade_unordered T sub = Ok q → (0 <= q <= 1)%Q.
Proof.
  unfold grade_unordered. intros H. apply bind_Ok in H as (x & Hx & [= <-]).
  apply float_div_Ok in Hx as [Hn ->].
  apply pymax_zero_bounds, Qdiv_inject_le_one; [lia|].
  pose proof (size_list_to_set_le (uuid <$> T)) as HT.
  pose proof (size_list_to_set_le (s_uuid <$> sub)) as HS.
  rewrite length_fmap in HT. rewrite length_fmap in HS.
  assert (size (list_to_set (C := gset string) (uuid <$> T)
                ∩ list_to_set (s_uuid <$> sub))
          ≤ size (list_to_set (C := gset string) (uuid <$> T)))%nat as H1.
  { apply subseteq_size. intros z Hz. apply elem_of_intersection in Hz.
    tauto. }
  assert (size (list_to_set (C := gset string) (uuid <$> T)
                ∩ list_to_set (s_uuid <$> sub))
          ≤ size (list_to_set (C := gset string) (s_uuid <$> sub)))%nat as H2.
  { apply subseteq_size. intros z Hz. apply elem_of_intersection in Hz.
    tauto. }
  lia.
Qed.

Lemma grade_ordered_bounds T sub : (0 <= grade_ordered T sub <= 1)%Q.
Proof.
  unfold grade_ordered. destruct (decide _); split; discriminate.
Qed.

Lemma grade_graph_bounds gd lcs method ci fb pc T sub q f w :
  grade_graph gd lcs method ci fb pc T sub = Ok (q, f, w) →
  (0 <= q <= 1)%Q.
Proof.
  unfold grade_graph. intros H.
  apply bind_Ok in H as ([[submission dg] gb] & _ & H).
  apply bind_Ok in H as ([nic tal] & _ & H).
  apply bind_Ok in H as (fs & Hfs & [= <- _ _]).
  destruct pc.
  - injection Hfs as <-.
    repeat destruct (decide _); split; discriminate.
  - apply bind_Ok in Hfs as (ed & _ & Hfs).
    apply bind_Ok in Hfs as (x & Hx & [= <-]).
    apply float_div_Ok in Hx as [Hn ->].
    apply pymax_zero_bounds, Qdiv_inject_le_one; lia.
Qed.

Lemma grade_locals_bounds gd lcs element T sub g :
  grade_locals gd lcs element T sub = Ok g → (0 <= g_final_score g <= 1)%Q.
Proof.
  unfold grade_locals.
  destruct (default GRADING_METHOD_DEFAULT (grading_method element)).
  - intros H. apply bind_Ok in H as (q & Hq & [= <-]). simpl.
    eapply grade_unordered_bounds; exact Hq.
  - intros [= <-]. simpl. apply grade_ordered_bounds.
  - intros H. apply bind_Ok in H as ([[q f] w] & Hq & [= <-]). simpl.
    eapply grade_graph_bounds; exact Hq.
  - intros H. apply bind_Ok in H as ([[q f] w] & Hq & [= <-]). simpl.
    eapply grade_graph_bounds; exact Hq.
  - intros [= <-]. simpl. split; discriminate.
Qed.

Lemma round_half_even_bounds (q : Q) (k : Z) :
  0 <= k → (0 <= q)%Q → (q <= inject_Z k)%Q →
  0 <= round_half_even q <= k.
Proof.
  intros Hk H0 H1. unfold round_half_even.
  destruct q as [n d]. unfold Qle in H0, H1. simpl in *.
  assert (0 <= n) as Hn by lia.
  assert (n <= k * Z.pos d) as Hm by lia.
  pose proof (Z.div_mod n (Z.pos d) ltac:(lia)) as Hdm.
  pose proof (Z.mod_pos_bound n (Z.pos d) ltac:(lia)) as Hb.
  assert (0 <= n / Z.pos d) as Hq0 by (apply Z.div_pos; lia).
  assert (n / Z.pos d <= k) as Hqk.
  { apply Z.div_le_upper_bound; lia. }
  assert (n / Z.pos d = k → n mod Z.pos d = 0) as Htop.
  { intros E. rewrite E in Hdm. nia. }
  destruct (2 * (n mod Z.pos d) ?= Z.pos d) eqn:Hc.
  - apply Z.compare_eq in Hc.
    destruct (Z.even (n / Z.pos d)); [lia|].
    destruct (decide (n / Z.pos d = k)) as [E|E]; [|lia].
    apply Htop in E. lia.
  - lia.
  - apply Z.compare_gt_iff in Hc.
    destruct (decide (n / Z.pos d = k)) as [E|E]; [|lia].
    apply Htop in E. lia.
Qed.

Lemma round2_bounds (q : Q) : (0 <= q <= 1)%Q → (0 <= round2 q <= 1)%Q.
Proof.
  intros [H0 H1].
  assert (0 <= round_half_even (q * inject_Z 100) <= 100) as [Ha Hb].
  { apply round_half_even_bounds; [lia| |];
      destruct q as [n d]; unfold Qle in *; simpl in *; lia. }
  unfold round2, Qle. simpl. lia.
Qed.

(** X1: whenever [grade] returns, the score it stores under the answer name
    lies between 0 and 1, with the weight of the element, whatever the
    grading method, the submission and the results of [dag_checker]. *)
Theorem grade_score_in_unit_interval
    (gd : list (option string) → depends_graph_t → group_belonging_t →
          result (nat * nat))
    (lcs : list (option string) → depends_graph_t → group_belonging_t →
           result nat)
    (element : Element) (data data' : QuestionData) :
  grade gd lcs element data = Ok data' →
  ∃ ps,
    partial_scores data' !! answers_name element = Some ps
    ∧ (0 <= score ps <= 1)%Q
    ∧ ps_weight ps = default WEIGHT_DEFAULT (weight element).
Proof.
  unfold grade. intros H.
  apply bind_Ok in H as (sub & _ & H).
  apply bind_Ok in H as (T & _ & H).
  apply bind_Ok in H as (g & Hg & [= <-]). simpl.
  eexists. split; [apply lookup_insert_eq|]. simpl. split; [|done].
  apply round2_bounds. eapply grade_locals_bounds; exact Hg.
Qed.

Lemma grade_score_in_unit_interval_witness :
  ∃ data' ps,
    grade dag_checker.grade_dag dag_checker.lcs_partial_credit
      (Examples.element UNORDERED false None None [])
      (Examples.data [Examples.a; Examples.b] [Examples.sb; Examples.sc])
    = Ok data'
    ∧ partial_scores data' !! "order" = Some ps
    ∧ (0 <= score ps <= 1)%Q.
Proof.
  destruct (grade dag_checker.grade_dag dag_checker.lcs_partial_credit
              (Examples.element UNORDERED false None None [])
              (Examples.data [Examples.a; Examples.b]
                             [Examples.sb; Examples.sc])) as [data'|e] eqn:E.
  - destruct (grade_score_in_unit_interval _ _ _ _ _ E) as (ps & Hps & Hb & _).
    exists data', ps. split; [reflexivity|]. split; [exact Hps | exact Hb].
  - vm_compute in E. discriminate E.
Defined.

(** X2: under [EXTERNAL], [grade] has no scoring branch: for every
    submission and every list of correct answers it returns, and stores the
    score 0 with an empty feedback. *)
Theorem grade_external_scores_zero
    (gd : list (option string) → depends_graph_t → group_belonging_t →
          result (nat * nat))
    (lcs : list (option string) → depends_graph_t → group_belonging_t →
           result nat)
    (element : Element) (data : QuestionData)
    (T : list OrderBlocksAnswerData) (sub : list SubmittedBlock) :
  grading_method element = Some EXTERNAL →
  submitted_answers data !! answers_name element = Some sub →
  correct_answers data !! answers_name element = Some T →
  ∃ data' ps,
    grade gd lcs element data = Ok data'
    ∧ partial_scores data' !! answers_name element = Some ps
    ∧ (score ps == 0)%Q
    ∧ ps_feedback ps = EmptyString.
Proof.
  intros Hm Hs Ht. unfold grade, grade_locals. rewrite Hs, Ht, Hm. simpl.
  eexists _, _. split; [reflexivity|]. simpl.
  split; [apply lookup_insert_eq|]. simpl. split; reflexivity.
Qed.

Lemma grade_external_scores_zero_witness :
  ∃ data' ps,
    grade dag_checker.grade_dag dag_checker.lcs_partial_credit
      (Examples.element EXTERNAL true None None [])
      (Examples.data [Examples.a] [Examples.sa]) = Ok data'
    ∧ partial_scores data' !! "order" = Some ps
    ∧ (score ps == 0)%Q.
Proof.
  destruct (grade_external_scores_zero
              dag_checker.grade_dag dag_checker.lcs_partial_credit
              (Examples.element EXTERNAL true None None [])
              (Examples.data [Examples.a] [Examples.sa])
              [Examples.a] [Examples.sa])
    as (data' & ps & H1 & H2 & H3 & _); [reflexivity..|].
  exists data', ps. split; [exact H1|]. split; [exact H2 | exact H3].
Defined.

(** X3: [grade] raises [KeyError] when the data hold no submission, or no
    correct answers, under the answer name of the element. *)
Theorem grade_unknown_answer_name
    (gd : list (option string) → depends_graph_t → group_belonging_t →
          result (nat * nat))
    (lcs : list (option string) → depends_graph_t → group_belonging_t →
           result nat)
    (element : Element) (data : QuestionData) :
  submitted_answers data !! answers_name element = None
  ∨ correct_answers data !! answers_name element = None →
  grade gd lcs element data = Raise KeyError.
Proof.
  unfold grade. intros [H|H].
  - rewrite H. reflexivity.
  - rewrite H. destruct (submitted_answers data !! answers_name element);
      reflexivity.
Qed.

Lemma grade_unknown_answer_name_witness :
  grade dag_checker.grade_dag dag_checker.lcs_partial_credit
    (Examples.element ORDERED false None None []) Examples.empty_data
  = Raise KeyError.
Proof.
  apply grade_unknown_answer_name. left. reflexivity.
Defined.

(** X4: under [UNORDERED], grading against an empty list of correct answers
    raises [ZeroDivisionError], whatever the submission. *)
Theorem grade_unordered_no_correct_answers
    (gd : list (option string) → depends_graph_t → group_belonging_t →
          result (nat * nat))
    (lcs : list (option string) → depends_graph_t → group_belonging_t →
           result nat)
    (element : Element) (data : QuestionData) (sub : list SubmittedBlock) :
  grading_method element = Some UNORDERED →
  submitted_answers data !! answers_name element = Some sub →
  correct_answers data !! answers_name element = Some [] →
  grade gd lcs element data = Raise ZeroDivisionError.
Proof.
  intros Hm Hs Ht. unfold grade. rewrite Hs, Ht. simpl.
  rewrite grade_locals_unordered by exact Hm.
  unfold grade_unordered, float_div. simpl. reflexivity.
Qed.

Lemma grade_unordered_no_correct_answers_witness :
  grade dag_checker.grade_dag dag_checker.lcs_partial_credit
    (Examples.element UNORDERED false None None [])
    (Examples.data [] [Examples.sa])
  = Raise ZeroDivisionError.
Proof.
  apply (grade_unordered_no_correct_answers
           dag_checker.grade_dag dag_checker.lcs_partial_credit
           (Examples.element UNORDERED false None None [])
           (Examples.data [] [Examples.sa]) [Examples.sa]); reflexivity.
Defined.

Lemma mapM_subscript_missing {A B} (f : A → option B) (l : list A) x :
  x ∈ l → f x = None → mapM (λ a, subscript (f a)) l = Raise KeyError.
Proof.
  intros Hx Hf. induction l as [|y l IH]; [inversion Hx|].
  change (mapM (λ a, subscript (f a)) (y :: l))
    with (b ← subscript (f y);
          k ← mapM (λ a, subscript (f a)) l; Ok (b :: k)).
  destruct (f y) as [b|] eqn:Hy; [|reflexivity]. simpl.
  apply elem_of_cons in Hx as [->|Hx]; [congruence|].
  rewrite (IH Hx). reflexivity.
Qed.

Lemma gate_block_tag_absent inds ans :
  s_tag ans = None → s_tag (gate_block inds ans) = None.
Proof.
  intros H. unfold gate_block, null_block. rewrite H.
  destruct (_ && _); [reflexivity | exact H].
Qed.

(** X5: under [RANKING] and [DAG], [grade] reads the key ["tag"] of every
    submitted block: a submission with a block that lacks the key (one that
    [parse] did not complete) raises [KeyError], before [grade_dag] is
    called. *)
Theorem grade_graph_missing_tag
    (gd : list (option string) → depends_graph_t → group_belonging_t →
          result (nat * nat))
    (lcs : list (option string) → depends_graph_t → group_belonging_t →
           result nat)
    (element : Element) (T : list OrderBlocksAnswerData)
    (sub : list SubmittedBlock) (ans : SubmittedBlock) :
  default GRADING_METHOD_DEFAULT (grading_method element) = RANKING
  ∨ default GRADING_METHOD_DEFAULT (grading_method element) = DAG →
  ans ∈ sub →
  s_tag ans = None →
  grade_locals gd lcs element T sub = Raise KeyError.
Proof.
  intros Hm Hin Htag. rewrite grade_locals_graph by exact Hm.
  unfold grade_graph, graph_model.
  set (ci := default INDENTION_DEFAULT (indentation element)).
  assert (∃ ans', ans' ∈ indentation_gate ci T sub ∧ s_tag ans' = None)
    as (ans' & Hin' & Htag').
  { unfold indentation_gate. destruct ci; [|by exists ans].
    exists (gate_block (indentations T) ans). split.
    - apply list_elem_of_fmap_2. exact Hin.
    - apply gate_block_tag_absent, Htag. }
  rewrite (mapM_subscript_missing s_tag _ ans' Hin' Htag'). reflexivity.
Qed.

Lemma grade_graph_missing_tag_witness :
  grade_locals dag_checker.grade_dag dag_checker.lcs_partial_credit
    (Examples.element DAG false None None [])
    [Examples.a; Examples.b] [Examples.sa; Examples.sb]
  = Raise KeyError.
Proof.
  apply (grade_graph_missing_tag _ _ _ _ _ Examples.sa).
  - right. reflexivity.
  - apply list_elem_of_here.
  - reflexivity.
Defined.

Lemma null_block_idemp ans : null_block (null_block ans) = null_block ans.
Proof. unfold null_block. destruct (s_tag ans); reflexivity. Qed.

Lemma null_block_indent ans : s_indent (null_block ans) = s_indent ans.
Proof. unfold null_block. destruct (s_tag ans); reflexivity. Qed.

Lemma gate_block_idemp inds ans :
  gate_block inds (gate_block inds ans) = gate_block inds ans.
Proof.
  unfold gate_block.
  destruct (bool_decide (default None (inds !! s_uuid ans) ≠ Some (-1))
            && bool_decide (s_indent ans ≠ default None (inds !! s_uuid ans)))
    eqn:E; rewrite ?null_block_uuid, ?null_block_indent, E;
    [apply null_block_idemp | reflexivity].
Qed.

Lemma indentation_gate_idemp b T sub :
  indentation_gate b T (indentation_gate b T sub) = indentation_gate b T sub.
Proof.
  unfold indentation_gate. destruct b; [|reflexivity].
  rewrite <- list_fmap_compose. apply list_fmap_ext.
  intros i x _. apply gate_block_idemp.
Qed.

Lemma grade_locals_gated gd lcs element T sub :
  grade_locals gd lcs element T
    (indentation_gate (default INDENTION_DEFAULT (indentation element)) T sub)
  = grade_locals gd lcs element T sub.
Proof.
  unfold grade_locals. rewrite indentation_gate_idemp. reflexivity.
Qed.

(** X6: grading is stable: when [grade] returns, grading the data that it
    returned yields these data again. The gate finds the blocks that it
    nulled unchanged, and the score, feedback and weight are rewritten with
    the same values. *)
Theorem grade_regrade_stable
    (gd : list (option string) → depends_graph_t → group_belonging_t →
          result (nat * nat))
    (lcs : list (option string) → depends_graph_t → group_belonging_t →
           result nat)
    (element : Element) (data data' : QuestionData) :
  grade gd lcs element data = Ok data' →
  grade gd lcs element data' = Ok data'.
Proof.
  unfold grade. intros H.
  apply bind_Ok in H as (sub & Hsub & H).
  apply bind_Ok in H as (T & HT & H).
  apply bind_Ok in H as (g & Hg & [= <-]). simpl.
  rewrite lookup_insert_eq, HT. simpl.
  rewrite (grade_locals_student_answer _ _ _ _ _ _ Hg).
  rewrite grade_locals_gated, Hg. simpl.
  rewrite !insert_insert_eq.
  rewrite (grade_locals_student_answer _ _ _ _ _ _ Hg). reflexivity.
Qed.

Lemma grade_regrade_stable_witness :
  ∃ data',
    grade dag_checker.grade_dag dag_checker.lcs_partial_credit
      (Examples.element ORDERED true None None [])
      (Examples.data [Examples.a] [Examples.sa_shifted]) = Ok data'
    ∧ grade dag_checker.grade_dag dag_checker.lcs_partial_credit
        (Examples.element ORDERED true None None []) data' = Ok data'.
Proof.
  destruct (grade dag_checker.grade_dag dag_checker.lcs_partial_credit
              (Examples.element ORDERED true None None [])
              (Examples.data [Examples.a] [Examples.sa_shifted]))
    as [data'|e] eqn:E.
  - exists data'. split; [reflexivity|].
    apply (grade_regrade_stable _ _ _ _ _ E).
  - vm_compute in E. discriminate E.
Defined.

Lemma grade_unordered_Permutation T T' (sub sub' : list SubmittedBlock) :
  T ≡ₚ T' → sub ≡ₚ sub' → grade_unordered T sub = grade_unordered T' sub'.
Proof.
  intros HT HS. unfold grade_unordered.
  rewrite (list_to_set_perm_L (C := gset string) (uuid <$> T) (uuid <$> T'))
    by (apply fmap_Permutation; exact HT).
  rewrite (list_to_set_perm_L (C := gset string) (s_uuid <$> sub)
                              (s_uuid <$> sub'))
    by (apply fmap_Permutation; exact HS).
  rewrite (Permutation_length HT), (Permutation_length HS). reflexivity.
Qed.

(** X7: under [UNORDERED] the score depends neither on the order of the
    submitted blocks nor on the order of the correct answers, whether
    indentation is checked or not. *)
Theorem grade_unordered_order_irrelevant
    (gd : list (option string) → depends_graph_t → group_belonging_t →
          result (nat * nat))
    (lcs : list (option string) → depends_graph_t → group_belonging_t →
           result nat)
    (element1 element2 : Element) (T1 T2 : list OrderBlocksAnswerData)
    (sub1 sub2 : list SubmittedBlock) :
  grading_method element1 = Some UNORDERED →
  grading_method element2 = Some UNORDERED →
  T1 ≡ₚ T2 →
  sub1 ≡ₚ sub2 →
  g_final_score <$> grade_locals gd lcs element1 T1 sub1
  = g_final_score <$> grade_locals gd lcs element2 T2 sub2.
Proof.
  intros H1 H2 HT HS.
  rewrite !grade_locals_unordered by assumption.
  rewrite (grade_unordered_Permutation T1 T2 sub1 sub2 HT HS).
  destruct (grade_unordered T2 sub2); reflexivity.
Qed.

Lemma grade_unordered_order_irrelevant_witness :
  g_final_score
    <$> grade_locals dag_checker.grade_dag dag_checker.lcs_partial_credit
          (Examples.element UNORDERED true None None [])
          [Examples.a; Examples.b; Examples.c] [Examples.sc; Examples.sa]
  = g_final_score
      <$> grade_locals dag_checker.grade_dag dag_checker.lcs_partial_credit
            (Examples.element UNORDERED false None None [])
            [Examples.c; Examples.a; Examples.b] [Examples.sa; Examples.sc].
Proof.
  apply grade_unordered_order_irrelevant; try reflexivity.
  - refine (bool_decide_unpack _ _). vm_compute. exact I.
  - apply perm_swap.
Defined.

(** X8: with indentation checking on, a submitted block whose uuid is the
    uuid of no correct answer (a distractor) is nulled whenever it carries
    an indent: [indentations.get] yields [None] for it, which differs from
    -1 and from every indent. *)
Theorem gate_nulls_unknown_block
    (T : list OrderBlocksAnswerData) (sub : list SubmittedBlock)
    (i : nat) (ans : SubmittedBlock) :
  sub !! i = Some ans →
  s_uuid ans ∉ uuid <$> T →
  (indentation_gate true T sub !! i
   = Some (if decide (s_indent ans = None) then ans else null_block ans)).
Proof.
  intros Hi Hu. rewrite (indentation_gate_lookup _ _ _ _ Hi). f_equal.
  unfold gate_block, indentations.
  rewrite (indentations_fold_notin T ∅ _ Hu), lookup_empty. simpl.
  destruct (decide (s_indent ans = None)) as [E|E].
  - rewrite E. reflexivity.
  - rewrite bool_decide_eq_true_2 by exact E. reflexivity.
Qed.

Lemma gate_nulls_unknown_block_witness :
  indentation_gate true [Examples.a] [Examples.sa; Examples.sb] !! 1%nat
  = Some (null_block Examples.sb).
Proof.
  apply (gate_nulls_unknown_block [Examples.a] [Examples.sa; Examples.sb]
           1%nat Examples.sb).
  - reflexivity.
  - refine (bool_decide_unpack _ _). vm_compute. exact I.
Defined.

(** ** Further properties of [solve_problem] and [extract_dag] *)

(** X9: whatever the grading method and the solver, a list that
    [solve_problem] returns is a rearrangement of the list it was given:
    no answer is dropped, added or changed. *)
Theorem solve_problem_Permutation
    (solve_dag : depends_graph_t → group_belonging_t → result (list string))
    (answers_list sol : list OrderBlocksAnswerData)
    (method : GradingMethodType) :
  solve_problem solve_dag answers_list method = Ok sol →
  sol ≡ₚ answers_list.
Proof.
  unfold solve_problem. destruct method.
  - by intros [= <-].
  - by intros [= <-].
  - intros [= <-]. apply sorted_Permutation.
  - destruct (extract_dag answers_list) as [dg gb]. intros H.
    apply bind_Ok in H as (solution & _ & H).
    destruct (forallb _ _); [|discriminate].
    injection H as <-. apply sorted_Permutation.
  - by intros [= <-].
Qed.

Lemma solve_problem_Permutation_witness :
  ∃ sol,
    solve_problem dag_checker.solve_dag
      [Examples.b; Examples.a; Examples.c] DAG = Ok sol
    ∧ sol ≡ₚ [Examples.b; Examples.a; Examples.c].
Proof.
  destruct (solve_problem dag_checker.solve_dag
              [Examples.b; Examples.a; Examples.c] DAG) as [sol|e] eqn:E.
  - exists sol. split; [reflexivity|].
    apply (solve_problem_Permutation _ _ _ _ E).
  - vm_compute in E. discriminate E.
Defined.

Lemma insert_by_filter_key {A} (key : A → Z) (x : A) (l : list A) (r : Z) :
  filter (λ a, key a = r) (insert_by Z.leb key x l)
  = if decide (key x = r) then x :: filter (λ a, key a = r) l
    else filter (λ a, key a = r) l.
Proof.
  induction l as [|y l IH]; simpl.
  - rewrite filter_cons. destruct (decide (key x = r)); reflexivity.
  - destruct (key x <=? key y) eqn:E.
    + rewrite filter_cons. destruct (decide (key x = r)); reflexivity.
    + apply Z.leb_gt in E. rewrite !filter_cons, IH.
      destruct (decide (key y = r)), (decide (key x = r)); try reflexivity.
      lia.
Qed.

Lemma sorted_filter_key {A} (key : A → Z) (l : list A) (r : Z) :
  filter (λ a, key a = r) (sorted Z.leb key l) = filter (λ a, key a = r) l.
Proof.
  induction l as [|x l IH]; [reflexivity|]. simpl.
  rewrite insert_by_filter_key, IH, filter_cons.
  destruct (decide (key x = r)); reflexivity.
Qed.

Lemma StronglySorted_weaken {A} (R R' : relation A) (l : list A) :
  (∀ a b, R a b → R' a b) → StronglySorted R l → StronglySorted R' l.
Proof.
  intros HR. induction 1 as [|x l _ IH Hall]; constructor; [exact IH|].
  eapply Forall_impl; [exact Hall|]. intros y. apply HR.
Qed.

(** X10: under [RANKING], [solve_problem] always returns; the answers come
    in ascending order of their ranking, the answers of one ranking keep the
    order that they had (the sort is stable), and solving the result again
    changes nothing. *)
Theorem solve_problem_ranking
    (solve_dag : depends_graph_t → group_belonging_t → result (list string))
    (answers_list : list OrderBlocksAnswerData) :
  ∃ sol,
    solve_problem solve_dag answers_list RANKING = Ok sol
    ∧ StronglySorted (λ a b, ranking a <= ranking b) sol
    ∧ (∀ r, filter (λ a, ranking a = r) sol
            = filter (λ a, ranking a = r) answers_list)
    ∧ solve_problem solve_dag sol RANKING = Ok sol.
Proof.
  exists (sorted Z.leb ranking answers_list).
  assert (StronglySorted (key_le Z.leb ranking)
            (sorted Z.leb ranking answers_list)) as Hs.
  { apply sorted_StronglySorted; [apply Z_leb_total | apply Z_leb_trans]. }
  split; [reflexivity|]. split; [|split].
  - eapply StronglySorted_weaken; [|exact Hs].
    intros a b Hab. unfold key_le in Hab. lia.
  - intros r. apply sorted_filter_key.
  - simpl. f_equal. apply sorted_id. exact Hs.
Qed.

Lemma list_index_None (solution : list string) t :
  t ∉ solution → list_index t solution = None.
Proof.
  induction solution as [|y l IH]; [reflexivity|].
  intros Hn. apply not_elem_of_cons in Hn as [Hne Hn]. simpl.
  destruct (decide (y = t)); [congruence|]. rewrite (IH Hn). reflexivity.
Qed.

(** X11: under [DAG], [solve_problem] orders the answers by the position of
    their tags in the solution of the solver. When the tags are distinct
    and the solution lists each of them once, the answers come out with
    their tags in exactly the order of the solution. *)
Theorem solve_problem_dag_follows_solution
    (solve_dag : depends_graph_t → group_belonging_t → result (list string))
    (answers_list : list OrderBlocksAnswerData) (solution : list string) :
  NoDup (tag <$> answers_list) →
  solve_dag (extract_dag answers_list).1 (extract_dag answers_list).2
  = Ok solution →
  solution ≡ₚ tag <$> answers_list →
  ∃ sol,
    solve_problem solve_dag answers_list DAG = Ok sol
    ∧ tag <$> sol = solution.
Proof.
  intros Hnd Hsol Hp. unfold solve_problem.
  destruct (extract_dag answers_list) as [dg gb]. simpl in Hsol.
  rewrite Hsol. simpl.
  assert (forallb (λ x, bool_decide (is_Some (list_index (tag x) solution)))
                  answers_list = true) as ->.
  { apply forallb_forall. intros x Hx. apply bool_decide_eq_true_2.
    apply list_index_elem. rewrite Hp. apply list_elem_of_fmap_2.
    apply list_elem_of_In. exact Hx. }
  eexists. split; [reflexivity|].
  apply (sorted_by_position_tags answers_list solution Hnd Hp).
Qed.

Lemma solve_problem_dag_follows_solution_witness :
  ∃ sol,
    solve_problem (λ _ _, Ok ["A"; "C"; "B"])
      [Examples.b; Examples.a; Examples.c] DAG = Ok sol
    ∧ tag <$> sol = ["A"; "C"; "B"].
Proof.
  apply (solve_problem_dag_follows_solution (λ _ _, Ok ["A"; "C"; "B"])
           [Examples.b; Examples.a; Examples.c] ["A"; "C"; "B"]).
  - refine (bool_decide_unpack _ _). vm_compute. exact I.
  - reflexivity.
  - refine (bool_decide_unpack _ _). vm_compute. exact I.
Defined.

(** X12: under [DAG], when the solution of the solver lacks the tag of an
    answer, [solve_problem] raises the [ValueError] of [solution.index]. *)
Theorem solve_problem_dag_missing_tag
    (solve_dag : depends_graph_t → group_belonging_t → result (list string))
    (answers_list : list OrderBlocksAnswerData) (solution : list string)
    (ans : OrderBlocksAnswerData) :
  solve_dag (extract_dag answers_list).1 (extract_dag answers_list).2
  = Ok solution →
  ans ∈ answers_list →
  tag ans ∉ solution →
  solve_problem solve_dag answers_list DAG
  = Raise (ValueError "is not in list").
Proof.
  intros Hsol Hin Hn. unfold solve_problem.
  destruct (extract_dag answers_list) as [dg gb]. simpl in Hsol.
  rewrite Hsol. simpl.
  destruct (forallb _ _) eqn:E; [|reflexivity].
  rewrite forallb_forall in E.
  specialize (E ans (proj1 (list_elem_of_In _ _) Hin)).
  apply bool_decide_eq_true_1 in E.
  rewrite (list_index_None _ _ Hn) in E. by destruct E.
Qed.

Lemma solve_problem_dag_missing_tag_witness :
  solve_problem (λ _ _, Ok ["A"]) [Examples.a; Examples.b] DAG
  = Raise (ValueError "is not in list").
Proof.
  apply (solve_problem_dag_missing_tag (λ _ _, Ok ["A"])
           [Examples.a; Examples.b] ["A"] Examples.b).
  - reflexivity.
  - apply list_elem_of_further, list_elem_of_here.
  - refine (bool_decide_unpack _ _). vm_compute. exact I.
Defined.

(** X13: for correct answers as [prepare] builds them, the graph of
    [extract_dag] gives each tag the dependencies of its answer and each
    group tag the dependencies of the group, it has no other key, and the
    group membership gives each tag the group of its answer, in the order
    of the answers. *)
Theorem extract_dag_entries (l : list OrderBlocksAnswerData) :
  wf_answers l →
  (∀ a, a ∈ l →
     dict_get (tag a) (extract_dag l).1 = Some (depends a)
     ∧ dict_get (tag a) (extract_dag l).2 = Some (gi_tag (group_info a))
     ∧ ∀ g d, gi_tag (group_info a) = Some g →
              gi_depends (group_info a) = Some d →
              dict_get g (extract_dag l).1 = Some d)
  ∧ (∀ k, is_Some (dict_get k (extract_dag l).1) →
       k ∈ tag <$> l
       ∨ ∃ a, a ∈ l ∧ gi_tag (group_info a) = Some k)
  ∧ dict_keys (extract_dag l).2 = tag <$> l.
Proof.
  intros Hwf. split; [|split].
  - intros a Ha. split; [|split].
    + apply (extract_dag_dg l _ _ Hwf). left. by exists a.
    + apply (extract_dag_gb l _ _ Hwf). by exists a.
    + intros g d Hg Hd. apply (extract_dag_dg l _ _ Hwf). right. by exists a.
  - intros k [v Hv]. apply (extract_dag_dg l _ _ Hwf) in Hv as [H|H].
    + destruct H as (a & Ha & <- & _). left. by apply list_elem_of_fmap_2.
    + destruct H as (a & Ha & Hg & _). right. by exists a.
  - rewrite extract_dag_eq. simpl. destruct Hwf as (Hnd & _).
    rewrite (dict_comp_NoDup tag _ l Hnd). unfold dict_keys.
    rewrite <- list_fmap_compose. reflexivity.
Qed.

Lemma wf_answers_ungrouped (l : list OrderBlocksAnswerData) :
  NoDup (tag <$> l) → NoDup (uuid <$> l) →
  (∀ a, a ∈ l → gi_tag (group_info a) = None) →
  wf_answers l.
Proof.
  intros Ht Hu Hg. split; [exact Ht|]. split; [exact Hu|]. split.
  - intros a g Ha E. rewrite (Hg a Ha) in E. discriminate.
  - intros a b g Ha _ E. rewrite (Hg a Ha) in E. discriminate.
Qed.

Lemma extract_dag_entries_witness :
  dict_get "B" (extract_dag [Examples.a; Examples.b; Examples.c]).1
  = Some ["A"]
  ∧ dict_keys (extract_dag [Examples.a; Examples.b; Examples.c]).2
    = ["A"; "B"; "C"].
Proof.
  assert (wf_answers [Examples.a; Examples.b; Examples.c]) as Hwf.
  { apply wf_answers_ungrouped.
    - refine (bool_decide_unpack _ _). vm_compute. exact I.
    - refine (bool_decide_unpack _ _). vm_compute. exact I.
    - intros a Ha. rewrite !elem_of_cons, elem_of_nil in Ha.
      destruct Ha as [-> | [-> | [-> | []]]]; reflexivity. }
  destruct (extract_dag_entries _ Hwf) as (H1 & _ & H3).
  split.
  - destruct (H1 Examples.b) as (Hb & _).
    + apply list_elem_of_further, list_elem_of_here.
    + exact Hb.
  - exact H3.
Defined.

(** ** Further properties of [prepare] *)

Section traversal.
Variable grading_method : GradingMethodType.
Variable check_indentation : bool.
Variable format : FormatType.
Variable code_language : option string.

Lemma prepare_tag_rejected n idx gi st st' :
  node_rejected grading_method check_indentation n →
  prepare_tag grading_method check_indentation format code_language
              n idx gi st ≠ Ok st'.
Proof.
  intros Hrej H. unfold prepare_tag in H.
  destruct (decide (h_name n ≠ TagName "pl-answer")) as [Hn|Hn];
    [discriminate|].
  apply bind_Ok in H as ([] & Hc & H).
  unfold check_attribs in Hc.
  destruct (forallb _ _) eqn:Hall; [|discriminate].
  destruct (bool_decide (at_distractor_for (h_attrs n) ≠ None)
            && default PL_ANSWER_CORRECT_DEFAULT (at_correct (h_attrs n)))
    eqn:Hd; [discriminate|].
  destruct (get_graph_info _ _) as [t deps].
  destruct (_ && bool_decide (t ∈ st_used_tags st)); [discriminate|].
  destruct (negb check_indentation
            && bool_decide (at_indent (h_attrs n) ≠ None)) eqn:Hi;
    [discriminate|].
  destruct Hrej as [Hr|[Hr|[Hr|Hr]]].
  - done.
  - destruct Hr as (name & Hin & Hnot).
    rewrite forallb_forall in Hall.
    specialize (Hall name (proj1 (list_elem_of_In _ _) Hin)).
    by apply bool_decide_eq_true_1 in Hall.
  - destruct Hr as [Hr1 Hr2]. rewrite Hr2 in Hd.
    rewrite bool_decide_eq_true_2 in Hd by exact Hr1. discriminate.
  - destruct Hr as [-> Hr2].
    rewrite bool_decide_eq_true_2 in Hi by exact Hr2. discriminate.
Qed.

Lemma prepare_group_rejected grouped n gi st idx r :
  n ∈ grouped →
  node_rejected grading_method check_indentation n →
  prepare_group grading_method check_indentation format code_language
                grouped gi st idx ≠ Ok r.
Proof.
  intros Hin Hrej. revert st idx.
  induction grouped as [|m grouped IH]; [inversion Hin|].
  intros st idx H. simpl in H.
  apply bind_Ok in H as (st1 & H1 & H).
  apply elem_of_cons in Hin as [<-|Hin].
  - by apply prepare_tag_rejected in H1.
  - by apply (IH Hin) in H.
Qed.

Lemma prepare_child_rejected c st idx r :
  child_rejected grading_method check_indentation c →
  prepare_child grading_method check_indentation format code_language
                c st idx ≠ Ok r.
Proof.
  intros [Hnc Hrej] H. unfold prepare_child in H.
  destruct (decide (h_name (c_node c) = CommentNode)); [done|].
  destruct (decide (h_name (c_node c) = TagName "pl-block-group")).
  - destruct (decide (grading_method ≠ DAG)); [discriminate|].
    destruct Hrej as [Hm|(m & Hin & Hrej)]; [done|].
    destruct (get_graph_info _ _) as [gt gd].
    destruct (decide (gt ∈ st_used_tags st)); [discriminate|].
    by apply (prepare_group_rejected _ _ _ _ _ _ Hin Hrej) in H.
  - apply bind_Ok in H as (st1 & H1 & _).
    by apply prepare_tag_rejected in H1.
Qed.

Lemma prepare_children_rejected children c st idx r :
  c ∈ children →
  child_rejected grading_method check_indentation c →
  prepare_children grading_method check_indentation format code_language
                   children st idx ≠ Ok r.
Proof.
  intros Hin Hrej. revert st idx.
  induction children as [|d children IH]; [inversion Hin|].
  intros st idx H. simpl in H.
  apply bind_Ok in H as ([st1 idx1] & H1 & H).
  apply elem_of_cons in Hin as [<-|Hin].
  - by apply prepare_child_rejected in H1.
  - by apply (IH Hin) in H.
Qed.

(** The blocks that the traversal appends, by what they take over from
    their nodes. *)
Lemma prepare_tag_fields n idx gi st st' :
  prepare_tag grading_method check_indentation format code_language
              n idx gi st = Ok st' →
  block_fields <$> st_correct_answers st'
  = (block_fields <$> st_correct_answers st)
    ++ (node_fields format code_language
        <$> filter (λ n, is_correct_node n = true) [n])
  ∧ block_fields <$> st_incorrect_answers st'
    = (block_fields <$> st_incorrect_answers st)
      ++ (node_fields format code_language
          <$> filter (λ n, is_correct_node n = false) [n]).
Proof.
  intros H. unfold prepare_tag in H.
  destruct (decide (h_name n ≠ TagName "pl-answer")); [discriminate|].
  apply bind_Ok in H as ([] & _ & H).
  destruct (_ && default PL_ANSWER_CORRECT_DEFAULT (at_correct (h_attrs n)));
    [discriminate|].
  destruct (get_graph_info _ _) as [t deps].
  destruct (_ && bool_decide (t ∈ st_used_tags st)); [discriminate|].
  destruct (negb check_indentation && _); [discriminate|].
  injection H as <-. simpl.
  rewrite !filter_cons, ?filter_nil. unfold is_correct_node.
  destruct (default PL_ANSWER_CORRECT_DEFAULT (at_correct (h_attrs n)));
    simpl.
  - rewrite fmap_app, app_nil_r. done.
  - rewrite fmap_app, app_nil_r. done.
Qed.

Lemma prepare_group_fields grouped gi st idx st' idx' :
  prepare_group grading_method check_indentation format code_language
                grouped gi st idx = Ok (st', idx') →
  block_fields <$> st_correct_answers st'
  = (block_fields <$> st_correct_answers st)
    ++ (node_fields format code_language
        <$> filter (λ n, is_correct_node n = true) grouped)
  ∧ block_fields <$> st_incorrect_answers st'
    = (block_fields <$> st_incorrect_answers st)
      ++ (node_fields format code_language
          <$> filter (λ n, is_correct_node n = false) grouped).
Proof.
  revert st idx. induction grouped as [|m grouped IH]; intros st idx H.
  - injection H as <- <-. rewrite ?filter_nil; simpl; rewrite ?app_nil_r. done.
  - simpl in H. apply bind_Ok in H as (st1 & H1 & H).
    apply prepare_tag_fields in H1 as [H1c H1i].
    apply IH in H as [Hc Hi].
    rewrite Hc, Hi, H1c, H1i.
    change (m :: grouped) with ([m] ++ grouped).
    rewrite !filter_app, !fmap_app, !app_assoc. done.
Qed.

Lemma prepare_child_fields c st idx st' idx' :
  prepare_child grading_method check_indentation format code_language
                c st idx = Ok (st', idx') →
  block_fields <$> st_correct_answers st'
  = (block_fields <$> st_correct_answers st)
    ++ (node_fields format code_language
        <$> filter (λ n, is_correct_node n = true) (answer_nodes c))
  ∧ block_fields <$> st_incorrect_answers st'
    = (block_fields <$> st_incorrect_answers st)
      ++ (node_fields format code_language
          <$> filter (λ n, is_correct_node n = false) (answer_nodes c)).
Proof.
  intros H. unfold prepare_child in H. unfold answer_nodes.
  destruct (decide (h_name (c_node c) = CommentNode)).
  { injection H as <- <-. rewrite ?filter_nil; simpl; rewrite ?app_nil_r. done. }
  destruct (decide (h_name (c_node c) = TagName "pl-block-group")).
  - destruct (decide (grading_method ≠ DAG)); [discriminate|].
    destruct (get_graph_info _ _) as [gt gd].
    destruct (decide (gt ∈ st_used_tags st)); [discriminate|].
    apply prepare_group_fields in H. exact H.
  - apply bind_Ok in H as (st1 & H1 & [= <- <-]).
    apply prepare_tag_fields in H1. exact H1.
Qed.

Lemma prepare_children_fields children st idx st' idx' :
  prepare_children grading_method check_indentation format code_language
                   children st idx = Ok (st', idx') →
  block_fields <$> st_correct_answers st'
  = (block_fields <$> st_correct_answers st)
    ++ (node_fields format code_language
        <$> filter (λ n, is_correct_node n = true)
                   (children ≫= answer_nodes))
  ∧ block_fields <$> st_incorrect_answers st'
    = (block_fields <$> st_incorrect_answers st)
      ++ (node_fields format code_language
          <$> filter (λ n, is_correct_node n = false)
                     (children ≫= answer_nodes)).
Proof.
  revert st idx. induction children as [|c children IH]; intros st idx H.
  - injection H as <- <-. simpl. rewrite ?filter_nil; simpl; rewrite ?app_nil_r. done.
  - simpl in H. apply bind_Ok in H as ([st1 idx1] & H1 & H).
    apply prepare_child_fields in H1 as [H1c H1i].
    apply IH in H as [Hc Hi].
    rewrite Hc, Hi, H1c, H1i.
    change ((c :: children) ≫= answer_nodes)
      with (answer_nodes c ++ (children ≫= answer_nodes)).
    rewrite !filter_app, !fmap_app, !app_assoc. done.
Qed.
End traversal.

Lemma with_bin_fields bins a : block_fields (with_bin bins a) = block_fields a.
Proof. unfold with_bin. destruct (bins !! index a); reflexivity. Qed.

Lemma with_bin_fields_fmap bins (l : list OrderBlocksAnswerData) :
  block_fields <$> (with_bin bins <$> l) = block_fields <$> l.
Proof.
  rewrite <- list_fmap_compose. apply list_fmap_ext.
  intros i x _. apply with_bin_fields.
Qed.

Lemma solve_problem_perm
    (solve_dag : depends_graph_t → group_belonging_t → result (list string))
    (l sol : list OrderBlocksAnswerData) (method : GradingMethodType) :
  solve_problem solve_dag l method = Ok sol → sol ≡ₚ l.
Proof.
  unfold solve_problem. destruct method.
  - by intros [= <-].
  - by intros [= <-].
  - intros [= <-]. apply sorted_Permutation.
  - destruct (extract_dag l) as [dg gb]. intros H.
    apply bind_Ok in H as (solution & _ & H).
    destruct (forallb _ _); [|discriminate].
    injection H as <-. apply sorted_Permutation.
  - by intros [= <-].
Qed.

Section prepare_more.
Variable grade_dag :
  list (option string) → depends_graph_t → group_belonging_t →
  result (nat * nat).
Variable lcs_partial_credit :
  list (option string) → depends_graph_t → group_belonging_t → result nat.
Variable solve_dag :
  depends_graph_t → group_belonging_t → result (list string).
Variable random : Random.

(** What a preparation that completes has stored. *)
Lemma prepare_Ok_stored element data data' :
  prepare grade_dag lcs_partial_credit solve_dag random element data
  = Ok data' →
  ∃ st idx bins stored,
    prepare_children
      (default GRADING_METHOD_DEFAULT (grading_method element))
      (default INDENTION_DEFAULT (indentation element))
      (default FMT_DEFAULT (format element)) (code_language element)
      (el_children element)
      {| st_uuids := 0; st_used_tags := ∅;
         st_correct_answers := []; st_incorrect_answers := [] |} 0%nat
    = Ok (st, idx)
    ∧ stored ≡ₚ with_bin bins <$> st_correct_answers st
    ∧ correct_answers data' !! answers_name element = Some stored
    ∧ (default GRADING_METHOD_DEFAULT (grading_method element) ≠ EXTERNAL →
       st_correct_answers st ≠ []).
Proof.
  intros H. apply prepare_Ok_inv in H. cbv zeta in H.
  destruct H as (st & idx & all_blocks & bins & n & _ & Hch & Hne & _ & _ & _
                 & _ & graded & ps & _ & _ & Hstored).
  destruct Hstored as [[_ ->]|[_ (sol & Hsol & ->)]].
  - exists st, idx, bins, (with_bin bins <$> st_correct_answers st).
    split; [exact Hch|]. split; [reflexivity|].
    split; [apply lookup_insert_eq | exact Hne].
  - exists st, idx, bins, sol.
    split; [exact Hch|]. split; [exact (solve_problem_perm _ _ _ _ Hsol)|].
    split; [apply lookup_insert_eq | exact Hne].
Qed.

(** X14: [prepare] aborts on an element whose attributes do not fit each
    other: a [partial-credit] attribute or a first-wrong feedback outside
    of [RANKING] and [DAG], or a [code-language] without the format
    [code]. *)
Theorem prepare_rejects_element_attributes
    (element : Element) (data : QuestionData) :
  (default GRADING_METHOD_DEFAULT (grading_method element) ≠ DAG
   ∧ default GRADING_METHOD_DEFAULT (grading_method element) ≠ RANKING
   ∧ (is_Some (partial_credit element)
      ∨ default FEEDBACK_DEFAULT (feedback element) = FIRST_WRONG))
  ∨ (default FMT_DEFAULT (format element) = FMT_DEFAULT
     ∧ is_Some (code_language element)) →
  ∃ msg,
    prepare grade_dag lcs_partial_credit solve_dag random element data
    = Raise (Exception msg).
Proof.
  intros H. unfold prepare, prepare_checks.
  destruct (bool_decide (default GRADING_METHOD_DEFAULT
                           (grading_method element) ≠ DAG)
            && bool_decide (default GRADING_METHOD_DEFAULT
                              (grading_method element) ≠ RANKING)
            && bool_decide (is_Some (partial_credit element))) eqn:E1;
    [by eexists|].
  destruct (bool_decide (default GRADING_METHOD_DEFAULT
                           (grading_method element) ≠ DAG)
            && bool_decide (default GRADING_METHOD_DEFAULT
                              (grading_method element) ≠ RANKING)
            && bool_decide (default FEEDBACK_DEFAULT (feedback element)
                            ≠ FB_NONE)) eqn:E2;
    [by eexists|].
  destruct (bool_decide (default FMT_DEFAULT (format element) = FMT_DEFAULT)
            && bool_decide (code_language element ≠ None)) eqn:E3;
    [by eexists|].
  exfalso. destruct H as [(Hd & Hr & [Hp|Hf])|[Hfmt Hcl]].
  - rewrite !bool_decide_eq_true_2 in E1 by assumption. discriminate.
  - rewrite (bool_decide_eq_true_2 _ Hd), (bool_decide_eq_true_2 _ Hr) in E2.
    rewrite bool_decide_eq_true_2 in E2 by (rewrite Hf; discriminate).
    discriminate.
  - rewrite (bool_decide_eq_true_2 _ Hfmt) in E3.
    rewrite bool_decide_eq_true_2 in E3
      by (destruct Hcl as [x ->]; discriminate).
    discriminate.
Qed.

(** X15: [prepare] aborts when a child of the element is rejected: a block
    group outside of [DAG]; a node that is neither a [pl-answer] nor a
    block group; an answer with an attribute that the grading method does
    not allow, with [distractor-for] on a correct answer, or with [indent]
    while indentation is disabled; or a block group that holds such a
    node. A comment inside a block group is such a node, while a comment
    directly under the element is skipped. *)
Theorem prepare_rejects_markup
    (element : Element) (data : QuestionData) (c : HtmlChild) :
  c ∈ el_children element →
  child_rejected (default GRADING_METHOD_DEFAULT (grading_method element))
                 (default INDENTION_DEFAULT (indentation element)) c →
  is_Raise (prepare grade_dag lcs_partial_credit solve_dag random
                    element data).
Proof.
  intros Hin Hrej. apply is_Raise_not_Ok. intros data' H.
  apply prepare_Ok_stored in H as (st & idx & _ & _ & Hch & _).
  by apply (prepare_children_rejected _ _ _ _ _ _ _ _ _ Hin Hrej) in Hch.
Qed.

(** X16: outside of [EXTERNAL], [prepare] aborts when the markup declares
    no correct answer. *)
Theorem prepare_no_correct_answers
    (element : Element) (data : QuestionData) :
  default GRADING_METHOD_DEFAULT (grading_method element) ≠ EXTERNAL →
  correct_nodes element = [] →
  is_Raise (prepare grade_dag lcs_partial_credit solve_dag random
                    element data).
Proof.
  intros Hm Hnone. apply is_Raise_not_Ok. intros data' H.
  apply prepare_Ok_stored in H as (st & idx & _ & _ & Hch & _ & _ & Hne).
  apply prepare_children_fields in Hch as [Hc _]. simpl in Hc.
  unfold correct_nodes in Hnone. rewrite Hnone in Hc. simpl in Hc.
  apply fmap_nil_inv in Hc. by apply Hne.
Qed.

(** X17: the correct answers that [prepare] stores have pairwise distinct
    tags and pairwise distinct uuids, and outside of [EXTERNAL] there is at
    least one. *)
Theorem prepare_stores_distinct_answers
    (element : Element) (data data' : QuestionData) :
  prepare grade_dag lcs_partial_credit solve_dag random element data
  = Ok data' →
  ∃ stored,
    correct_answers data' !! answers_name element = Some stored
    ∧ NoDup (tag <$> stored)
    ∧ NoDup (uuid <$> stored)
    ∧ (default GRADING_METHOD_DEFAULT (grading_method element) ≠ EXTERNAL →
       stored ≠ []).
Proof.
  intros H.
  apply prepare_Ok_stored in H as (st & idx & bins & stored & Hch & Hp & Hl
                                   & Hne).
  apply prepare_children_wf in Hch; [|apply wf_state_init].
  destruct Hch as [Hwf _].
  apply (wf_answers_with_bin bins) in Hwf.
  apply (wf_answers_Permutation _ stored) in Hwf; [|by symmetry].
  destruct Hwf as (Ht & Hu & _).
  exists stored. split; [exact Hl|]. split; [exact Ht|]. split; [exact Hu|].
  intros Hm ->. apply Permutation_nil_l in Hp. symmetry in Hp.
  apply fmap_nil_inv in Hp. by apply (Hne Hm).
Qed.

(** X18: [prepare] writes the parameters and the correct answers under the
    answer name of the element and nothing else: the submitted answers and
    the partial scores of the data are those that it was given (the
    self-check runs on a copy), and so are the entries of other names. *)
Theorem prepare_frame
    (element : Element) (data data' : QuestionData) :
  prepare grade_dag lcs_partial_credit solve_dag random element data
  = Ok data' →
  submitted_answers data' = submitted_answers data
  ∧ partial_scores data' = partial_scores data
  ∧ ∀ name, name ≠ answers_name element →
      params data' !! name = params data !! name
      ∧ correct_answers data' !! name = correct_answers data !! name.
Proof.
  intros H. unfold prepare in H.
  apply bind_Ok in H as ([] & _ & H).
  apply bind_Ok in H as ([st idx] & _ & H).
  destruct (_ && bool_decide (length (st_correct_answers st) = 0%nat));
    [discriminate|].
  apply bind_Ok in H as (all_blocks & _ & H).
  destruct (decide (incorrect_tags all_blocks ⊆ correct_tags all_blocks));
    [|discriminate].
  destruct (assign_bins all_blocks (st_uuids st)) as [bins n].
  apply bind_Ok in H as (graded & _ & H).
  apply bind_Ok in H as (ps & _ & H).
  destruct (Qeq_bool (score ps) 1).
  - injection H as <-. simpl. split; [done|]. split; [done|].
    intros name Hn. rewrite !lookup_insert_ne by done. done.
  - apply bind_Ok in H as (solution & _ & [= <-]). simpl.
    split; [done|]. split; [done|].
    intros name Hn. rewrite !lookup_insert_ne by done. done.
Qed.

(** X19: [prepare] aborts when [min-incorrect] or [max-incorrect] exceeds
    the number of incorrect answers that the markup declares, or when
    [min-incorrect] exceeds [max-incorrect]; an attribute that is absent
    counts as that number. *)
Theorem prepare_incorrect_bounds
    (element : Element) (data : QuestionData) :
  let declared := Z.of_nat (length (incorrect_nodes element)) in
  let max_incorrect := default declared (max_incorrect element) in
  let min_incorrect := default declared (min_incorrect element) in
  min_incorrect > declared ∨ max_incorrect > declared
  ∨ min_incorrect > max_incorrect →
  is_Raise (prepare grade_dag lcs_partial_credit solve_dag random
                    element data).
Proof.
  intros declared mx mn Hbad. apply is_Raise_not_Ok. intros data' H.
  apply prepare_Ok_inv in H. cbv zeta in H.
  destruct H as (st & idx & all_blocks & bins & n & _ & Hch & _ & Hb & _).
  apply prepare_children_fields in Hch as [_ Hi]. simpl in Hi.
  apply (f_equal length) in Hi. rewrite !length_fmap in Hi.
  fold (incorrect_nodes element) in Hi.
  unfold prepare_blocks in Hb. rewrite Hi in Hb.
  fold declared in Hb. fold mx in Hb. fold mn in Hb.
  destruct (bool_decide (mn > declared) || bool_decide (mx > declared))
    eqn:E1; [discriminate|].
  destruct (bool_decide (mn > mx)) eqn:E2; [discriminate|].
  apply orb_false_iff in E1 as [E1a E1b].
  apply bool_decide_eq_false in E1a, E1b, E2. lia.
Qed.

(** X20: the correct answers that [prepare] stores are the correct answers
    of the markup: up to their order, they carry the contents (wrapped in
    [pl-code] under the format [code]), the indents and the rankings of
    the nodes that are not marked [correct=false], and no
    [distractor-for]. *)
Theorem prepare_stored_fields
    (element : Element) (data data' : QuestionData) :
  prepare grade_dag lcs_partial_credit solve_dag random element data
  = Ok data' →
  ∃ stored,
    correct_answers data' !! answers_name element = Some stored
    ∧ block_fields <$> stored
      ≡ₚ node_fields (default FMT_DEFAULT (format element))
                     (code_language element)
         <$> correct_nodes element
    ∧ ∀ a, a ∈ stored → distractor_for a = None.
Proof.
  intros H.
  pose proof H as H'.
  apply prepare_Ok_stored in H as (st & idx & bins & stored & Hch & Hp & Hl
                                   & _).
  pose proof Hch as Hch'.
  apply prepare_children_fields in Hch as [Hc _]. simpl in Hc.
  fold (correct_nodes element) in Hc.
  assert (block_fields <$> stored
          ≡ₚ node_fields (default FMT_DEFAULT (format element))
                         (code_language element)
             <$> correct_nodes element) as Hfields.
  { rewrite Hp, with_bin_fields_fmap, Hc. reflexivity. }
  exists stored. split; [exact Hl|]. split; [exact Hfields|].
  intros a Ha.
  assert (block_fields a ∈ block_fields <$> stored) as Hin
    by (by apply list_elem_of_fmap_2).
  rewrite Hfields in Hin.
  apply list_elem_of_fmap in Hin as (n & Hn & Hnin).
  unfold correct_nodes in Hnin. apply list_elem_of_filter in Hnin as [Hcor Hnin].
  apply (f_equal snd) in Hn. simpl in Hn. rewrite Hn.
  (* a correct node with a [distractor-for] is rejected *)
  destruct (at_distractor_for (h_attrs n)) as [d|] eqn:Hd; [|reflexivity].
  exfalso.
  apply list_elem_of_bind in Hnin as (c & Hnc & Hc').
  assert (child_rejected
            (default GRADING_METHOD_DEFAULT (grading_method element))
            (default INDENTION_DEFAULT (indentation element)) c) as Hrej.
  { unfold answer_nodes in Hnc. unfold child_rejected.
    destruct (decide (h_name (c_node c) = CommentNode));
      [by apply elem_of_nil in Hnc|].
    split; [done|].
    assert (node_rejected
              (default GRADING_METHOD_DEFAULT (grading_method element))
              (default INDENTION_DEFAULT (indentation element)) n) as Hnr.
    { right. right. left. split; [by rewrite Hd | exact Hcor]. }
    destruct (decide (h_name (c_node c) = TagName "pl-block-group")).
    - right. by exists n.
    - apply list_elem_of_singleton in Hnc as ->. exact Hnr. }
  by apply (prepare_children_rejected _ _ _ _ _ _ _ _ _ Hc' Hrej) in Hch'.
Qed.
End prepare_more.

Lemma prepare_rejects_element_attributes_witness :
  ∃ msg,
    prepare dag_checker.grade_dag dag_checker.lcs_partial_credit
            dag_checker.solve_dag Examples.random
            (Examples.element UNORDERED false (Some LCS) None
               [Examples.answer "first line"
                  (Examples.attribs None None None None)])
            Examples.empty_data
    = Raise (Exception msg).
Proof.
  apply prepare_rejects_element_attributes. left.
  split; [discriminate|]. split; [discriminate|]. left. by eexists.
Defined.

Lemma prepare_rejects_markup_witness :
  is_Raise
    (prepare dag_checker.grade_dag dag_checker.lcs_partial_credit
             dag_checker.solve_dag Examples.random
             (Examples.element DAG false None None
                [{| c_node := {| h_name := TagName "pl-block-group";
                                 h_attrs := Examples.attribs None (Some "g")
                                                             None None;
                                 h_inner := EmptyString |};
                    c_children :=
                      [{| h_name := CommentNode;
                          h_attrs := Examples.attribs None None None None;
                          h_inner := "a remark" |};
                       c_node (Examples.answer "first line"
                                 (Examples.attribs None None None None))] |}])
             Examples.empty_data).
Proof.
  eapply prepare_rejects_markup.
  - apply list_elem_of_here.
  - split; [discriminate|]. simpl.
    destruct (decide (TagName "pl-block-group" = TagName "pl-block-group"))
      as [_|Hne]; [|by destruct Hne].
    right. eexists. split; [apply list_elem_of_here|].
    left. discriminate.
Defined.

Lemma prepare_no_correct_answers_witness :
  is_Raise
    (prepare dag_checker.grade_dag dag_checker.lcs_partial_credit
             dag_checker.solve_dag Examples.random
             (Examples.element ORDERED false None None
                [Examples.answer "wrong line"
                   (Examples.attribs (Some false) None None None)])
             Examples.empty_data).
Proof.
  apply prepare_no_correct_answers; [discriminate | reflexivity].
Defined.

Lemma prepare_stores_distinct_answers_witness :
  ∃ data' stored,
    prepare dag_checker.grade_dag dag_checker.lcs_partial_credit
            dag_checker.solve_dag Examples.random
            Examples.dag_out_of_order Examples.empty_data = Ok data'
    ∧ correct_answers data' !! "order" = Some stored
    ∧ NoDup (tag <$> stored)
    ∧ NoDup (uuid <$> stored).
Proof.
  destruct (prepare dag_checker.grade_dag dag_checker.lcs_partial_credit
              dag_checker.solve_dag Examples.random
              Examples.dag_out_of_order Examples.empty_data)
    as [data'|e] eqn:E.
  - destruct (prepare_stores_distinct_answers _ _ _ _ _ _ _ E)
      as (stored & H1 & H2 & H3 & _).
    exists data', stored. split; [reflexivity|]. split; [exact H1|].
    split; [exact H2 | exact H3].
  - vm_compute in E. discriminate E.
Defined.

Lemma prepare_frame_witness :
  ∃ data',
    prepare dag_checker.grade_dag dag_checker.lcs_partial_credit
            dag_checker.solve_dag Examples.random
            Examples.ranking_out_of_order
            (Examples.data [Examples.a] [Examples.sa]) = Ok data'
    ∧ submitted_answers data'
      = submitted_answers (Examples.data [Examples.a] [Examples.sa])
    ∧ partial_scores data'
      = partial_scores (Examples.data [Examples.a] [Examples.sa]).
Proof.
  destruct (prepare dag_checker.grade_dag dag_checker.lcs_partial_credit
              dag_checker.solve_dag Examples.random
              Examples.ranking_out_of_order
              (Examples.data [Examples.a] [Examples.sa]))
    as [data'|e] eqn:E.
  - destruct (prepare_frame _ _ _ _ _ _ _ E) as (H1 & H2 & _).
    exists data'. split; [reflexivity|]. split; [exact H1 | exact H2].
  - vm_compute in E. discriminate E.
Defined.

Lemma prepare_incorrect_bounds_witness :
  is_Raise
    (prepare dag_checker.grade_dag dag_checker.lcs_partial_credit
             dag_checker.solve_dag Examples.random
             {| answers_name := "order"; source_blocks_order := None;
                grading_method := Some ORDERED; indentation := None;
                max_incorrect := Some 2; min_incorrect := None;
                weight := None; feedback := None; partial_credit := None;
                format := None; code_language := None;
                el_children :=
                  [Examples.answer "first line"
                     (Examples.attribs None None None None);
                   Examples.answer "wrong line"
                     (Examples.attribs (Some false) None None None)] |}
             Examples.empty_data).
Proof.
  apply prepare_incorrect_bounds. right. left. vm_compute. reflexivity.
Defined.

Lemma prepare_stored_fields_witness :
  ∃ data' stored,
    prepare dag_checker.grade_dag dag_checker.lcs_partial_credit
            dag_checker.solve_dag Examples.random
            Examples.ranking_out_of_order Examples.empty_data = Ok data'
    ∧ correct_answers data' !! "order" = Some stored
    ∧ block_fields <$> stored
      ≡ₚ [("second line", None, 2, None); ("first line", None, 1, None);
          ("third line", None, 2, None)].
Proof.
  destruct (prepare dag_checker.grade_dag dag_checker.lcs_partial_credit
              dag_checker.solve_dag Examples.random
              Examples.ranking_out_of_order Examples.empty_data)
    as [data'|e] eqn:E.
  - destruct (prepare_stored_fields _ _ _ _ _ _ _ E) as (stored & H1 & H2 & _).
    exists data', stored. split; [reflexivity|]. split; [exact H1 | exact H2].
  - vm_compute in E. discriminate E.
Defined.

(** ** Tags and dependencies of a node *)

Lemma rstrip_idemp s : rstrip (rstrip s) = rstrip s.
Proof.
  induction s as [|c s IH]; [reflexivity|]. simpl.
  destruct (is_space c && bool_decide (rstrip s = EmptyString)) eqn:E;
    [reflexivity|].
  simpl. rewrite IH, E. reflexivity.
Qed.

Lemma lstrip_head s :
  match lstrip s with
  | EmptyString => True
  | String c _ => is_space c = false
  end.
Proof.
  induction s as [|c s IH]; [exact I|]. simpl.
  destruct (is_space c) eqn:E; [exact IH|]. exact E.
Qed.

Lemma strip_idemp s : strip (strip s) = strip s.
Proof.
  unfold strip. pose proof (lstrip_head s) as H.
  destruct (lstrip s) as [|c t]; [reflexivity|].
  repeat (simpl; rewrite ?H). simpl.
  f_equal. apply rstrip_idemp.
Qed.

Lemma split_nonempty sep s : split sep s ≠ [].
Proof.
  destruct s as [|c s]; simpl; [discriminate|].
  destruct (decide (c = sep)); [discriminate|].
  destruct (split sep s); discriminate.
Qed.

Lemma join_cons (sep x y : string) (l : list string) :
  join sep (x :: y :: l) = x +:+ sep +:+ join sep (y :: l).
Proof. reflexivity. Qed.

Lemma split_join sep s :
  join (String sep EmptyString) (split sep s) = s.
Proof.
  induction s as [|c s IH]; [reflexivity|]. simpl.
  pose proof (split_nonempty sep s) as Hne.
  destruct (split sep s) as [|h t]; [done|].
  destruct (decide (c = sep)) as [->|Hc].
  - rewrite join_cons. rewrite IH. reflexivity.
  - destruct t as [|y t].
    + simpl in *. by rewrite IH.
    + rewrite join_cons. rewrite join_cons in IH.
      rewrite <- IH. reflexivity.
Qed.

Lemma split_pieces sep s :
  Forall (λ p, sep ∉ String.list_ascii_of_string p) (split sep s).
Proof.
  induction s as [|c s IH]; simpl.
  - constructor; [|constructor]. simpl. apply not_elem_of_nil.
  - pose proof (split_nonempty sep s) as Hne.
    destruct (decide (c = sep)) as [->|Hc].
    + constructor; [|exact IH]. simpl. apply not_elem_of_nil.
    + destruct (split sep s) as [|h t]; [done|].
      apply Forall_cons in IH as [Hh Ht].
      constructor; [|exact Ht]. simpl.
      apply not_elem_of_cons. split; [congruence | exact Hh].
Qed.

(** X21: the tag that [get_graph_info] returns has no white space at
    either end (stripping it again changes nothing), and neither has any
    of the dependencies. The dependencies are empty exactly when the
    [depends] attribute is absent or empty; otherwise they are the
    stripped pieces of the attribute between its commas, in order, so a
    piece of white space only yields an empty dependency. *)
Theorem get_graph_info_stripped (fresh : string) (a : Attribs) :
  strip (get_graph_info fresh a).1 = (get_graph_info fresh a).1
  ∧ Forall (λ d, strip d = d) (get_graph_info fresh a).2
  ∧ ((get_graph_info fresh a).2 = []
     ↔ at_depends a = None ∨ at_depends a = Some EmptyString)
  ∧ ∀ d, at_depends a = Some d → d ≠ EmptyString →
      ∃ pieces,
        join "," pieces = d
        ∧ Forall (λ p, comma ∉ String.list_ascii_of_string p) pieces
        ∧ (get_graph_info fresh a).2 = strip <$> pieces.
Proof.
  unfold get_graph_info. simpl. split; [apply strip_idemp|].
  destruct (at_depends a) as [d|]; simpl.
  - destruct (decide (d = EmptyString)) as [->|Hd].
    + split; [constructor|]. split; [split; [by right | done]|].
      intros d [= <-] Hd. done.
    + split; [|split].
      * apply Forall_fmap, Forall_forall. intros p _. apply strip_idemp.
      * split.
        -- intros H. apply fmap_nil_inv in H.
           by apply split_nonempty in H.
        -- intros [H|[= H]]; [discriminate | done].
      * intros d' [= <-] _. exists (split comma d).
        split; [apply (split_join comma)|].
        split; [apply split_pieces | reflexivity].
  - split; [constructor|]. split; [split; [by left | done]|].
    intros d [=].
Qed.

Lemma get_graph_info_stripped_witness :
  ∃ pieces,
    join "," pieces = "a , b"
    ∧ (get_graph_info "fresh"
         (Examples.attribs None (Some " t ") (Some "a , b") None)).2
      = strip <$> pieces.
Proof.
  destruct (get_graph_info_stripped "fresh"
              (Examples.attribs None (Some " t ") (Some "a , b") None))
    as (_ & _ & _ & H).
  destruct (H "a , b" eq_refl) as (pieces & H1 & _ & H2); [discriminate|].
  exists pieces. split; [exact H1 | exact H2].
Defined.

(** ** Projection of dictionaries *)

Lemma mapM_result_cons {A B} (f : A → result B) (x : A) (l : list A) :
  mapM f (x :: l) = (y ← f x; k ← mapM f l; Ok (y :: k)).
Proof. reflexivity. Qed.

Lemma mapM_result_Forall2 {A B} (f : A → result B) (l : list A)
    (P : A → B → Prop) :
  Forall (λ x, ∃ y, f x = Ok y ∧ P x y) l →
  ∃ out, mapM f l = Ok out ∧ Forall2 P l out.
Proof.
  induction 1 as [|x l (y & Hy & HP) _ (k & Hk & IH)].
  - exists []. split; [reflexivity | constructor].
  - exists (y :: k). rewrite mapM_result_cons, Hy. simpl. rewrite Hk.
    split; [reflexivity | by constructor].
Qed.

Lemma mapM_result_KeyError {A B} (f : A → result B) (l : list A) :
  Forall (λ x, is_Ok (f x) ∨ f x = Raise KeyError) l →
  Exists (λ x, f x = Raise KeyError) l →
  mapM f l = Raise KeyError.
Proof.
  induction 1 as [|x l Hx _ IH]; intros Hex; [by apply Exists_nil in Hex|].
  rewrite mapM_result_cons.
  destruct Hx as [[y Hy]|Hx]; [|by rewrite Hx].
  rewrite Hy. simpl.
  apply Exists_cons in Hex as [Hex|Hex]; [congruence|].
  rewrite (IH Hex). reflexivity.
Qed.

Lemma project_keys_Ok {V} (item : pydict string V) (keys : list string)
    (acc : pydict string V) :
  (∀ k, k ∈ keys → is_Some (dict_get k item)) →
  ∃ o, project_keys item keys acc = Ok o
       ∧ ∀ k, dict_get k o
              = if decide (k ∈ keys) then dict_get k item
                else dict_get k acc.
Proof.
  revert acc. induction keys as [|key keys IH]; intros acc Hall.
  - exists acc. split; [reflexivity|]. intros k.
    destruct (decide (k ∈ [])) as [Hin|_]; [by apply elem_of_nil in Hin|done].
  - destruct (Hall key (list_elem_of_here _ _)) as [v Hv].
    destruct (IH (dict_set key v acc)) as (o & Ho & Hget).
    { intros k Hk. apply Hall. by apply list_elem_of_further. }
    exists o. simpl. rewrite Hv. simpl. split; [exact Ho|].
    intros k. rewrite Hget.
    destruct (decide (k ∈ keys)) as [Hk|Hk].
    + rewrite decide_True by (by apply list_elem_of_further). done.
    + destruct (decide (key = k)) as [->|Hne].
      * rewrite decide_True by apply list_elem_of_here.
        rewrite dict_get_set_eq. by rewrite Hv.
      * rewrite decide_False.
        -- by apply dict_get_set_ne.
        -- intros Hin. apply elem_of_cons in Hin as [->|Hin]; done.
Qed.

Lemma project_keys_result {V} (item : pydict string V) (keys : list string)
    (acc : pydict string V) :
  is_Ok (project_keys item keys acc)
  ∨ project_keys item keys acc = Raise KeyError.
Proof.
  revert acc. induction keys as [|key keys IH]; intros acc; simpl.
  - left. by eexists.
  - destruct (dict_get key item); simpl; [apply IH | by right].
Qed.

Lemma project_keys_KeyError {V} (item : pydict string V) (keys : list string)
    (acc : pydict string V) k :
  k ∈ keys → dict_get k item = None →
  project_keys item keys acc = Raise KeyError.
Proof.
  intros Hin Hk. revert acc.
  induction keys as [|key keys IH]; intros acc; [by apply elem_of_nil in Hin|].
  simpl. destruct (dict_get key item) as [v|] eqn:Hv; [|reflexivity]. simpl.
  apply elem_of_cons in Hin as [->|Hin]; [congruence|]. by apply IH.
Qed.

(** X23: for the dictionaries of correct answers and the keys
    ["inner_html"], ["indent"] and ["uuid"], as [test] calls it,
    [filter_multiple_from_array] returns the dictionaries of their raw
    blocks: content, indent and uuid, and no tag. *)
Theorem filter_multiple_from_array_answers (l : list OrderBlocksAnswerData) :
  filter_multiple_from_array (answer_dict <$> l)
                             ["inner_html"; "indent"; "uuid"]
  = Ok (block_dict <$> (raw_block <$> l)).
Proof.
  unfold filter_multiple_from_array.
  induction l as [|a l IH]; [reflexivity|].
  rewrite !fmap_cons, mapM_result_cons, IH.
  destruct a as [ih ind rk ix tg df dp gi db uu].
  destruct db; reflexivity.
Qed.

(** X22: [filter_multiple_from_array] returns when every dictionary has
    every key of the list, with one dictionary per input dictionary that
    agrees with it on the keys of the list and has no other key; it raises
    [KeyError] when a dictionary lacks one of the keys. *)
Theorem filter_multiple_from_array_spec {V}
    (data : list (pydict string V)) (keys : list string) :
  (Forall (λ item, ∀ k, k ∈ keys → is_Some (dict_get k item)) data →
   ∃ out,
     filter_multiple_from_array data keys = Ok out
     ∧ Forall2 (λ item o,
                  ∀ k, dict_get k o
                       = if decide (k ∈ keys) then dict_get k item else None)
               data out)
  ∧ (Exists (λ item, ∃ k, k ∈ keys ∧ dict_get k item = None) data →
     filter_multiple_from_array data keys = Raise KeyError).
Proof.
  unfold filter_multiple_from_array. split.
  - intros Hall. apply mapM_result_Forall2.
    eapply Forall_impl; [exact Hall|]. intros item Hitem.
    destruct (project_keys_Ok item keys [] Hitem) as (o & Ho & Hget).
    exists o. split; [exact Ho|]. intros k. rewrite Hget.
    destruct (decide (k ∈ keys)); reflexivity.
  - intros Hex. apply mapM_result_KeyError.
    + apply Forall_forall. intros item _. apply project_keys_result.
    + eapply Exists_impl; [exact Hex|]. intros item (k & Hin & Hk).
      by apply (project_keys_KeyError item keys [] k).
Qed.

Lemma filter_multiple_from_array_spec_witness :
  (∃ out,
     filter_multiple_from_array
       (answer_dict <$> [Examples.a; Examples.b]) ["uuid"; "indent"]
     = Ok out
     ∧ length out = 2%nat)
  ∧ filter_multiple_from_array
      (block_dict <$> [Examples.sa]) ["uuid"; "tag"]
    = Raise KeyError.
Proof.
  destruct (filter_multiple_from_array_spec
              (answer_dict <$> [Examples.a; Examples.b]) ["uuid"; "indent"])
    as [H1 _].
  destruct (filter_multiple_from_array_spec
              (block_dict <$> [Examples.sa]) ["uuid"; "tag"]) as [_ H2].
  split.
  - destruct H1 as (out & Hout & Hall).
    + repeat constructor; intros k Hk;
        rewrite !elem_of_cons, elem_of_nil in Hk;
        destruct Hk as [->|[->|[]]]; by eexists.
    + exists out. split; [exact Hout|].
      apply Forall2_length in Hall. by rewrite <- Hall.
  - apply H2. apply Exists_cons_hd. exists "tag".
    split; [|reflexivity]. apply list_elem_of_further, list_elem_of_here.
Defined.

(** ** Parsing *)

Lemma append_cons (x : Ascii.ascii) (a b : string) :
  String x a +:+ b = String x (a +:+ b).
Proof. reflexivity. Qed.

Lemma append_length (a b : string) :
  String.length (a +:+ b) = (String.length a + String.length b)%nat.
Proof.
  induction a as [|c a IH]; [reflexivity|].
  rewrite append_cons. simpl. by rewrite IH.
Qed.

Lemma raw_name_ne (name : string) : name +:+ "-input" ≠ name.
Proof.
  intros H. apply (f_equal String.length) in H.
  rewrite append_length in H. simpl in H. lia.
Qed.

Lemma append_empty (a b : string) : a +:+ b = EmptyString → b = EmptyString.
Proof. destruct a; [done | discriminate]. Qed.

Lemma append_assoc (a b c : string) : (a +:+ b) +:+ c = a +:+ (b +:+ c).
Proof.
  induction a as [|x a IH]; [reflexivity|].
  rewrite !append_cons. by rewrite IH.
Qed.

Lemma append_empty_r (a : string) : a +:+ EmptyString = a.
Proof.
  induction a as [|x a IH]; [reflexivity|].
  rewrite !append_cons. by rewrite IH.
Qed.

Lemma search_Some T b a :
  search T b = Some a →
  ∃ T1 T2, T = T1 ++ a :: T2
           ∧ Some (inner_html a) = s_inner_html b
           ∧ Forall (λ x, Some (inner_html x) ≠ s_inner_html b) T1.
Proof.
  unfold search. intros H.
  pose proof (head_Some_elem_of _ _ H) as Hin.
  apply list_elem_of_filter in Hin as [Hm _].
  apply head_filter_Some in H as (T1 & T2 & -> & Hall).
  by exists T1, T2.
Qed.

Lemma search_None T b :
  search T b = None → Forall (λ x, Some (inner_html x) ≠ s_inner_html b) T.
Proof.
  unfold search. intros H. apply Forall_forall. intros x Hx Hm.
  assert (x ∈ filter (λ item, Some (inner_html item) = s_inner_html b) T)
    as Hin by (by apply list_elem_of_filter).
  destruct (filter _ T); [by apply elem_of_nil in Hin | discriminate].
Qed.

Lemma search_raw_block T a :
  NoDup (inner_html <$> T) → a ∈ T → search T (raw_block a) = Some a.
Proof.
  unfold search. simpl. induction T as [|x T IH]; intros Hnd Hin.
  - by apply elem_of_nil in Hin.
  - rewrite fmap_cons in Hnd. apply NoDup_cons in Hnd as [Hx Hnd].
    rewrite filter_cons.
    destruct (decide (x = a)) as [->|Hne].
    + by rewrite decide_True.
    + apply elem_of_cons in Hin as [->|Hin]; [done|].
      rewrite decide_False; [by apply IH|].
      intros [= E]. apply Hx. rewrite E. by apply list_elem_of_fmap_2.
Qed.

Section parse_facts.
Variable text_content : option string → result string.
Variable b64encode : string → string.

Lemma parse_not_blank attribs element data (l : list ParsedBlock) :
  sd_raw_submitted_answers data !! (answers_name element +:+ "-input")
  = Some (Some l) →
  l ≠ [] ∨ allow_blank attribs = Some true →
  parse text_content b64encode attribs element data
  = (correct_answers ←
       subscript (sd_correct_answers data !! answers_name element);
     student_answer ←
       parse_answers
         (default GRADING_METHOD_DEFAULT (grading_method element))
         correct_answers (Some l);
     '(submitted, format_errors) ←
       match default GRADING_METHOD_DEFAULT (grading_method element) with
       | EXTERNAL =>
           parse_files text_content b64encode attribs element data
                       student_answer
       | _ => Ok (sd_submitted_answers data, sd_format_errors data)
       end;
     Ok {| sd_correct_answers := sd_correct_answers data;
           sd_raw_submitted_answers := sd_raw_submitted_answers data;
           sd_submitted_answers :=
             delete (answers_name element +:+ "-input")
                    (<[answers_name element := SV_answer student_answer]>
                       submitted);
           sd_format_errors := format_errors |}).
Proof.
  intros Hraw Hnb. unfold parse. rewrite Hraw.
  change (default (Some []) (Some (Some l))) with (Some l).
  destruct (negb (default ALLOW_BLANK_DEFAULT (allow_blank attribs)) && _)
    eqn:E; [exfalso|reflexivity].
  apply andb_true_iff in E as [E1 E2].
  apply orb_true_iff in E2 as [E2|E2]; apply bool_decide_eq_true_1 in E2;
    [discriminate|].
  injection E2 as ->.
  destruct Hnb as [Hl|Ha]; [done|]. rewrite Ha in E1. discriminate.
Qed.

(** X24: without [allow-blank], [parse] reports a blank submission (no raw
    entry, [null], or an empty list) as a format error under the answer
    name and changes nothing else: no submitted answer is stored, and the
    correct answers are not even looked up. *)
Theorem parse_blank_submission
    (attribs : ParseAttribs) (element : Element) (data : SubmissionData) :
  default ALLOW_BLANK_DEFAULT (allow_blank attribs) = false →
  sd_raw_submitted_answers data !! (answers_name element +:+ "-input")
  ∈ [None; Some None; Some (Some [])] →
  parse text_content b64encode attribs element data
  = Ok {| sd_correct_answers := sd_correct_answers data;
          sd_raw_submitted_answers := sd_raw_submitted_answers data;
          sd_submitted_answers := sd_submitted_answers data;
          sd_format_errors :=
            <[answers_name element := msg_blank]> (sd_format_errors data) |}.
Proof.
  intros Hallow Hraw. unfold parse. rewrite Hallow.
  rewrite !elem_of_cons, elem_of_nil in Hraw.
  destruct Hraw as [-> | [-> | [-> | []]]]; reflexivity.
Qed.

(** X25: for a submission that is not blank and a grading method other
    than [EXTERNAL], [parse] stores the submitted blocks under the answer
    name, removes the raw entry from the submitted answers and reports no
    format error. The blocks keep their uuids, indents and contents.
    Under [RANKING] and [DAG] each block gets the tag of the first correct
    answer with the same content, or a null tag when there is none; under
    [UNORDERED] and [ORDERED] the blocks are stored as they were sent. *)
Theorem parse_completes_blocks
    (attribs : ParseAttribs) (element : Element) (data : SubmissionData)
    (T : list OrderBlocksAnswerData) (l : list ParsedBlock) :
  default GRADING_METHOD_DEFAULT (grading_method element) ≠ EXTERNAL →
  sd_raw_submitted_answers data !! (answers_name element +:+ "-input")
  = Some (Some l) →
  l ≠ [] ∨ allow_blank attribs = Some true →
  sd_correct_answers data !! answers_name element = Some T →
  ∃ data' blocks,
    parse text_content b64encode attribs element data = Ok data'
    ∧ parsed_blocks (answers_name element) data' = Some blocks
    ∧ sd_submitted_answers data' !! (answers_name element +:+ "-input")
      = None
    ∧ sd_format_errors data' = sd_format_errors data
    ∧ sd_correct_answers data' = sd_correct_answers data
    ∧ Forall2
        (λ b b',
           s_uuid b' = s_uuid (pb_block b)
           ∧ s_indent b' = s_indent (pb_block b)
           ∧ s_inner_html b' = s_inner_html (pb_block b)
           ∧ match default GRADING_METHOD_DEFAULT (grading_method element)
             with
             | RANKING | DAG =>
                 (∃ T1 a T2,
                    T = T1 ++ a :: T2
                    ∧ Some (inner_html a) = s_inner_html (pb_block b)
                    ∧ Forall (λ x, Some (inner_html x)
                                   ≠ s_inner_html (pb_block b)) T1
                    ∧ s_tag b' = Some (Some (tag a)))
                 ∨ (Forall (λ x, Some (inner_html x)
                                 ≠ s_inner_html (pb_block b)) T
                    ∧ s_tag b' = Some None)
             | _ => s_tag b' = s_tag (pb_block b)
             end)
        l blocks.
Proof.
  intros Hm Hraw Hnb HT.
  rewrite (parse_not_blank _ _ _ _ Hraw Hnb), HT. simpl.
  assert (∀ (l' : list ParsedBlock) submitted fe,
            parsed_blocks (answers_name element)
              {| sd_correct_answers := sd_correct_answers data;
                 sd_raw_submitted_answers := sd_raw_submitted_answers data;
                 sd_submitted_answers :=
                   delete (answers_name element +:+ "-input")
                     (<[answers_name element := SV_answer (Some l')]>
                        submitted);
                 sd_format_errors := fe |}
            = Some (pb_block <$> l')) as Hblocks.
  { intros l' submitted fe. unfold parsed_blocks. simpl.
    rewrite lookup_delete_ne by apply raw_name_ne.
    rewrite lookup_insert_eq. reflexivity. }
  assert (∀ b (b' : SubmittedBlock),
            b' = set_tag (tag <$> search T (pb_block b)) (pb_block b) →
            s_uuid b' = s_uuid (pb_block b)
            ∧ s_indent b' = s_indent (pb_block b)
            ∧ s_inner_html b' = s_inner_html (pb_block b)
            ∧ ((∃ T1 a T2,
                  T = T1 ++ a :: T2
                  ∧ Some (inner_html a) = s_inner_html (pb_block b)
                  ∧ Forall (λ x, Some (inner_html x)
                                 ≠ s_inner_html (pb_block b)) T1
                  ∧ s_tag b' = Some (Some (tag a)))
               ∨ (Forall (λ x, Some (inner_html x)
                               ≠ s_inner_html (pb_block b)) T
                  ∧ s_tag b' = Some None))) as Htag.
  { intros b b' ->. split; [done|]. split; [done|]. split; [done|].
    destruct (search T (pb_block b)) as [a|] eqn:Hs.
    - left. apply search_Some in Hs as (T1 & T2 & -> & Hmatch & Hfirst).
      by exists T1, a, T2.
    - right. split; [by apply search_None | done]. }
  destruct (default GRADING_METHOD_DEFAULT (grading_method element)) eqn:Em;
    try done; simpl.
  - eexists _, _. split; [reflexivity|].
    split; [apply Hblocks|].
    simpl. rewrite lookup_delete_eq. split; [done|]. split; [done|].
    split; [done|].
    apply Forall2_fmap_r, Forall_Forall2_diag, Forall_forall. by intros.
  - eexists _, _. split; [reflexivity|].
    split; [apply Hblocks|].
    simpl. rewrite lookup_delete_eq. split; [done|]. split; [done|].
    split; [done|].
    apply Forall2_fmap_r, Forall_Forall2_diag, Forall_forall. by intros.
  - eexists _, _. split; [reflexivity|]. split; [apply Hblocks|].
    simpl. rewrite lookup_delete_eq. split; [done|]. split; [done|].
    split; [done|].
    apply Forall2_fmap_r, Forall2_fmap_r, Forall_Forall2_diag, Forall_forall.
    intros b _. by apply Htag.
  - eexists _, _. split; [reflexivity|]. split; [apply Hblocks|].
    simpl. rewrite lookup_delete_eq. split; [done|]. split; [done|].
    split; [done|].
    apply Forall2_fmap_r, Forall2_fmap_r, Forall_Forall2_diag, Forall_forall.
    intros b _. by apply Htag.
Qed.
End parse_facts.

Lemma mapM_result_Raise {A B} (f : A → result B) (l : list A) (e : error) :
  Forall (λ x, is_Ok (f x) ∨ f x = Raise e) l →
  Exists (λ x, f x = Raise e) l →
  mapM f l = Raise e.
Proof.
  induction 1 as [|x l Hx _ IH]; intros Hex; [by apply Exists_nil in Hex|].
  rewrite mapM_result_cons.
  destruct Hx as [[y Hy]|Hx]; [|by rewrite Hx].
  rewrite Hy. simpl.
  apply Exists_cons in Hex as [Hex|Hex]; [congruence|].
  rewrite (IH Hex). reflexivity.
Qed.

Lemma parsed_blocks_stored name (l : list ParsedBlock) ca raw submitted fe :
  parsed_blocks name
    {| sd_correct_answers := ca;
       sd_raw_submitted_answers := raw;
       sd_submitted_answers :=
         delete (name +:+ "-input") (<[name := SV_answer (Some l)]> submitted);
       sd_format_errors := fe |}
  = Some (pb_block <$> l).
Proof.
  unfold parsed_blocks. simpl.
  rewrite lookup_delete_ne by apply raw_name_ne.
  rewrite lookup_insert_eq. reflexivity.
Qed.

Section parse_more.
Variable text_content : option string → result string.
Variable b64encode : string → string.

(** X26: under [RANKING] and [DAG], when the contents of the correct
    answers are pairwise distinct, [parse] turns the correct answers as
    the client sends them (content, indent and uuid of each, in order)
    into the correct answers with their own tags: the submission that the
    self-check of [prepare] grades. *)
Theorem parse_canonical_answer
    (attribs : ParseAttribs) (element : Element) (data : SubmissionData)
    (T : list OrderBlocksAnswerData) :
  default GRADING_METHOD_DEFAULT (grading_method element) = RANKING
  ∨ default GRADING_METHOD_DEFAULT (grading_method element) = DAG →
  NoDup (inner_html <$> T) →
  sd_raw_submitted_answers data !! (answers_name element +:+ "-input")
  = Some (Some (dumped <$> (raw_block <$> T))) →
  T ≠ [] ∨ allow_blank attribs = Some true →
  sd_correct_answers data !! answers_name element = Some T →
  ∃ data',
    parse text_content b64encode attribs element data = Ok data'
    ∧ parsed_blocks (answers_name element) data' = Some (as_submitted <$> T)
    ∧ sd_format_errors data' = sd_format_errors data.
Proof.
  intros Hm Hnd Hraw Hnb HT.
  rewrite (parse_not_blank _ _ _ _ _ _ Hraw).
  2:{ destruct Hnb as [Hne|Ha]; [left|by right].
      destruct T; [done | discriminate]. }
  rewrite HT. simpl.
  assert (pb_block <$> (parse_ranking T <$> (dumped <$> (raw_block <$> T)))
          = as_submitted <$> T) as Hr.
  { assert (∀ a, a ∈ T →
              pb_block (parse_ranking T (dumped (raw_block a))) = as_submitted a)
      as Hpt.
    { intros a Ha.
      change (pb_block (parse_ranking T (dumped (raw_block a))))
        with (set_tag (tag <$> search T (raw_block a)) (raw_block a)).
      rewrite (search_raw_block T a Hnd Ha). reflexivity. }
    rewrite <- !list_fmap_compose. apply list_fmap_ext. intros i a Ha.
    exact (Hpt a (list_elem_of_lookup_2 _ _ _ Ha)). }
  assert (pb_block <$> (parse_dag T <$> (dumped <$> (raw_block <$> T)))
          = as_submitted <$> T) as Hd.
  { assert (∀ a, a ∈ T →
              pb_block (parse_dag T (dumped (raw_block a))) = as_submitted a)
      as Hpt.
    { intros a Ha.
      change (pb_block (parse_dag T (dumped (raw_block a))))
        with (set_tag (tag <$> search T (raw_block a)) (raw_block a)).
      rewrite (search_raw_block T a Hnd Ha). reflexivity. }
    rewrite <- !list_fmap_compose. apply list_fmap_ext. intros i a Ha.
    exact (Hpt a (list_elem_of_lookup_2 _ _ _ Ha)). }
  destruct Hm as [-> | ->]; simpl.
  - eexists. split; [reflexivity|].
    rewrite parsed_blocks_stored, Hr. done.
  - eexists. split; [reflexivity|].
    rewrite parsed_blocks_stored, Hd. done.
Qed.

Lemma answer_code_spec (l : list ParsedBlock) (texts : list string) code :
  Forall2 (λ b text, text_content (s_inner_html (pb_block b)) = Ok text)
          l texts →
  answer_code text_content l code
  = Ok (code +:+ foldr String.append EmptyString
                   (zip_with code_line texts
                             ((λ b, s_indent (pb_block b)) <$> l))).
Proof.
  intros H. revert code.
  induction H as [|b text l texts Hb _ IH]; intros code; simpl.
  - by rewrite append_empty_r.
  - rewrite Hb. simpl. rewrite IH, append_assoc. reflexivity.
Qed.

Lemma code_lines_nonempty (texts : list string) (indents : list (option Z)) :
  texts ≠ [] → indents ≠ [] →
  foldr String.append EmptyString (zip_with code_line texts indents)
  ≠ EmptyString.
Proof.
  destruct texts as [|t texts]; [done|].
  destruct indents as [|i indents]; [done|].
  intros _ _ H. simpl in H. apply (f_equal String.length) in H.
  unfold code_line in H. rewrite !append_length in H. simpl in H. lia.
Qed.

(** X27: under [EXTERNAL], for a submission that is not blank. When no
    [pl-answer] directly under the element has an attribute and the text
    of every block can be read, [parse] stores under ["_files"] one file,
    named after [file-name], that holds the encoded lines of the blocks:
    four spaces per level of indent, the text, a line feed; it also stores
    the blocks and reports no format error. When a [pl-answer] directly
    under the element has an attribute, be it [correct], which [prepare]
    accepts, [parse] raises. *)
Theorem parse_external_file
    (attribs : ParseAttribs) (element : Element) (data : SubmissionData)
    (T : list OrderBlocksAnswerData) (l : list ParsedBlock) :
  default GRADING_METHOD_DEFAULT (grading_method element) = EXTERNAL →
  sd_raw_submitted_answers data !! (answers_name element +:+ "-input")
  = Some (Some l) →
  l ≠ [] →
  sd_correct_answers data !! answers_name element = Some T →
  (∀ texts,
     Forall (λ c, h_name (c_node c) = TagName "pl-answer" →
                  attrib_names (h_attrs (c_node c)) = [])
            (el_children element) →
     Forall2 (λ b text, text_content (s_inner_html (pb_block b)) = Ok text)
             l texts →
     answers_name element ≠ "_files" →
     answers_name element +:+ "-input" ≠ "_files" →
     ∃ data',
       parse text_content b64encode attribs element data = Ok data'
       ∧ sd_submitted_answers data' !! "_files"
         = Some (SV_files
                   (default FILE_NAME_DEFAULT (file_name attribs))
                   (b64encode
                      (foldr String.append EmptyString
                         (zip_with code_line texts
                            ((λ b, s_indent (pb_block b)) <$> l)))))
       ∧ parsed_blocks (answers_name element) data' = Some (pb_block <$> l)
       ∧ sd_format_errors data' = sd_format_errors data)
  ∧ (Exists (λ c, h_name (c_node c) = TagName "pl-answer"
                  ∧ attrib_names (h_attrs (c_node c)) ≠ [])
            (el_children element) →
     parse text_content b64encode attribs element data
     = Raise (Exception "Unknown attribute")).
Proof.
  intros Hm Hraw Hne HT.
  rewrite (parse_not_blank _ _ _ _ _ _ Hraw) by (by left).
  rewrite HT, Hm. simpl. unfold parse_files. split.
  - intros texts Hattrs Htexts Hn1 Hn2.
    destruct (mapM_result_Forall2
                (λ html_tags : HtmlChild,
                   if decide (h_name (c_node html_tags) = TagName "pl-answer")
                   then check_attribs (h_attrs (c_node html_tags)) []
                   else Ok ())
                (el_children element) (λ _ _, True)) as (k & -> & _).
    { eapply Forall_impl; [exact Hattrs|]. intros c Hc. exists ().
      split; [|done]. destruct (decide _) as [E|E]; [|done].
      unfold check_attribs. by rewrite (Hc E). }
    simpl. rewrite (answer_code_spec l texts EmptyString Htexts). simpl.
    rewrite decide_False.
    2:{ apply code_lines_nonempty.
        - apply Forall2_length in Htexts.
          destruct texts; [|done]. by destruct l.
        - by destruct l. }
    eexists. split; [reflexivity|]. simpl.
    rewrite lookup_delete_ne by done.
    rewrite lookup_insert_ne by done.
    rewrite lookup_insert_eq. split; [done|].
    rewrite parsed_blocks_stored. done.
  - intros Hex.
    rewrite (mapM_result_Raise _ _ (Exception "Unknown attribute"));
      [reflexivity| |].
    + apply Forall_forall. intros c _.
      destruct (decide _); [|left; by eexists].
      unfold check_attribs. destruct (forallb _ _); [left; by eexists|].
      by right.
    + eapply Exists_impl; [exact Hex|]. intros c [Hn Ha].
      rewrite decide_True by exact Hn. unfold check_attribs.
      destruct (attrib_names (h_attrs (c_node c))) as [|n ns]; [done|].
      reflexivity.
Qed.
End parse_more.

(** ** Test data against parsing and grading *)

Lemma raw_block_uuids (T : list OrderBlocksAnswerData) :
  s_uuid <$> (raw_block <$> T) = uuid <$> T.
Proof. rewrite <- list_fmap_compose. reflexivity. Qed.

Lemma raw_block_contents (T : list OrderBlocksAnswerData) :
  s_inner_html <$> (raw_block <$> T) = contents T.
Proof. unfold contents. rewrite <- list_fmap_compose. reflexivity. Qed.

Lemma dumped_blocks (l : list SubmittedBlock) :
  pb_block <$> (dumped <$> l) = l.
Proof.
  rewrite <- list_fmap_compose. rewrite <- (list_fmap_id l) at 2.
  apply list_fmap_ext. by intros.
Qed.

Lemma gate_block_raw T c :
  NoDup (uuid <$> T) → c ∈ T →
  gate_block (indentations T) (raw_block c) = raw_block c.
Proof.
  intros Hnd Hc. unfold gate_block. simpl.
  rewrite (indentations_lookup T c Hnd Hc). simpl.
  rewrite (bool_decide_eq_false_2 (indent c ≠ indent c)) by auto.
  by rewrite andb_false_r.
Qed.

Lemma indentation_gate_raw b T :
  NoDup (uuid <$> T) →
  indentation_gate b T (raw_block <$> T) = raw_block <$> T.
Proof.
  intros Hnd. destruct b; [|done]. unfold indentation_gate.
  rewrite <- list_fmap_compose. apply list_fmap_ext.
  intros i x Hx. simpl. apply gate_block_raw; [done|].
  by eapply list_elem_of_lookup_2.
Qed.

Lemma test_correct_Ok element data T :
  td_test_type data = "correct" →
  td_correct_answers data !! answers_name element = Some T →
  test element data
  = Ok {| td_test_type := td_test_type data;
          td_correct_answers := td_correct_answers data;
          td_raw_submitted_answers :=
            <[answers_name element +:+ "-input"
              := Some (dumped <$> (raw_block <$> T))]>
              (td_raw_submitted_answers data);
          td_partial_scores :=
            <[answers_name element
              := {| score := 1; ps_feedback := EmptyString;
                    ps_weight := default WEIGHT_DEFAULT (weight element) |}]>
              (td_partial_scores data);
          td_format_errors := td_format_errors data |}.
Proof.
  intros Htt HT. unfold test. rewrite Htt, HT.
  destruct (decide ("correct" = "invalid")) as [E|_]; [discriminate E|].
  destruct (decide ("correct" = "correct")) as [_|E]; [|by destruct E].
  reflexivity.
Qed.

Lemma test_incorrect_Ok element data a T :
  td_test_type data = "incorrect" →
  default GRADING_METHOD_DEFAULT (grading_method element) = UNORDERED
  ∨ default GRADING_METHOD_DEFAULT (grading_method element) = ORDERED →
  td_correct_answers data !! answers_name element = Some (a :: T) →
  test element data
  = Ok {| td_test_type := td_test_type data;
          td_correct_answers := td_correct_answers data;
          td_raw_submitted_answers :=
            <[answers_name element +:+ "-input"
              := Some (dumped <$> (raw_block <$> T))]>
              (td_raw_submitted_answers data);
          td_partial_scores :=
            <[answers_name element
              := {| score :=
                      if decide (default GRADING_METHOD_DEFAULT
                                   (grading_method element) = UNORDERED)
                      then round2 (Qdiv (inject_Z (Z.of_nat (length T)))
                                        (inject_Z (Z.of_nat (length T) + 1)))
                      else 0%Q;
                    ps_feedback := EmptyString;
                    ps_weight := default WEIGHT_DEFAULT (weight element) |}]>
              (td_partial_scores data);
          td_format_errors := td_format_errors data |}.
Proof.
  intros Htt Hm HT. unfold test. rewrite Htt, HT.
  destruct (decide ("incorrect" = "invalid")) as [E|_]; [discriminate E|].
  destruct (decide ("incorrect" = "correct")) as [E|_]; [discriminate E|].
  destruct (decide ("incorrect" = "incorrect")) as [_|E]; [|by destruct E].
  destruct Hm as [Hm | Hm]; rewrite Hm; simpl.
  - unfold float_div. rewrite length_fmap.
    destruct (decide (Z.of_nat (length T) + 1 = 0)) as [E|_]; [lia|].
    reflexivity.
  - reflexivity.
Qed.

Lemma submission_of_test_parse text_content b64encode attribs element
    (tdata : ElementTestData) (l : list SubmittedBlock) :
  default GRADING_METHOD_DEFAULT (grading_method element) = UNORDERED
  ∨ default GRADING_METHOD_DEFAULT (grading_method element) = ORDERED →
  td_raw_submitted_answers tdata !! (answers_name element +:+ "-input")
  = Some (Some (dumped <$> l)) →
  l ≠ [] →
  is_Some (td_correct_answers tdata !! answers_name element) →
  ∃ pdata',
    parse text_content b64encode attribs element (submission_of_test tdata)
    = Ok pdata'
    ∧ sd_format_errors pdata' = ∅
    ∧ parsed_blocks (answers_name element) pdata' = Some l.
Proof.
  intros Hm Hraw Hne [T HT].
  rewrite (parse_not_blank _ _ _ _ _ (dumped <$> l)).
  - simpl. rewrite HT. simpl.
    destruct Hm as [-> | ->]; simpl;
      (eexists; split; [reflexivity|]; split; [reflexivity|];
       rewrite parsed_blocks_stored; by rewrite dumped_blocks).
  - exact Hraw.
  - left. destruct l; [done | discriminate].
Qed.

(** X28: under [UNORDERED] and [ORDERED], for correct answers with
    distinct uuids, the test of the type ["correct"] predicts what the
    element does: [parse] accepts the raw submission that [test] wrote
    without a format error, and [grade] gives the parsed blocks the score
    and the feedback that [test] recorded. *)
Theorem test_correct_agrees_with_grade
    (gd : list (option string) → depends_graph_t → group_belonging_t →
          result (nat * nat))
    (lcs : list (option string) → depends_graph_t → group_belonging_t →
           result nat)
    (text_content : option string → result string)
    (b64encode : string → string)
    (attribs : ParseAttribs) (element : Element) (data : ElementTestData)
    (T : list OrderBlocksAnswerData) :
  td_test_type data = "correct" →
  default GRADING_METHOD_DEFAULT (grading_method element) = UNORDERED
  ∨ default GRADING_METHOD_DEFAULT (grading_method element) = ORDERED →
  td_correct_answers data !! answers_name element = Some T →
  T ≠ [] →
  NoDup (uuid <$> T) →
  ∃ tdata' pdata' blocks g ps,
    test element data = Ok tdata'
    ∧ parse text_content b64encode attribs element
            (submission_of_test tdata') = Ok pdata'
    ∧ sd_format_errors pdata' = ∅
    ∧ parsed_blocks (answers_name element) pdata' = Some blocks
    ∧ grade_locals gd lcs element T blocks = Ok g
    ∧ td_partial_scores tdata' !! answers_name element = Some ps
    ∧ (score ps == round2 (g_final_score g))%Q
    ∧ ps_feedback ps = g_feedback g.
Proof.
  intros Htt Hm HT Hne Hnd.
  rewrite (test_correct_Ok _ _ _ Htt HT).
  destruct (submission_of_test_parse text_content b64encode attribs element
              {| td_test_type := td_test_type data;
                 td_correct_answers := td_correct_answers data;
                 td_raw_submitted_answers :=
                   <[answers_name element +:+ "-input"
                     := Some (dumped <$> (raw_block <$> T))]>
                     (td_raw_submitted_answers data);
                 td_partial_scores :=
                   <[answers_name element
                     := {| score := 1; ps_feedback := EmptyString;
                           ps_weight :=
                             default WEIGHT_DEFAULT (weight element) |}]>
                     (td_partial_scores data);
                 td_format_errors := td_format_errors data |}
              (raw_block <$> T) Hm)
    as (pdata' & Hp & Hfe & Hb).
  { simpl. apply lookup_insert_eq. }
  { destruct T; [done | discriminate]. }
  { simpl. by rewrite HT. }
  assert (∃ g, grade_locals gd lcs element T (raw_block <$> T) = Ok g
               ∧ (g_final_score g == 1)%Q
               ∧ g_feedback g = EmptyString) as (g & Hg & Hs & Hf).
  { unfold grade_locals. rewrite (indentation_gate_raw _ _ Hnd).
    destruct Hm as [-> | ->].
    - rewrite (grade_unordered_uuids T (raw_block <$> T) (as_submitted <$> T))
        by (by rewrite raw_block_uuids, as_submitted_uuids).
      destruct (grade_unordered_self T Hne Hnd) as (q & -> & Hq). simpl.
      eexists. split; [reflexivity|]. simpl. by split.
    - eexists. split; [reflexivity|]. simpl. split; [|done].
      unfold grade_ordered. rewrite raw_block_contents. unfold contents.
      by rewrite decide_True. }
  eexists _, pdata', (raw_block <$> T), g, _.
  split; [reflexivity|]. split; [exact Hp|]. split; [exact Hfe|].
  split; [exact Hb|]. split; [exact Hg|]. simpl.
  split; [apply lookup_insert_eq|]. simpl.
  split; [|by rewrite Hf].
  symmetry. apply round2_one. exact Hs.
Qed.

Lemma unordered_missing_first a (T : list OrderBlocksAnswerData) :
  NoDup (uuid <$> a :: T) →
  size (list_to_set (C := gset string) (uuid <$> a :: T)
        ∩ list_to_set (s_uuid <$> (raw_block <$> T)))
  = length T.
Proof.
  intros Hnd. rewrite raw_block_uuids.
  rewrite fmap_cons in Hnd. apply NoDup_cons in Hnd as [_ Hnd].
  rewrite <- (length_fmap uuid T).
  rewrite <- (size_list_to_set (C := gset string) (uuid <$> T) Hnd).
  f_equal. apply leibniz_equiv. intros x.
  rewrite elem_of_intersection, fmap_cons, list_to_set_cons, elem_of_union.
  tauto.
Qed.

(** X29: under [UNORDERED] and [ORDERED], for at least two correct answers
    with distinct uuids, the test of the type ["incorrect"] predicts what
    the element does: [parse] accepts the raw submission that [test] wrote
    (the correct answers without the first) without a format error, and
    [grade] gives the parsed blocks the score and the feedback that [test]
    recorded, which is (n - 1) / n rounded to two places for n correct
    answers under [UNORDERED], and 0 under [ORDERED]. *)
Theorem test_incorrect_agrees_with_grade
    (gd : list (option string) → depends_graph_t → group_belonging_t →
          result (nat * nat))
    (lcs : list (option string) → depends_graph_t → group_belonging_t →
           result nat)
    (text_content : option string → result string)
    (b64encode : string → string)
    (attribs : ParseAttribs) (element : Element) (data : ElementTestData)
    (a : OrderBlocksAnswerData) (T : list OrderBlocksAnswerData) :
  td_test_type data = "incorrect" →
  default GRADING_METHOD_DEFAULT (grading_method element) = UNORDERED
  ∨ default GRADING_METHOD_DEFAULT (grading_method element) = ORDERED →
  td_correct_answers data !! answers_name element = Some (a :: T) →
  T ≠ [] →
  NoDup (uuid <$> a :: T) →
  ∃ tdata' pdata' blocks g ps,
    test element data = Ok tdata'
    ∧ parse text_content b64encode attribs element
            (submission_of_test tdata') = Ok pdata'
    ∧ sd_format_errors pdata' = ∅
    ∧ parsed_blocks (answers_name element) pdata' = Some blocks
    ∧ grade_locals gd lcs element (a :: T) blocks = Ok g
    ∧ td_partial_scores tdata' !! answers_name element = Some ps
    ∧ (score ps == round2 (g_final_score g))%Q
    ∧ ps_feedback ps = g_feedback g.
Proof.
  intros Htt Hm HT Hne Hnd.
  rewrite (test_incorrect_Ok _ _ _ _ Htt Hm HT).
  match goal with
  | |- ∃ tdata' _ _ _ _, Ok ?d = Ok tdata' ∧ _ =>
      destruct (submission_of_test_parse text_content b64encode attribs
                  element d (raw_block <$> T) Hm)
        as (pdata' & Hp & Hfe & Hb)
  end.
  { simpl. apply lookup_insert_eq. }
  { destruct T; [done | discriminate]. }
  { simpl. by rewrite HT. }
  assert (∃ g, grade_locals gd lcs element (a :: T) (raw_block <$> T) = Ok g
               ∧ g_final_score g
                 = (if decide (default GRADING_METHOD_DEFAULT
                                 (grading_method element) = UNORDERED)
                    then Qdiv (inject_Z (Z.of_nat (length T)))
                              (inject_Z (Z.of_nat (length T) + 1))
                    else 0%Q)
               ∧ g_feedback g = EmptyString) as (g & Hg & Hs & Hf).
  { unfold grade_locals. destruct Hm as [Hm | Hm]; rewrite Hm.
    - rewrite decide_True by done.
      rewrite (grade_unordered_uuids (a :: T) _ (raw_block <$> T))
        by apply indentation_gate_uuids.
      unfold grade_unordered. rewrite (unordered_missing_first a T Hnd).
      rewrite !length_fmap.
      change (length (a :: T)) with (S (length T)).
      replace (Z.of_nat (S (length T))) with (Z.of_nat (length T) + 1) by lia.
      replace (Z.of_nat (length T) - (Z.of_nat (length T) - Z.of_nat (length T)))
        with (Z.of_nat (length T)) by lia.
      unfold float_div.
      destruct (decide (Z.of_nat (length T) + 1 = 0)) as [E|_]; [lia|].
      eexists. split; [reflexivity|]. simpl. split; [|done].
      unfold pymax. destruct (Qlt_le_dec 0 _) as [_|Hle]; [reflexivity|].
      exfalso. revert Hle. apply Qlt_not_le.
      apply Qlt_shift_div_l.
      + change 0%Q with (inject_Z 0). rewrite <- Zlt_Qlt. lia.
      + rewrite Qmult_0_l. change 0%Q with (inject_Z 0).
        rewrite <- Zlt_Qlt. destruct T; [done|]. simpl. lia.
    - rewrite decide_False by discriminate.
      eexists. split; [reflexivity|]. simpl. split; [|done].
      unfold grade_ordered. rewrite decide_False; [done|].
      intros E. apply (f_equal length) in E.
      rewrite !length_fmap, indentation_gate_length, length_fmap in E.
      simpl in E. lia. }
  eexists _, pdata', (raw_block <$> T), g, _.
  split; [reflexivity|]. split; [exact Hp|]. split; [exact Hfe|].
  split; [exact Hb|]. split; [exact Hg|]. simpl.
  split; [apply lookup_insert_eq|]. simpl.
  split; [|by rewrite Hf].
  rewrite Hs. destruct (decide _); reflexivity.
Qed.

(** X30: the test of the type ["invalid"] writes an empty raw submission
    and records a format error under the answer name, leaving the correct
    answers and the partial scores as they were. Without [allow-blank],
    [parse] reports a format error under that name for this submission
    and stores nothing. With [allow-blank] and a grading method other than
    [EXTERNAL], [parse] reports no format error and stores an empty
    submission. *)
Theorem test_invalid_agrees_with_parse
    (text_content : option string → result string)
    (b64encode : string → string)
    (attribs : ParseAttribs) (element : Element) (data : ElementTestData) :
  td_test_type data = "invalid" →
  ∃ tdata',
    test element data = Ok tdata'
    ∧ td_correct_answers tdata' = td_correct_answers data
    ∧ td_partial_scores tdata' = td_partial_scores data
    ∧ is_Some (td_format_errors tdata' !! answers_name element)
    ∧ (default ALLOW_BLANK_DEFAULT (allow_blank attribs) = false →
       ∃ pdata',
         parse text_content b64encode attribs element
               (submission_of_test tdata') = Ok pdata'
         ∧ is_Some (sd_format_errors pdata' !! answers_name element)
         ∧ sd_submitted_answers pdata'
           = sd_submitted_answers (submission_of_test tdata'))
    ∧ (allow_blank attribs = Some true →
       default GRADING_METHOD_DEFAULT (grading_method element) ≠ EXTERNAL →
       is_Some (td_correct_answers data !! answers_name element) →
       ∃ pdata',
         parse text_content b64encode attribs element
               (submission_of_test tdata') = Ok pdata'
         ∧ sd_format_errors pdata' = ∅
         ∧ parsed_blocks (answers_name element) pdata' = Some []).
Proof.
  intros Htt. unfold test. rewrite Htt.
  destruct (decide ("invalid" = "invalid")) as [_|E]; [|by destruct E].
  eexists. split; [reflexivity|]. simpl.
  split; [done|]. split; [done|].
  split; [rewrite lookup_insert_eq; by eexists|]. split.
  - intros Ha. eexists. split.
    + apply parse_blank_submission; [exact Ha|]. simpl.
      rewrite lookup_insert_eq. apply list_elem_of_further.
      apply list_elem_of_further, list_elem_of_here.
    + simpl. split; [rewrite lookup_insert_eq; by eexists | done].
  - intros Ha Hm [T HT].
    rewrite (parse_not_blank _ _ _ _ _ []);
      [|simpl; apply lookup_insert_eq | by right].
    simpl. rewrite HT. simpl.
    destruct (default GRADING_METHOD_DEFAULT (grading_method element));
      try done; simpl;
      (eexists; split; [reflexivity|]; split; [reflexivity|];
       by rewrite parsed_blocks_stored).
Qed.

Lemma parse_blank_submission_witness :
  parse ParseExamples.text_content ParseExamples.b64encode
        ParseExamples.attribs
        (Examples.element DAG false None None [])
        (ParseExamples.submission [])
  = Ok {| sd_correct_answers :=
            sd_correct_answers (ParseExamples.submission []);
          sd_raw_submitted_answers :=
            sd_raw_submitted_answers (ParseExamples.submission []);
          sd_submitted_answers :=
            sd_submitted_answers (ParseExamples.submission []);
          sd_format_errors :=
            <["order" := msg_blank]>
              (sd_format_errors (ParseExamples.submission [])) |}.
Proof.
  apply (parse_blank_submission ParseExamples.text_content
           ParseExamples.b64encode ParseExamples.attribs
           (Examples.element DAG false None None [])
           (ParseExamples.submission [])).
  - reflexivity.
  - refine (bool_decide_unpack _ _). vm_compute. exact I.
Defined.

Lemma parse_completes_blocks_witness :
  ∃ data' blocks,
    parse ParseExamples.text_content ParseExamples.b64encode
          ParseExamples.attribs
          (Examples.element DAG false None None [])
          (ParseExamples.submission [Examples.sb; Examples.sa])
    = Ok data'
    ∧ parsed_blocks "order" data' = Some blocks
    ∧ sd_submitted_answers data' !! "order-input" = None.
Proof.
  destruct (parse_completes_blocks ParseExamples.text_content
              ParseExamples.b64encode ParseExamples.attribs
              (Examples.element DAG false None None [])
              (ParseExamples.submission [Examples.sb; Examples.sa])
              [Examples.a; Examples.b; Examples.c]
              (dumped <$> [Examples.sb; Examples.sa]))
    as (data' & blocks & H1 & H2 & H3 & _).
  - discriminate.
  - reflexivity.
  - left. discriminate.
  - reflexivity.
  - exists data', blocks. split; [exact H1|]. split; [exact H2 | exact H3].
Defined.

Lemma parse_canonical_answer_witness :
  ∃ data',
    parse ParseExamples.text_content ParseExamples.b64encode
          ParseExamples.attribs
          (Examples.element RANKING true None None [])
          (ParseExamples.submission
             (raw_block <$> [Examples.a; Examples.b; Examples.c]))
    = Ok data'
    ∧ parsed_blocks "order" data'
      = Some (as_submitted <$> [Examples.a; Examples.b; Examples.c]).
Proof.
  destruct (parse_canonical_answer ParseExamples.text_content
              ParseExamples.b64encode ParseExamples.attribs
              (Examples.element RANKING true None None [])
              (ParseExamples.submission
                 (raw_block <$> [Examples.a; Examples.b; Examples.c]))
              [Examples.a; Examples.b; Examples.c])
    as (data' & H1 & H2 & _).
  - left. reflexivity.
  - refine (bool_decide_unpack _ _). vm_compute. exact I.
  - reflexivity.
  - left. discriminate.
  - reflexivity.
  - exists data'. split; [exact H1 | exact H2].
Defined.

Lemma parse_external_file_witness :
  ∃ data',
    parse ParseExamples.text_content ParseExamples.b64encode
          ParseExamples.attribs
          (Examples.element EXTERNAL false None None
             [Examples.answer "first line"
                {| at_correct := None; at_indent := None; at_ranking := None;
                   at_distractor_for := None; at_tag := None;
                   at_depends := None; at_comment := None;
                   at_other := [] |}])
          (ParseExamples.submission [Examples.sb; Examples.sa])
    = Ok data'
    ∧ sd_submitted_answers data' !! "_files"
      = Some (SV_files "user_code.py"
                ("    second line" +:+ newline +:+ "first line" +:+ newline)).
Proof.
  destruct (parse_external_file ParseExamples.text_content
              ParseExamples.b64encode ParseExamples.attribs
              (Examples.element EXTERNAL false None None
                 [Examples.answer "first line"
                    {| at_correct := None; at_indent := None;
                       at_ranking := None; at_distractor_for := None;
                       at_tag := None; at_depends := None;
                       at_comment := None; at_other := [] |}])
              (ParseExamples.submission [Examples.sb; Examples.sa])
              [Examples.a; Examples.b; Examples.c]
              (dumped <$> [Examples.sb; Examples.sa]))
    as [H _].
  - reflexivity.
  - reflexivity.
  - discriminate.
  - reflexivity.
  - destruct (H ["second line"; "first line"]) as (data' & H1 & H2 & _).
    + repeat constructor.
    + repeat constructor.
    + discriminate.
    + discriminate.
    + exists data'. split; [exact H1 | exact H2].
Defined.

Lemma test_correct_agrees_with_grade_witness :
  ∃ tdata' pdata' blocks g ps,
    test (Examples.element UNORDERED true None None [])
         (ParseExamples.test_data "correct") = Ok tdata'
    ∧ parse ParseExamples.text_content ParseExamples.b64encode
            ParseExamples.attribs
            (Examples.element UNORDERED true None None [])
            (submission_of_test tdata') = Ok pdata'
    ∧ parsed_blocks "order" pdata' = Some blocks
    ∧ grade_locals dag_checker.grade_dag dag_checker.lcs_partial_credit
                   (Examples.element UNORDERED true None None [])
                   [Examples.a; Examples.b; Examples.c] blocks = Ok g
    ∧ td_partial_scores tdata' !! "order" = Some ps
    ∧ (score ps == round2 (g_final_score g))%Q.
Proof.
  destruct (test_correct_agrees_with_grade
              dag_checker.grade_dag dag_checker.lcs_partial_credit
              ParseExamples.text_content ParseExamples.b64encode
              ParseExamples.attribs
              (Examples.element UNORDERED true None None [])
              (ParseExamples.test_data "correct")
              [Examples.a; Examples.b; Examples.c])
    as (tdata' & pdata' & blocks & g & ps & H1 & H2 & _ & H4 & H5 & H6 & H7
        & _).
  - reflexivity.
  - left. reflexivity.
  - reflexivity.
  - discriminate.
  - refine (bool_decide_unpack _ _). vm_compute. exact I.
  - exists tdata', pdata', blocks, g, ps. repeat (split; [assumption|]).
    assumption.
Defined.

Lemma test_incorrect_agrees_with_grade_witness :
  ∃ tdata' pdata' blocks g ps,
    test (Examples.element UNORDERED false None None [])
         (ParseExamples.test_data "incorrect") = Ok tdata'
    ∧ parse ParseExamples.text_content ParseExamples.b64encode
            ParseExamples.attribs
            (Examples.element UNORDERED false None None [])
            (submission_of_test tdata') = Ok pdata'
    ∧ parsed_blocks "order" pdata' = Some blocks
    ∧ grade_locals dag_checker.grade_dag dag_checker.lcs_partial_credit
                   (Examples.element UNORDERED false None None [])
                   [Examples.a; Examples.b; Examples.c] blocks = Ok g
    ∧ td_partial_scores tdata' !! "order" = Some ps
    ∧ (score ps == round2 (g_final_score g))%Q.
Proof.
  destruct (test_incorrect_agrees_with_grade
              dag_checker.grade_dag dag_checker.lcs_partial_credit
              ParseExamples.text_content ParseExamples.b64encode
              ParseExamples.attribs
              (Examples.element UNORDERED false None None [])
              (ParseExamples.test_data "incorrect")
              Examples.a [Examples.b; Examples.c])
    as (tdata' & pdata' & blocks & g & ps & H1 & H2 & _ & H4 & H5 & H6 & H7
        & _).
  - reflexivity.
  - left. reflexivity.
  - reflexivity.
  - discriminate.
  - refine (bool_decide_unpack _ _). vm_compute. exact I.
  - exists tdata', pdata', blocks, g, ps. repeat (split; [assumption|]).
    assumption.
Defined.

Lemma test_invalid_agrees_with_parse_witness :
  ∃ tdata' pdata',
    test (Examples.element ORDERED false None None [])
         (ParseExamples.test_data "invalid") = Ok tdata'
    ∧ is_Some (td_format_errors tdata' !! "order")
    ∧ parse ParseExamples.text_content ParseExamples.b64encode
            ParseExamples.attribs
            (Examples.element ORDERED false None None [])
            (submission_of_test tdata') = Ok pdata'
    ∧ is_Some (sd_format_errors pdata' !! "order").
Proof.
  destruct (test_invalid_agrees_with_parse
              ParseExamples.text_content ParseExamples.b64encode
              ParseExamples.attribs
              (Examples.element ORDERED false None None [])
              (ParseExamples.test_data "invalid"))
    as (tdata' & H1 & _ & _ & H2 & H3 & _).
  - reflexivity.
  - destruct H3 as (pdata' & H4 & H5 & _); [reflexivity|].
    exists tdata', pdata'. repeat (split; [assumption|]). assumption.
Defined.
